(** * ws.py: a multi-binding TCP relay behind a fake WebSocket upgrade

    A shallow embedding of [src/ws.py] and the properties of its
    configuration resolution ([load_config]), routing-header extraction
    ([ConnectionHandler.parse_headers]), session life cycle
    ([ConnectionHandler.run], [connect_target], [close]) and relay loop
    ([ConnectionHandler.tunnel]); of its command line ([parse_args],
    [parse_indexed_arg]), start-up ([main]) and server threads
    ([Server.run], [handle_connection], [stop]).

    Layout: the Python built-ins the program calls ("Python values"),
    the program itself with the environment its sessions run in ("The
    program"), the notions the theorems are stated with and sample
    inputs; then the lemmas and theorems, and the theorems tried on the
    sample inputs. *)

From Stdlib Require Import ZArith NArith QArith Lia DecimalString.
From Stdlib.Strings Require Import Ascii String Byte.
From stdpp Require Import base option list.

Local Open Scope N_scope.

(* ===================================================================== *)
(** * Python values                                                       *)
(* ===================================================================== *)

(** A [str] is a sequence of Unicode code points, a [bytes] object a
    sequence of octets. *)
Definition str := list N.
Definition bytes := list byte.

(** The ASCII literals of the source. *)
Definition lit (s : string) : str := N_of_ascii <$> list_ascii_of_string s.

(** The exception classes the program can meet.  All of them derive from
    [Exception]; [BlockingIOError] derives from [OSError]. *)
Inductive exn :=
  | UnicodeDecodeError
  | UnicodeEncodeError
  | IndexError
  | ValueError
  | OverflowError
  | AttributeError
  | BlockingIOError
  | OSError.

Definition is_BlockingIOError (e : exn) : bool :=
  match e with BlockingIOError => true | _ => false end.

(** A computation that returns or raises. *)
Inductive result (A : Type) :=
  | Ok (a : A)
  | Raise (e : exn).
Arguments Ok {A} a.
Arguments Raise {A} e.

#[export] Instance result_ret : MRet result := fun A a => Ok a.
#[export] Instance result_bind : MBind result := fun A B k m =>
  match m with
  | Ok a => k a
  | Raise e => Raise e
  end.

(** What the interpreter's Unicode database and settings contribute for
    code points outside ASCII.  These tables belong to the Python
    runtime, not to ws.py, so the program is modelled for any of them. *)
Class Runtime := {
  (** [str.lower] of one non-ASCII code point (possibly several code points) *)
  uni_lower : N -> list N;
  (** [str.isspace] of one non-ASCII code point *)
  uni_isspace : N -> bool;
  (** the decimal digit value of a non-ASCII code point, if it is a digit *)
  uni_decimal : N -> option N;
  (** [sys.get_int_max_str_digits()], [None] when the limit is off; it
      applies to literals of more than 640 digits *)
  int_max_str_digits : option nat
}.

(** A runtime that knows no non-ASCII letter, space or digit and has the
    default limit of CPython 3.11 on the digits of an integer literal. *)
Definition ascii_runtime : Runtime :=
  {| uni_lower := fun c => [c];
     uni_isspace := fun _ => false;
     uni_decimal := fun _ => None;
     int_max_str_digits := Some 4300%nat |}.

(** ** bytes.decode() : strict UTF-8 *)

Definition is_cont (b : N) : bool := (0x80 <=? b) && (b <=? 0xBF).
Definition in_range (lo hi b : N) : bool := (lo <=? b) && (b <=? hi).
Definition cont_bits (b : N) : N := b - 0x80.

Fixpoint utf8_decode (bs : list N) : option str :=
  match bs with
  | [] => Some []
  | b0 :: r0 =>
    if b0 <? 0x80 then cons b0 <$> utf8_decode r0
    else if in_range 0xC2 0xDF b0 then
      match r0 with
      | b1 :: r1 =>
        if is_cont b1
        then cons ((b0 - 0xC0) * 64 + cont_bits b1) <$> utf8_decode r1
        else None
      | _ => None
      end
    else if in_range 0xE0 0xEF b0 then
      match r0 with
      | b1 :: b2 :: r2 =>
        if in_range (if b0 =? 0xE0 then 0xA0 else 0x80)
                    (if b0 =? 0xED then 0x9F else 0xBF) b1 && is_cont b2
        then cons ((b0 - 0xE0) * 4096 + cont_bits b1 * 64 + cont_bits b2)
               <$> utf8_decode r2
        else None
      | _ => None
      end
    else if in_range 0xF0 0xF4 b0 then
      match r0 with
      | b1 :: b2 :: b3 :: r3 =>
        if in_range (if b0 =? 0xF0 then 0x90 else 0x80)
                    (if b0 =? 0xF4 then 0x8F else 0xBF) b1
           && is_cont b2 && is_cont b3
        then cons ((b0 - 0xF0) * 262144 + cont_bits b1 * 4096
                   + cont_bits b2 * 64 + cont_bits b3)
               <$> utf8_decode r3
        else None
      | _ => None
      end
    else None
  end.

(** [data.decode()] *)
Definition decode (data : bytes) : result str :=
  match utf8_decode (Byte.to_N <$> data) with
  | Some s => Ok s
  | None => Raise UnicodeDecodeError
  end.

(** ** str.encode() : UTF-8; lone surrogates cannot be encoded *)

Definition byte_of_N (n : N) : byte :=
  match Byte.of_N n with Some b => b | None => x00 end.

Definition utf8_encode_char (c : N) : option (list byte) :=
  if c <? 0x80 then Some [byte_of_N c]
  else if c <? 0x800 then
    Some [byte_of_N (0xC0 + c / 64); byte_of_N (0x80 + c mod 64)]
  else if in_range 0xD800 0xDFFF c then None
  else if c <? 0x10000 then
    Some [byte_of_N (0xE0 + c / 4096); byte_of_N (0x80 + (c / 64) mod 64);
          byte_of_N (0x80 + c mod 64)]
  else if c <? 0x110000 then
    Some [byte_of_N (0xF0 + c / 262144); byte_of_N (0x80 + (c / 4096) mod 64);
          byte_of_N (0x80 + (c / 64) mod 64); byte_of_N (0x80 + c mod 64)]
  else None.

Fixpoint utf8_encode (s : str) : option (list byte) :=
  match s with
  | [] => Some []
  | c :: s' =>
    match utf8_encode_char c, utf8_encode s' with
    | Some b, Some bs => Some (b ++ bs)
    | _, _ => None
    end
  end.

(** [s.encode()] *)
Definition encode (s : str) : result bytes :=
  match utf8_encode s with
  | Some b => Ok b
  | None => Raise UnicodeEncodeError
  end.

(** ** str methods *)

Section StrMethods.
Context `{Runtime}.

Definition ascii_lower (c : N) : N :=
  if in_range 65 90 c then c + 32 else c.

(** [s.lower()], code point by code point.  (Python lowers a capital
    sigma according to what stands around it; both results are outside
    ASCII and are left to [uni_lower].) *)
Definition lower (s : str) : str :=
  flat_map (fun c => if c <? 128 then [ascii_lower c] else uni_lower c) s.

(** [s.startswith(p)] *)
Fixpoint startswith (s p : str) : bool :=
  match p, s with
  | [], _ => true
  | a :: p', b :: s' => (a =? b) && startswith s' p'
  | _ :: _, [] => false
  end.

(** [c in s] for a single code point [c] *)
Definition contains (c : N) (s : str) : bool := existsb (N.eqb c) s.

(** The first occurrence of [sep] in [s]: what is before and after it. *)
Fixpoint partition (sep s : str) : option (str * str) :=
  if startswith s sep then Some ([], drop (length sep) s)
  else match s with
       | [] => None
       | c :: s' =>
         match partition sep s' with
         | Some (a, b) => Some (c :: a, b)
         | None => None
         end
       end.

(** [s.split(sep, maxsplit)] for a non-empty [sep] *)
Fixpoint splitn (maxsplit : nat) (sep s : str) : list str :=
  match maxsplit with
  | O => [s]
  | S n =>
    match partition sep s with
    | Some (a, b) => a :: splitn n sep b
    | None => [s]
    end
  end.

(** [s.split(sep)]: a string has no more occurrences of a non-empty
    separator than it has code points. *)
Definition split (sep s : str) : list str := splitn (length s) sep s.

(** [str.isspace] of one code point *)
Definition isspace (c : N) : bool :=
  if c <? 128 then in_range 9 13 c || in_range 28 32 c else uni_isspace c.

(** Removing the code points [sp] accepts from the front, and from
    both ends. *)
Fixpoint lstrip_by (sp : N -> bool) (s : str) : str :=
  match s with
  | c :: s' => if sp c then lstrip_by sp s' else s
  | [] => []
  end.

Definition strip_by (sp : N -> bool) (s : str) : str :=
  rev (lstrip_by sp (rev (lstrip_by sp s))).

(** [s.strip()] *)
Definition strip (s : str) : str := strip_by isspace s.

(** ** int(s), base 10 *)

(** White space for [int] : the six C white-space characters in ASCII
    (not 0x1c-0x1f), the Unicode spaces outside. *)
Definition int_isspace (c : N) : bool :=
  if c <? 128 then in_range 9 13 c || (c =? 32) else uni_isspace c.

Definition digit_val (c : N) : option N :=
  if c <? 128 then (if in_range 48 57 c then Some (c - 48) else None)
  else uni_decimal c.

(** digits, single underscores allowed between two digits; returns the
    value and the number of digits *)
Fixpoint int_digits (s : str) (acc : N) (count : nat) (after_digit : bool)
  : option (N * nat) :=
  match s with
  | [] => if after_digit then Some (acc, count) else None
  | c :: s' =>
    if c =? 95 then
      if after_digit then int_digits s' acc count false else None
    else
      match digit_val c with
      | Some d => int_digits s' (10 * acc + d) (S count) true
      | None => None
      end
  end.

Definition int (s : str) : result Z :=
  let t := strip_by int_isspace s in
  let '(neg, body) :=
    match t with
    | c :: r =>
      if c =? 43 then (false, r)        (* + *)
      else if c =? 45 then (true, r)    (* - *)
      else (false, t)
    | [] => (false, t)
    end in
  match int_digits body 0 0 false with
  | Some (v, count) =>
    let too_long :=
      match int_max_str_digits with
      | Some limit => (640 <? count)%nat && (limit <? count)%nat
      | None => false
      end in
    if too_long then Raise ValueError
    else Ok (if neg then (- Z.of_N v)%Z else Z.of_N v)
  | None => Raise ValueError
  end.

End StrMethods.


(** ** list item assignment and str(int) *)

(** [l[i] = x] : a negative index counts from the end; out of range
    raises [IndexError]. *)
Definition list_setitem {A} (l : list A) (i : Z) (x : A) : result (list A) :=
  let n := Z.of_nat (length l) in
  if ((0 <=? i) && (i <? n))%Z then Ok (<[Z.to_nat i := x]> l)
  else if ((- n <=? i) && (i <? 0))%Z then Ok (<[Z.to_nat (n + i) := x]> l)
  else Raise IndexError.

(** [str(n)] for an integer, as f-strings print it *)
Definition str_of_int (n : Z) : str := lit (NilZero.string_of_int (Z.to_int n)).

(* ===================================================================== *)
(** * The program                                                         *)
(* ===================================================================== *)

Local Open Scope string_scope.

(** ** Defaults *)

Definition DEFAULT_BIND_ADDR : str := lit "0.0.0.0".
Definition DEFAULT_BIND_PORT : Z := 8880.
Definition DEFAULT_LISTEN_HOST : str := lit "127.0.0.1".
Definition DEFAULT_LISTEN_PORT : Z := 22.
Definition BUFFER_SIZE : Z := 4096 * 4.
Definition TIMEOUT : Q := 60.
Definition CRLF : string := String (ascii_of_N 13) (String (ascii_of_N 10) "").
Definition RESPONSE : str :=
  lit ("HTTP/1.1 101 Switching Protocols" ++ CRLF ++ "Upgrade: websocket" ++ CRLF
       ++ "Connection: Upgrade" ++ CRLF ++ CRLF).

(** ** Configuration *)

Record Binding := mkBinding { address : str; bind_port : Z }.
Record Listening := mkListening { host : str; port : Z }.

Record Config := mkConfig {
  bindings : list Binding;
  listenings : list Listening;
  buffer : Z;
  timeout : Q;
  response : str
}.

(** [Config()] *)
Definition Config_init : Config :=
  {| bindings := []; listenings := []; buffer := BUFFER_SIZE;
     timeout := TIMEOUT; response := RESPONSE |}.

Section Text.
Context `{Runtime}.

(** [parse_indexed_arg] : "index:address:port" *)
Definition parse_indexed_arg (arg : str) : result (Z * str * Z) :=
  match splitn 2 (lit ":") arg with
  | [p0; p1; p2] =>
    i ← int p0;
    p ← int p2;
    Ok (i, p1, p)
  | _ => Raise ValueError
  end.

End Text.

(** What [json.load] delivers from the configuration file: the two
    required lists and the two optional settings that [load_config]
    reads.  Reading and parsing the file is left to the caller. *)
Record FileData := mkFileData {
  file_bindings : list Binding;
  file_listenings : list Listening;
  file_buffer : option Z;
  file_response : option str
}.

(** How start-up code ends: with a value, with [sys.exit(code)], or with
    an exception nobody catches. *)
Inductive startup (A : Type) :=
  | Started (a : A)
  | SysExit (code : Z)
  | Crashed (e : exn).
Arguments Started {A} a.
Arguments SysExit {A} code.
Arguments Crashed {A} e.

(** [while len(l) <= index: l.append(d)].  The loop runs at most
    [index + 1] times, which is the fuel [extend_and_set] gives it. *)
Fixpoint append_while {A} (fuel : nat) (l : list A) (index : Z) (d : A) : list A :=
  match fuel with
  | O => l
  | S fuel' =>
    if (Z.of_nat (length l) <=? index)%Z
    then append_while fuel' (l ++ [d]) index d
    else l
  end.

(** The body both override loops share:
    [while len(l) <= index: l.append(d)] and then [l[index] = x]. *)
Definition extend_and_set {A} (d : A) (l : list A) (index : Z) (x : A)
  : result (list A) :=
  list_setitem (append_while (Z.to_nat (index + 1)) l index d) index x.

(** [for x in xs: s = body(s, x)], stopping at the first exception *)
Fixpoint for_each {A S} (body : S -> A -> result S) (xs : list A) (s : S)
  : result S :=
  match xs with
  | [] => Ok s
  | x :: xs' => s' ← body s x; for_each body xs' s'
  end.

(** [load_config].  [config_file] is [None] for the empty file name,
    otherwise what opening and parsing the file gave. *)
Definition load_config (config_file : option (result FileData))
    (cmd_bind cmd_listen : list (Z * str * Z)) : startup Config :=
  let config := Config_init in
  let loaded :=
    match config_file with
    | None => Started config
    | Some (Ok data) =>
      Started {| bindings := file_bindings data;
                 listenings := file_listenings data;
                 buffer := default BUFFER_SIZE (file_buffer data);
                 timeout := timeout config;
                 response := default RESPONSE (file_response data) |}
    | Some (Raise e) => SysExit 1
    end in
  match loaded with
  | Started config =>
    let after_bind :=
      for_each (fun bs '(index, addr, port) =>
                  extend_and_set (mkBinding DEFAULT_BIND_ADDR DEFAULT_BIND_PORT)
                                 bs index (mkBinding addr port))
               cmd_bind (bindings config) in
    match after_bind with
    | Raise e => Crashed e
    | Ok bs =>
      let after_listen :=
        for_each (fun ls '(index, host, port) =>
                    extend_and_set
                      (mkListening DEFAULT_LISTEN_HOST DEFAULT_LISTEN_PORT)
                      ls index (mkListening host port))
                 cmd_listen (listenings config) in
      match after_listen with
      | Raise e => Crashed e
      | Ok ls =>
        Started {| bindings := bs; listenings := ls; buffer := buffer config;
                   timeout := timeout config; response := response config |}
      end
    end
  | SysExit c => SysExit c
  | Crashed e => Crashed e
  end.

(** ** ConnectionHandler.parse_headers *)

Section ParseHeaders.
Context `{Runtime}.

(** [h.lower().startswith('x-real-host:')] *)
Definition is_routing_line (h : str) : bool :=
  startswith (lower h) (lit "x-real-host:").

(** What the body of the [if] does with a routing line [h]: return a
    pair or raise. *)
Definition routing_value (listening : Listening) (h : str) : result (str * Z) :=
  match splitn 1 (lit ": ") h !! 1%nat with
  | None => Raise IndexError
  | Some v =>
    let host_port := strip v in
    if contains 58 host_port then
      match splitn 1 (lit ":") host_port with
      | [host; port] => p ← int port; Ok (host, p)
      | _ => Raise ValueError
      end
    else Ok (host_port, port listening)
  end.

(** [for h in headers: if ...: return ...]; [Ok None] when the loop
    ends without a [return]. *)
Fixpoint scan_headers (listening : Listening) (headers : list str)
  : result (option (str * Z)) :=
  match headers with
  | [] => Ok None
  | h :: rest =>
    if is_routing_line h
    then hp ← routing_value listening h; Ok (Some hp)
    else scan_headers listening rest
  end.

(** [parse_headers]: what is inside [try:], then the function with its
    [except: pass] and final [return (None, None)].  The result [None]
    stands for the pair [(None, None)], the only result in which a
    component is [None]. *)
Definition parse_headers_try (listening : Listening) (data : bytes)
  : result (option (str * Z)) :=
  text ← decode data;
  scan_headers listening (split (lit CRLF) text).

Definition parse_headers (listening : Listening) (data : bytes)
  : option (str * Z) :=
  match parse_headers_try listening data with
  | Ok (Some hp) => Some hp
  | Ok None => None
  | Raise _ => None
  end.

(** Lines 141-146 of [run]: the target the session dials. *)
Definition resolve_target (listening : Listening) (data : bytes) : str * Z :=
  match parse_headers listening data with
  | Some (target_host, target_port) =>
    match target_host with
    | [] => (host listening, port listening)
    | _ :: _ => (target_host, target_port)
    end
  | None => (host listening, port listening)
  end.

End ParseHeaders.


(** ** Sockets, clock and console: the session's environment *)

Inductive endpoint := Client | Target.

Definition other (sock : endpoint) : endpoint :=
  match sock with Client => Target | Target => Client end.

(** What [select.select] reports for the two sockets. *)
Record Ready := mkReady {
  r_client : bool; r_target : bool;
  w_client : bool; w_target : bool;
  e_client : bool; e_target : bool
}.

(** The sublist of [sockets = [self.client, self.target]] that is ready *)
Definition ready_list (c t : bool) : list endpoint :=
  (if c then [Client] else []) ++ (if t then [Target] else []).

(** The environment answers every call the session makes.  The first
    argument is the number of events the session has produced so far, so
    an answer may depend on everything that happened before.
    - [env_recv]    : the bytes a [recv] or [recv_into] delivers, or the
                      exception it raises;
    - [env_send]    : how many bytes [send] accepts, or the exception;
    - [env_sendall] : [None] when every byte went out, [Some (k, e)] when
                      [e] is raised after [k] bytes went out;
    - [env_time]    : what [time.time()] returns, in seconds.  Times are
                      rationals: the rounding of Python's floats in
                      [now - last_activity] is not modelled;
    - the others    : [Some e] when the call raises [e]. *)
Record Env := mkEnv {
  env_recv : nat -> endpoint -> result bytes;
  env_send : nat -> endpoint -> bytes -> result nat;
  env_sendall : nat -> endpoint -> bytes -> option (nat * exn);
  env_socket : nat -> option exn;
  env_connect : nat -> str -> Z -> option exn;
  env_setblocking : nat -> endpoint -> option exn;
  env_select : nat -> result Ready;
  env_time : nat -> Q;
  env_close : nat -> endpoint -> option exn
}.

(** The lines [printlog] writes. *)
Inductive message :=
  | Connected (log : str)                 (* "[+] {log}" *)
  | SessionError (log : str) (e : exn)    (* "[-] {log} - Error: {e}" *)
  | TunnelError (log : str) (e : exn).    (* "[-] {log} - Tunnel error: {e}" *)

(** What a session does, in the order it does it. *)
Inductive event :=
  | Recv (who : endpoint) (got : result bytes)
  | Send (who : endpoint) (data written : bytes) (raised : option exn)
  | Socket (raised : option exn)
  | Connect (host : str) (port : Z) (raised : option exn)
  | Setblocking (who : endpoint) (raised : option exn)
  | Select (got : result Ready)
  | Time (now : Q)
  | Close (who : endpoint) (raised : option exn)
  | Print (line : message).

(** The fields of a [ConnectionHandler], the local variables of
    [tunnel] and the events so far.
    - [client_closed] : [self.client] has been closed;
    - [target] : [self.target], [None] or a socket, [Some true] once it
      has been closed. *)
Record State := mkState {
  client_closed : bool;
  target : option bool;
  log : str;
  last_activity : Q;
  client_buffer : bytes;
  target_buffer : bytes;
  error : bool;
  trace : list event
}.

Definition set_client_closed (b : bool) (st : State) : State :=
  mkState b (target st) (log st) (last_activity st) (client_buffer st)
          (target_buffer st) (error st) (trace st).
Definition set_target (t : option bool) (st : State) : State :=
  mkState (client_closed st) t (log st) (last_activity st) (client_buffer st)
          (target_buffer st) (error st) (trace st).
Definition set_log (l : str) (st : State) : State :=
  mkState (client_closed st) (target st) l (last_activity st) (client_buffer st)
          (target_buffer st) (error st) (trace st).
Definition set_last_activity (t : Q) (st : State) : State :=
  mkState (client_closed st) (target st) (log st) t (client_buffer st)
          (target_buffer st) (error st) (trace st).
Definition set_buffer (who : endpoint) (b : bytes) (st : State) : State :=
  match who with
  | Client =>
    mkState (client_closed st) (target st) (log st) (last_activity st) b
            (target_buffer st) (error st) (trace st)
  | Target =>
    mkState (client_closed st) (target st) (log st) (last_activity st)
            (client_buffer st) b (error st) (trace st)
  end.
Definition set_error (b : bool) (st : State) : State :=
  mkState (client_closed st) (target st) (log st) (last_activity st)
          (client_buffer st) (target_buffer st) b (trace st).
Definition add_event (ev : event) (st : State) : State :=
  mkState (client_closed st) (target st) (log st) (last_activity st)
          (client_buffer st) (target_buffer st) (error st) (trace st ++ [ev]).

Definition get_buffer (who : endpoint) (st : State) : bytes :=
  match who with Client => client_buffer st | Target => target_buffer st end.

(** [ConnectionHandler.__init__] : [addr] is the peer's (host, port). *)
Definition Handler_init (addr : str * Z) : State :=
  {| client_closed := false; target := None;
     log := (addr.1 ++ lit ":" ++ str_of_int addr.2)%list;
     last_activity := 0; client_buffer := []; target_buffer := [];
     error := false; trace := [] |}.

(** ** The monad of session code

    A computation takes the state and returns or raises in a new state
    ([Done]), or is still at the top of a [while True] loop when the
    passes it was allowed are used up ([Pending]). *)
Inductive outcome (A : Type) :=
  | Done (r : result A) (st : State)
  | Pending (st : State).
Arguments Done {A} r st.
Arguments Pending {A} st.

Definition IO (A : Type) : Type := State -> outcome A.

#[export] Instance IO_ret : MRet IO := fun A a st => Done (Ok a) st.
#[export] Instance IO_bind : MBind IO := fun A B k m st =>
  match m st with
  | Done (Ok a) st' => k a st'
  | Done (Raise e) st' => Done (Raise e) st'
  | Pending st' => Pending st'
  end.

(** The state a computation stopped in. *)
Definition state_of {A} (o : outcome A) : State :=
  match o with Done _ st => st | Pending st => st end.

Definition raise {A} (e : exn) : IO A := fun st => Done (Raise e) st.
Definition get : IO State := fun st => Done (Ok st) st.
Definition modify (f : State -> State) : IO unit := fun st => Done (Ok tt) (f st).
Definition lift {A} (r : result A) : IO A := fun st => Done r st.
Definition emit (ev : event) : IO unit := modify (add_event ev).

(** [raise e] when the environment says so *)
Definition raise_if (raised : option exn) : IO unit :=
  match raised with Some e => raise e | None => mret tt end.

(** [try: body / except E as e: handler e].  A handler for one class
    re-raises the others itself. *)
Definition try_except {A} (body : IO A) (handler : exn -> IO A) : IO A :=
  fun st =>
    match body st with
    | Done (Raise e) st' => handler e st'
    | Done (Ok a) st' => Done (Ok a) st'
    | Pending st' => Pending st'
    end.

(** [try: body / finally: final] *)
Definition try_finally {A} (body : IO A) (final : IO unit) : IO A :=
  fun st =>
    match body st with
    | Done r st' =>
      match final st' with
      | Done (Ok _) st'' => Done r st''
      | Done (Raise e) st'' => Done (Raise e) st''
      | Pending st'' => Pending st''
      end
    | Pending st' => Pending st'
    end.

(** How the body of a loop ends. *)
Inductive flow := Continue | Break.

(** [x > y] on times *)
Definition Qgtb (x y : Q) : bool := negb (Qle_bool x y).

(** ** ConnectionHandler *)

Local Close Scope string_scope.

Section ConnectionHandler.
Context `{Runtime}.
Variable env : Env.
Variable config : Config.
Variable listening : Listening.

(** The index the environment is asked at. *)
Definition tick (st : State) : nat := length (trace st).

(** [printlog] *)
Definition printlog (line : message) : IO unit := emit (Print line).

(** [sock.recv(bufsize)] : at most [bufsize] bytes; a negative size is
    refused before the system is asked. *)
Definition sock_recv (who : endpoint) (bufsize : Z) : IO bytes :=
  if (bufsize <? 0)%Z then emit (Recv who (Raise ValueError));; raise ValueError
  else
    st ← get;
    match env_recv env (tick st) who with
    | Ok data =>
      let data := take (Z.to_nat bufsize) data in
      emit (Recv who (Ok data));; mret data
    | Raise e => emit (Recv who (Raise e));; raise e
    end.

(** [sock.recv_into(mem, nbytes)] with [mem] the whole buffer of that
    side: the bytes received overwrite the front of the buffer and
    their number is returned. *)
Definition sock_recv_into (who : endpoint) (nbytes : Z) : IO nat :=
  data ← sock_recv who nbytes;
  modify (fun st =>
    set_buffer who (data ++ drop (length data) (get_buffer who st)) st);;
  mret (length data).

(** [sock.send(data)] : the number of bytes accepted *)
Definition sock_send (who : endpoint) (data : bytes) : IO nat :=
  st ← get;
  match env_send env (tick st) who data with
  | Ok k =>
    let written := take k data in
    emit (Send who data written None);; mret (length written)
  | Raise e => emit (Send who data [] (Some e));; raise e
  end.

(** [sock.sendall(data)] *)
Definition sock_sendall (who : endpoint) (data : bytes) : IO unit :=
  st ← get;
  match env_sendall env (tick st) who data with
  | None => emit (Send who data data None)
  | Some (k, e) => emit (Send who data (take k data) (Some e));; raise e
  end.

(** [sock.setblocking(False)] *)
Definition sock_setblocking (who : endpoint) : IO unit :=
  st ← get;
  let raised := env_setblocking env (tick st) who in
  emit (Setblocking who raised);; raise_if raised.

(** [select.select(sockets, sockets, sockets, timeout)] *)
Definition select (timeout : Q) : IO Ready :=
  if Qgtb 0 timeout then emit (Select (Raise ValueError));; raise ValueError
  else
    st ← get;
    let got := env_select env (tick st) in
    emit (Select got);;
    match got with Ok ready => mret ready | Raise e => raise e end.

(** [time.time()] *)
Definition time : IO Q :=
  st ← get;
  let now := env_time env (tick st) in
  emit (Time now);; mret now.

(** [self.client.close()] and [self.target.close()].  Closing releases
    the descriptor even when the call then raises; closing a closed
    socket does nothing; [None] has no [close]. *)
Definition sock_close (who : endpoint) : IO unit :=
  st ← get;
  match who with
  | Client =>
    if client_closed st then emit (Close Client None)
    else
      let raised := env_close env (tick st) Client in
      modify (set_client_closed true);;
      emit (Close Client raised);; raise_if raised
  | Target =>
    match target st with
    | None => emit (Close Target (Some AttributeError));; raise AttributeError
    | Some true => emit (Close Target None)
    | Some false =>
      let raised := env_close env (tick st) Target in
      modify (set_target (Some true));;
      emit (Close Target raised);; raise_if raised
    end
  end.

(** [close] *)
Definition close : IO unit :=
  try_except (sock_close Client) (fun _ => mret tt);;
  try_except (sock_close Target) (fun _ => mret tt).

(** [connect_target] *)
Definition connect_target (host : str) (port : Z) : IO unit :=
  (* self.target = socket.socket(socket.AF_INET) *)
  st ← get;
  let raised := env_socket env (tick st) in
  emit (Socket raised);; raise_if raised;;
  modify (set_target (Some false));;
  (* self.target.connect((host, port)) *)
  st ← get;
  let raised := env_connect env (tick st) host port in
  emit (Connect host port raised);; raise_if raised;;
  (* self.log += f" -> {host}:{port}" *)
  modify (fun st =>
    set_log (log st ++ lit " -> " ++ host ++ lit ":" ++ str_of_int port)%list st);;
  st ← get;
  printlog (Connected (log st)).

(** The body of [for sock in r] for one socket. [Break] leaves the
    [for] loop, [Continue] goes on with the next socket. *)
Definition relay_one (sock : endpoint) (now : Q) : IO flow :=
  try_except
    (recv_len ← sock_recv_into sock (buffer config);
     if bool_decide (recv_len ≠ 0%nat) then
       modify (set_last_activity now);;
       st ← get;
       sock_sendall (other sock) (take recv_len (get_buffer sock st));;
       mret Continue
     else mret Break)
    (fun e => if is_BlockingIOError e then mret Continue else raise e).

(** [for sock in r: ...] *)
Fixpoint relay_for (r : list endpoint) (now : Q) : IO unit :=
  match r with
  | [] => mret tt
  | sock :: rest =>
    fl ← relay_one sock now;
    match fl with
    | Continue => relay_for rest now
    | Break => mret tt
    end
  end.

(** One pass through the body of [while True]. *)
Definition tunnel_iteration : IO flow :=
  try_except
    (ready ← select (timeout config);
     let r := ready_list (r_client ready) (r_target ready) in
     let w := ready_list (w_client ready) (w_target ready) in
     let e := ready_list (e_client ready) (e_target ready) in
     if bool_decide (e ≠ []) then
       modify (set_error true);; mret Break
     else
       now ← time;
       st ← get;
       if Qgtb (now - last_activity st) (timeout config) then mret Break
       else
         (if bool_decide (r ≠ []) then relay_for r now else mret tt);;
         if bool_decide (r = []) && bool_decide (w = []) then mret Break
         else mret Continue)
    (fun e =>
       st ← get;
       printlog (TunnelError (log st) e);;
       modify (set_error true);;
       mret Break).

(** [while True: ...], allowed [fuel] passes. *)
Fixpoint tunnel_while (fuel : nat) : IO unit :=
  match fuel with
  | O => fun st => Pending st
  | S fuel' =>
    fl ← tunnel_iteration;
    match fl with
    | Continue => tunnel_while fuel'
    | Break => mret tt
    end
  end.

(** [if error: self.close()] *)
Definition tunnel_exit : IO unit :=
  st ← get;
  if error st then close else mret tt.

(** [tunnel] *)
Definition tunnel (fuel : nat) : IO unit :=
  let buffer_size := buffer config in
  (* bytearray(buffer_size), twice *)
  (if (buffer_size <? 0)%Z then raise ValueError else mret tt);;
  modify (set_buffer Client (replicate (Z.to_nat buffer_size) x00));;
  modify (set_buffer Target (replicate (Z.to_nat buffer_size) x00));;
  now ← time;
  modify (set_last_activity now);;
  modify (set_error false);;
  sock_setblocking Client;;
  sock_setblocking Target;;
  tunnel_while fuel;;
  tunnel_exit.

(** [except Exception as e: printlog(...)] of [run] *)
Definition run_except (e : exn) : IO unit :=
  st ← get;
  printlog (SessionError (log st) e).

(** [run] *)
Definition run (fuel : nat) : IO unit :=
  try_finally
    (try_except
       (data ← sock_recv Client (buffer config);
        if bool_decide (data = []) then mret tt
        else
          let '(target_host, target_port) := resolve_target listening data in
          connect_target target_host target_port;;
          hello ← lift (encode (response config));
          sock_send Client hello;;
          tunnel fuel)
       run_except)
    close.

(** What is left of [run] for a session that stands at the top of the
    [while True] loop of [tunnel]. *)
Definition resume (fuel : nat) : IO unit :=
  try_finally
    (try_except (tunnel_while fuel;; tunnel_exit) run_except)
    close.

End ConnectionHandler.

(** ** getopt.getopt

    The command-line parser of the standard library, as [parse_args]
    calls it (Lib/getopt.py).  Its messages go through [gettext], for
    which CPython has no catalogue: they are the English texts. *)

(** What the parser returns, or the [GetoptError(msg, opt)] it raises. *)
Inductive getopt_result (A : Type) :=
  | Parsed (a : A)
  | GetoptError (msg opt : str).
Arguments Parsed {A} a.
Arguments GetoptError {A} msg opt.

#[export] Instance getopt_ret : MRet getopt_result := fun A a => Parsed a.
#[export] Instance getopt_bind : MBind getopt_result := fun A B k m =>
  match m with
  | Parsed a => k a
  | GetoptError msg opt => GetoptError msg opt
  end.

(** [s.endswith(p)] *)
Definition endswith (s p : str) : bool := startswith (rev s) (rev p).

(** [short_has_arg]: [opt] is one code point *)
Fixpoint short_has_arg (opt : N) (shortopts : str) : getopt_result bool :=
  match shortopts with
  | [] => GetoptError (lit "option -" ++ [opt] ++ lit " not recognized") [opt]
  | c :: rest =>
    if (opt =? c) && negb (c =? 58) then Parsed (startswith rest (lit ":"))
    else short_has_arg opt rest
  end.

(** [do_shorts]: the letters of one argument after its hyphen *)
Fixpoint do_shorts (opts : list (str * str)) (optstring shortopts : str)
    (args : list str) : getopt_result (list (str * str) * list str) :=
  match optstring with
  | [] => Parsed (opts, args)
  | opt :: optstring =>
    has_arg ← short_has_arg opt shortopts;
    if has_arg : bool then
      match optstring, args with
      | [], [] =>
        GetoptError (lit "option -" ++ [opt] ++ lit " requires argument") [opt]
      | [], optarg :: args => Parsed (opts ++ [(lit "-" ++ [opt], optarg)], args)
      | _ :: _, _ => Parsed (opts ++ [(lit "-" ++ [opt], optstring)], args)
      end
    else do_shorts (opts ++ [(lit "-" ++ [opt], [])]) optstring shortopts args
  end.

(** [long_has_args] *)
Definition long_has_args (opt : str) (longopts : list str)
  : getopt_result (bool * str) :=
  let possibilities := List.filter (fun o => startswith o opt) longopts in
  match possibilities with
  | [] => GetoptError (lit "option --" ++ opt ++ lit " not recognized") opt
  | _ :: _ =>
    if bool_decide (opt ∈ possibilities) then Parsed (false, opt)
    else if bool_decide (opt ++ lit "=" ∈ possibilities) then Parsed (true, opt)
    else
      match possibilities with
      | [unique_match] =>
        if endswith unique_match (lit "=")
        then Parsed (true, take (length unique_match - 1) unique_match)
        else Parsed (false, unique_match)
      | _ =>
        GetoptError (lit "option --" ++ opt ++ lit " not a unique prefix") opt
      end
  end.

(** [do_longs]: one argument after its two hyphens *)
Definition do_longs (opts : list (str * str)) (opt : str)
    (longopts : list str) (args : list str)
  : getopt_result (list (str * str) * list str) :=
  let '(opt, optarg) :=
    match partition (lit "=") opt with
    | Some (name, value) => (name, Some value)
    | None => (opt, None)
    end in
  '(has_arg, opt) ← long_has_args opt longopts;
  if has_arg : bool then
    match optarg, args with
    | None, [] =>
      GetoptError (lit "option --" ++ opt ++ lit " requires argument") opt
    | None, optarg :: args => Parsed (opts ++ [(lit "--" ++ opt, optarg)], args)
    | Some optarg, _ => Parsed (opts ++ [(lit "--" ++ opt, optarg)], args)
    end
  else
    match optarg with
    | Some _ =>
      GetoptError (lit "option --" ++ opt ++ lit " must not have an argument")
                  opt
    | None => Parsed (opts ++ [(lit "--" ++ opt, [])], args)
    end.

(** The loop of [getopt].  Every pass takes [args[0]] away, so that
    [len(args)] passes are all it can make. *)
Fixpoint getopt_while (fuel : nat) (opts : list (str * str))
    (args : list str) (shortopts : str) (longopts : list str)
  : getopt_result (list (str * str) * list str) :=
  match fuel, args with
  | S fuel', arg0 :: rest =>
    if startswith arg0 (lit "-") && negb (bool_decide (arg0 = lit "-")) then
      if bool_decide (arg0 = lit "--") then Parsed (opts, rest)
      else
        '(opts, args) ←
          (if startswith arg0 (lit "--")
           then do_longs opts (drop 2 arg0) longopts rest
           else do_shorts opts (drop 1 arg0) shortopts rest);
        getopt_while fuel' opts args shortopts longopts
    else Parsed (opts, args)
  | _, _ => Parsed (opts, args)
  end.

(** [getopt.getopt(args, shortopts, longopts)] *)
Definition getopt (args : list str) (shortopts : str) (longopts : list str)
  : getopt_result (list (str * str) * list str) :=
  getopt_while (length args) [] args shortopts longopts.

(** ** Server *)

(** The exceptions of the accept loop and of the start-up code: those a
    session can meet, [socket.timeout], and the [RuntimeError] of a
    thread that cannot be started. *)
Inductive failure :=
  | builtin (e : exn)
  | socket_timeout
  | RuntimeError.

Definition is_socket_timeout (e : failure) : bool :=
  match e with socket_timeout => true | _ => false end.

(** The arguments of [Server.__init__]. *)
Record Server := mkServer {
  server_index : nat;
  server_binding : Binding;
  server_listening : Listening;
  server_config : Config
}.

(** What a server thread does, in the order it does it.  [raised] is
    the exception the call ended with, if any.  Writing a line to the
    console is taken to succeed, here as in sessions and at start-up. *)
Inductive server_event :=
  | NewSocket (raised : option failure)
  | Setsockopt (raised : option failure)        (* SO_REUSEADDR, 1 *)
  | Settimeout (seconds : Z) (raised : option failure)
  | BindSocket (address : str) (port : Z) (raised : option failure)
  | ListenSocket (backlog : Z) (raised : option failure)
  | Announce (text : str)                     (* printlog("[*] Binding ...") *)
  | Accept (addr : str * Z) (raised : option failure)
  | ClientSetblocking (raised : option failure) (* client_sock.setblocking(True) *)
  | HandlerStart (addr : str * Z) (listening : Listening) (config : Config)
                 (raised : option failure)
  | CloseSocket (raised : option failure).

(** [self.running] and the events so far. *)
Record ServerState := mkServerState {
  running : bool;
  server_trace : list server_event
}.

(** The world around a server thread.  The argument is the number of
    calls the thread has made so far.
    - [net_raises] : the exception the call ends with, if any;
    - [net_peer]   : the address [accept] returns when it does not raise;
    - [net_stop]   : another thread calls [stop()] while that call is
                     under way.  The thread reads and writes
                     [self.running] only between two calls, so that
                     every interleaving of [stop()] is one of these. *)
Record Network := mkNetwork {
  net_raises : nat -> option failure;
  net_peer : nat -> str * Z;
  net_stop : nat -> bool
}.

(** A thread returns or raises, or is still in its loop when the passes
    it was allowed are used up. *)
Inductive thread_result (A : Type) :=
  | Returned (a : A)
  | Raised (e : failure).
Arguments Returned {A} a.
Arguments Raised {A} e.

Inductive thread_outcome (A : Type) :=
  | Ended (r : thread_result A) (st : ServerState)
  | Accepting (st : ServerState).
Arguments Ended {A} r st.
Arguments Accepting {A} st.

Definition Thread (A : Type) : Type := ServerState -> thread_outcome A.

#[export] Instance Thread_ret : MRet Thread := fun A a st => Ended (Returned a) st.
#[export] Instance Thread_bind : MBind Thread := fun A B k m st =>
  match m st with
  | Ended (Returned a) st' => k a st'
  | Ended (Raised e) st' => Ended (Raised e) st'
  | Accepting st' => Accepting st'
  end.

Definition thread_state {A} (o : thread_outcome A) : ServerState :=
  match o with Ended _ st => st | Accepting st => st end.

Definition thread_raise {A} (e : failure) : Thread A := fun st => Ended (Raised e) st.

(** [try: body / except socket.timeout: continue] *)
Definition except_timeout (body : Thread unit) : Thread unit :=
  fun st =>
    match body st with
    | Ended (Raised e) st' =>
      if is_socket_timeout e then Ended (Returned tt) st' else Ended (Raised e) st'
    | o => o
    end.

(** [try: body / finally: final] *)
Definition thread_finally {A} (body : Thread A) (final : Thread unit) : Thread A :=
  fun st =>
    match body st with
    | Ended r st' =>
      match final st' with
      | Ended (Returned _) st'' => Ended r st''
      | Ended (Raised e) st'' => Ended (Raised e) st''
      | Accepting st'' => Accepting st''
      end
    | Accepting st' => Accepting st'
    end.

(** [Server.__init__] *)
Definition Server_init : ServerState :=
  {| running := false; server_trace := [] |}.

(** [Server.stop] *)
Definition stop (st : ServerState) : ServerState :=
  {| running := false; server_trace := server_trace st |}.

Section Server.
Variable net : Network.
Variable self : Server.

(** [self.running = b] *)
Definition set_running (b : bool) : Thread unit := fun st =>
  Ended (Returned tt) {| running := b; server_trace := server_trace st |}.

(** One call of the thread: the event is recorded, and a [stop()] that
    came while the call was under way has taken effect when it ends. *)
Definition recorded (ev : server_event) (st : ServerState) : ServerState :=
  let st' := {| running := running st;
                server_trace := server_trace st ++ [ev] |} in
  if net_stop net (length (server_trace st)) then stop st' else st'.

Definition record (ev : server_event) : Thread unit := fun st =>
  Ended (Returned tt) (recorded ev st).

(** A call that returns nothing. *)
Definition call (ev : option failure -> server_event) : Thread unit := fun st =>
  let raised := net_raises net (length (server_trace st)) in
  (record (ev raised);;
   match raised with
   | Some e => thread_raise e
   | None => mret tt
   end) st.

(** [self.sock.accept()] : the address of the peer *)
Definition accept : Thread (str * Z) := fun st =>
  let t := length (server_trace st) in
  let addr := net_peer net t in
  let raised := net_raises net t in
  (record (Accept addr raised);;
   match raised with
   | Some e => thread_raise e
   | None => mret addr
   end) st.

(** [handle_connection]: a handler thread is made for the connection
    and started. *)
Definition handle_connection (addr : str * Z) : Thread unit :=
  call (HandlerStart addr (server_listening self) (server_config self)).

(** The body of [while self.running], with its
    [except socket.timeout: continue] *)
Definition accept_pass : Thread unit :=
  except_timeout
    (addr ← accept;
     call ClientSetblocking;;
     handle_connection addr).

(** [while self.running: ...], allowed [fuel] passes. *)
Fixpoint accept_while (fuel : nat) : Thread unit :=
  match fuel with
  | O => fun st => Accepting st
  | S fuel' => fun st =>
    if running st then (accept_pass;; accept_while fuel') st
    else Ended (Returned tt) st
  end.

(** The line [Server.run] prints once it listens. *)
Definition announcement : str :=
  (lit "[*] Binding " ++ str_of_int (Z.of_nat (server_index self)) ++ lit ": "
   ++ address (server_binding self) ++ lit ":"
   ++ str_of_int (bind_port (server_binding self)) ++ lit " -> "
   ++ host (server_listening self) ++ lit ":"
   ++ str_of_int (port (server_listening self)))%list.

(** [Server.run] *)
Definition Server_run (fuel : nat) : Thread unit :=
  call NewSocket;;
  call Setsockopt;;
  call (Settimeout 2);;
  call (BindSocket (address (server_binding self))
                   (bind_port (server_binding self)));;
  call (ListenSocket 5);;
  set_running true;;
  record (Announce announcement);;
  thread_finally
    (accept_while fuel)
    (set_running false;; call CloseSocket).

End Server.

(** ** Start-up: print_usage, parse_args, main *)

(** What the start-up code writes and starts, in order. *)
Inductive notice :=
  | Printlog (text : str)
  | ConfigError (e : exn)                 (* printlog(f"Config error: {e}") *)
  | ServerStart (server : Server) (raised : option failure)
  | ServerStop (server : Server).

(** Start-up code: what it wrote and how it ended. *)
Definition Boot (A : Type) : Type := list notice * startup A.

#[export] Instance Boot_ret : MRet Boot := fun A a => ([], Started a).
#[export] Instance Boot_bind : MBind Boot := fun A B k m =>
  match m with
  | (out, Started a) => let '(out', r) := k a in (out ++ out', r)
  | (out, SysExit code) => (out, SysExit code)
  | (out, Crashed e) => (out, Crashed e)
  end.

(** [printlog] of the start-up code *)
Definition boot_printlog (text : str) : Boot unit := ([Printlog text], Started tt).

(** [sys.exit(code)]; [sys.exit()] is [sys.exit(0)] *)
Definition sys_exit {A} (code : Z) : Boot A := ([], SysExit code).

(** An exception nobody catches *)
Definition boot_lift {A} (r : result A) : Boot A :=
  match r with
  | Ok a => ([], Started a)
  | Raise e => ([], Crashed e)
  end.

(** [print_usage] *)
Definition print_usage : Boot unit :=
  boot_printlog (lit "Index-Based Proxy");;
  boot_printlog (lit "Usage:");;
  boot_printlog (lit "  proxy.py -f config.json");;
  boot_printlog (lit "  proxy.py -b <index:addr:port> -l <index:host:port>");;
  boot_printlog ([10] ++ lit "Examples:");;
  boot_printlog (lit "  proxy.py -f config.json");;
  boot_printlog (lit "  proxy.py -b 0:0.0.0.0:80 -l 0:127.0.0.1:22");;
  boot_printlog (lit "  proxy.py -b 1:0.0.0.0:8080 -l 1:127.0.0.1:143").

Section Startup.
Context `{Runtime}.

(** [for opt, arg in opts: ...] on the three variables of [parse_args] *)
Fixpoint parse_args_for (opts : list (str * str)) (config_file : str)
    (cmd_bind cmd_listen : list (Z * str * Z))
  : Boot (str * list (Z * str * Z) * list (Z * str * Z)) :=
  match opts with
  | [] => mret (config_file, cmd_bind, cmd_listen)
  | (opt, arg) :: opts =>
    if bool_decide (opt ∈ [lit "-h"; lit "--help"]) then
      print_usage;; sys_exit 0
    else if bool_decide (opt ∈ [lit "-f"; lit "--file"]) then
      parse_args_for opts arg cmd_bind cmd_listen
    else if bool_decide (opt ∈ [lit "-b"; lit "--bind"]) then
      v ← boot_lift (parse_indexed_arg arg);
      parse_args_for opts config_file (cmd_bind ++ [v]) cmd_listen
    else if bool_decide (opt ∈ [lit "-l"; lit "--listen"]) then
      v ← boot_lift (parse_indexed_arg arg);
      parse_args_for opts config_file cmd_bind (cmd_listen ++ [v])
    else parse_args_for opts config_file cmd_bind cmd_listen
  end.

(** [parse_args]; [argv] is [sys.argv[1:]] *)
Definition parse_args (argv : list str)
  : Boot (str * list (Z * str * Z) * list (Z * str * Z)) :=
  match getopt argv (lit "hf:b:l:")
               [lit "help"; lit "file="; lit "bind="; lit "listen="] with
  | GetoptError msg _ =>
    boot_printlog (lit "Error: " ++ msg);; print_usage;; sys_exit 2
  | Parsed (opts, _) => parse_args_for opts [] [] []
  end.

(** The machine [main] starts on.
    - [host_file]  : what opening the named file, [json.load] and the
                     reading of its keys give;
    - [host_start] : whether the thread of the server with this index
                     can be started. *)
Record Host := mkHost {
  host_file : str -> result FileData;
  host_start : nat -> bool
}.

Variable machine : Host.

(** How [main] ends: in [while True: time.sleep(1)] with its servers
    started, with [sys.exit], or with an exception nobody catches. *)
Inductive main_end :=
  | Serving (servers : list Server)
  | Exited (code : Z)
  | Uncaught (e : failure).

(** Lines 279-290: the command line, the configuration and its
    print-out.  An empty file name is no file; the line that
    [load_config] prints before [sys.exit(1)] is written here. *)
Definition main_config (argv : list str) : Boot Config :=
  '(config_file, cmd_bind, cmd_listen) ← parse_args argv;
  let file := match config_file with
              | [] => None
              | _ :: _ => Some (host_file machine config_file)
              end in
  match file with
  | Some (Raise e) => ([ConfigError e], Started tt)
  | _ => mret tt
  end;;
  config ← ([], load_config file cmd_bind cmd_listen);
  boot_printlog ([10] ++ lit "[==== Proxy Configuration ====]");;
  boot_printlog (lit "Buffer size: " ++ str_of_int (buffer config));;
  boot_printlog ([10] ++ lit "Bindings:");;
  (imap (fun i b =>
           Printlog (lit "  [" ++ str_of_int (Z.of_nat i) ++ lit "] "
                     ++ address b ++ lit ":" ++ str_of_int (bind_port b))%list)
        (bindings config), Started tt);;
  boot_printlog ([10] ++ lit "Listenings:");;
  (imap (fun i l =>
           Printlog (lit "  [" ++ str_of_int (Z.of_nat i) ++ lit "] "
                     ++ host l ++ lit ":" ++ str_of_int (port l))%list)
        (listenings config), Started tt);;
  boot_printlog (lit "[=============================]" ++ [10]);;
  mret config.

(** [for i, binding in enumerate(config.bindings): ...] from index [i]
    on.  [listenings !! i] is the entry when [i < len(config.listenings)]
    and nothing otherwise. *)
Fixpoint start_servers (config : Config) (i : nat) (todo : list Binding)
    (servers : list Server) : list notice * main_end :=
  match todo with
  | [] => ([], Serving servers)
  | binding :: todo =>
    let listening :=
      match listenings config !! i with
      | Some l => l
      | None => mkListening DEFAULT_LISTEN_HOST DEFAULT_LISTEN_PORT
      end in
    let server := mkServer i binding listening config in
    if host_start machine i then
      let '(out, r) := start_servers config (S i) todo (servers ++ [server]) in
      (ServerStart server None :: out, r)
    else ([ServerStart server (Some RuntimeError)], Uncaught RuntimeError)
  end.

(** [main] up to its [while True: time.sleep(1)] *)
Definition main (argv : list str) : list notice * main_end :=
  match main_config argv with
  | (out, Started config) =>
    let '(out', r) := start_servers config 0 (bindings config) [] in
    (out ++ out', r)
  | (out, SysExit code) => (out, Exited code)
  | (out, Crashed e) => (out, Uncaught (builtin e))
  end.

(** [except KeyboardInterrupt: ...] of [main] *)
Definition main_interrupt (servers : list Server) : list notice :=
  Printlog ([10] ++ lit "[!] Stopping servers...") :: (ServerStop <$> servers).

End Startup.

(** ** Notions the theorems are stated with

    Nothing below comes from ws.py. *)

(** The address and port of the last override given for index [j]. *)
Fixpoint last_override (j : nat) (overrides : list (Z * str * Z))
  : option (str * Z) :=
  match overrides with
  | [] => None
  | (index, a, p) :: rest =>
    match last_override j rest with
    | Some v => Some v
    | None => if (index =? Z.of_nat j)%Z then Some (a, p) else None
    end
  end.

(** The length of an array of [base] entries after the overrides. *)
Fixpoint resolved_length (base : nat) (overrides : list (Z * str * Z)) : nat :=
  match overrides with
  | [] => base
  | (index, _, _) :: rest => resolved_length (base `max` (Z.to_nat index + 1)) rest
  end.

(** The entry at [j] after the overrides: the last override for [j], else
    the base entry, else the fixed default [d]. *)
Definition resolved_entry {A} (mk : str -> Z -> A) (d : A) (base : list A)
    (overrides : list (Z * str * Z)) (j : nat) : A :=
  match last_override j overrides with
  | Some (a, p) => mk a p
  | None => default d (base !! j)
  end.

(** The number a string of ASCII digits denotes. *)
Definition decimal_value (digits : str) : N :=
  foldl (fun acc c => 10 * acc + (c - 48)) 0 digits.

Definition is_ascii_digit (c : N) : Prop := 48 <= c <= 57.

(** A header name that is X-Real-Host in some mix of cases. *)
Definition is_routing_name (name : str) : Prop :=
  ascii_lower <$> name = lit "x-real-host".


(** A port as the header carries it: ASCII digits, at least one and no
    more than the 640 that any setting of CPython's limit on integer
    literals lets through. *)
Definition is_port (port : str) : Prop :=
  port <> [] /\ Forall is_ascii_digit port /\ (length port <= 640)%nat.

(** What a call returns or raises, for calls that only raise or not. *)
Definition outcome_of (raised : option exn) : result unit :=
  match raised with Some e => Raise e | None => Ok tt end.

(** What [sock.recv(bufsize)] gives when it is the [t]-th event. *)
Definition recv_answer (env : Env) (who : endpoint) (bufsize : Z) (t : nat)
  : result bytes :=
  if (bufsize <? 0)%Z then Raise ValueError
  else match env_recv env t who with
       | Ok data => Ok (take (Z.to_nat bufsize) data)
       | Raise e => Raise e
       end.

(** What [close] finds when it closes the client and the target. *)
Definition close_client_answer (env : Env) (st : State) : option exn :=
  if client_closed st then None else env_close env (length (trace st)) Client.

Definition close_target_answer (env : Env) (st : State) : option exn :=
  match target st with
  | None => Some AttributeError
  | Some true => None
  | Some false => env_close env (S (length (trace st))) Target
  end.

(** The state [close] leaves. *)
Definition closed (env : Env) (st : State) : State :=
  add_event (Close Target (close_target_answer env st))
    (set_target (match target st with None => None | Some _ => Some true end)
       (add_event (Close Client (close_client_answer env st))
          (set_client_closed true st))).

(** A computation is [stable] for a relation between states when every
    state it can stop in is related to the one it started from. *)
Definition stable {A} (R : State -> State -> Prop) (m : IO A) : Prop :=
  forall st, R st (state_of (m st)).

(** The relay leaves the [error] flag as it is and only adds events. *)
Definition relay_step (st st' : State) : Prop :=
  error st' = error st /\ trace st `prefix_of` trace st'.

(** Only events are added. *)
Definition later (st st' : State) : Prop :=
  trace st `prefix_of` trace st'.

(** A computation that always comes back. *)
Definition returns {A} (m : IO A) : Prop :=
  forall st, exists r st', m st = Done r st'.

(** A computation that always returns a value. *)
Definition succeeds {A} (m : IO A) : Prop :=
  forall st, exists a st', m st = Done (Ok a) st'.

(** What [select.select] gives when it is the [t]-th event. *)
Definition select_answer (env : Env) (timeout : Q) (t : nat) : result Ready :=
  if Qgtb 0 timeout then Raise ValueError else env_select env t.

(** The state in which [tunnel] enters its loop from [st], when neither
    [setblocking] call raises: fresh buffers, the clock read, [error]
    unset. *)
Definition tunnel_start (env : Env) (config : Config) (st : State) : State :=
  let zeros := replicate (Z.to_nat (buffer config)) x00 in
  let now := env_time env (length (trace st)) in
  add_event (Setblocking Target None)
    (add_event (Setblocking Client None)
       (set_error false
          (set_last_activity now
             (add_event (Time now)
                (set_buffer Target zeros (set_buffer Client zeros st)))))).

(** From the [from]-th event on, [select] reports no socket in error. *)
Definition healthy (env : Env) (from : nat) : Prop :=
  forall t, (from <= t)%nat ->
    exists ready, env_select env t = Ok ready
                  /\ e_client ready = false /\ e_target ready = false.

(** From the [from]-th event on, no read delivers a byte: it would
    block, or the peer has closed and it delivers nothing. *)
Definition quiet (env : Env) (config : Config) (from : nat) : Prop :=
  forall t who, (from <= t)%nat ->
    recv_answer env who (buffer config) t = Ok []
    \/ recv_answer env who (buffer config) t = Raise BlockingIOError.

(** An event that moves bytes: a write, or a read that delivers some. *)
Definition moves_bytes (ev : event) : bool :=
  match ev with
  | Send _ _ _ _ => true
  | Recv _ (Ok (_ :: _)) => true
  | _ => false
  end.

(** ** The command line *)

(** What one option of the command line asks for. *)
Inductive setting :=
  | Help
  | File (name : str)
  | Bind (value : str)
  | Listen (value : str).

Definition short_name (s : setting) : str :=
  match s with
  | Help => lit "-h"
  | File _ => lit "-f"
  | Bind _ => lit "-b"
  | Listen _ => lit "-l"
  end.

Definition long_name (s : setting) : str :=
  match s with
  | Help => lit "help"
  | File _ => lit "file"
  | Bind _ => lit "bind"
  | Listen _ => lit "listen"
  end.

Definition value_of (s : setting) : option str :=
  match s with
  | Help => None
  | File v | Bind v | Listen v => Some v
  end.

(** The non-empty beginnings of a long name. *)
Definition abbreviations (name : str) : list str :=
  (fun n => take (S n) name) <$> seq 0 (length name).

(** The ways to write a setting that the theorems cover: the short
    name, or the long name or a beginning of it; the value joined to the
    name or in the next argument. *)
Inductive spells : setting -> list str -> Prop :=
  | spells_short_flag s :
    value_of s = None -> spells s [short_name s]
  | spells_long_flag s p :
    value_of s = None -> p ∈ abbreviations (long_name s) ->
    spells s [lit "--" ++ p]
  | spells_short_joined s v :
    value_of s = Some v -> v <> [] -> spells s [short_name s ++ v]
  | spells_short_apart s v :
    value_of s = Some v -> spells s [short_name s; v]
  | spells_long_joined s p v :
    value_of s = Some v -> p ∈ abbreviations (long_name s) ->
    spells s [lit "--" ++ p ++ lit "=" ++ v]
  | spells_long_apart s p v :
    value_of s = Some v -> p ∈ abbreviations (long_name s) ->
    spells s [lit "--" ++ p; v].

(** An argument that is no option: it has no hyphen in front, or is a
    hyphen and nothing else. *)
Definition positional (a : str) : Prop :=
  startswith a (lit "-") = false \/ a = lit "-".

(** Where the reading of options ends: at the end of the command line,
    at a positional argument or at [--]. *)
Definition ends_options (rest : list str) : Prop :=
  match rest with
  | [] => True
  | a :: _ => positional a \/ a = lit "--"
  end.

(** The values of the [-b] settings, those of the [-l] settings and the
    name of the last [-f] setting. *)
Definition bind_values (ss : list setting) : list str :=
  omap (fun s => match s with Bind v => Some v | _ => None end) ss.

Definition listen_values (ss : list setting) : list str :=
  omap (fun s => match s with Listen v => Some v | _ => None end) ss.

Definition file_name (ss : list setting) : str :=
  default [] (last (omap (fun s => match s with File v => Some v | _ => None end)
                         ss)).

(** What [parse_args] does with the settings, one after the other. *)
Fixpoint read_settings `{Runtime} (ss : list setting) (config_file : str)
    (cmd_bind cmd_listen : list (Z * str * Z))
  : Boot (str * list (Z * str * Z) * list (Z * str * Z)) :=
  match ss with
  | [] => mret (config_file, cmd_bind, cmd_listen)
  | Help :: _ => print_usage;; sys_exit 0
  | File name :: ss => read_settings ss name cmd_bind cmd_listen
  | Bind value :: ss =>
    v ← boot_lift (parse_indexed_arg value);
    read_settings ss config_file (cmd_bind ++ [v]) cmd_listen
  | Listen value :: ss =>
    v ← boot_lift (parse_indexed_arg value);
    read_settings ss config_file cmd_bind (cmd_listen ++ [v])
  end.

(** The pair [getopt] returns for a setting: its name, short or long,
    and its value. *)
Definition reads (o : str * str) (s : setting) : Prop :=
  (o.1 = short_name s \/ o.1 = lit "--" ++ long_name s)
  /\ o.2 = default [] (value_of s).

(** ** Server threads *)

(** The five calls with which [Server.run] sets its socket up, with
    what each raised. *)
Definition setup_events (self : Server) (raised : nat -> option failure)
  : list server_event :=
  [NewSocket (raised 0%nat); Setsockopt (raised 1%nat);
   Settimeout 2 (raised 2%nat);
   BindSocket (address (server_binding self)) (bind_port (server_binding self))
              (raised 3%nat);
   ListenSocket 5 (raised 4%nat)].

Definition is_accept (ev : server_event) : bool :=
  match ev with Accept _ _ => true | _ => false end.

(** An exception that ends the accept loop. *)
Definition fatal (raised : option failure) : Prop :=
  exists e, raised = Some e /\ is_socket_timeout e = false.

(** The calls of one pass of the accept loop that begins with call
    [n], and the exception that ends the pass, if any. *)
Definition pass_events (net : Network) (self : Server) (n : nat)
  : list server_event :=
  Accept (net_peer net n) (net_raises net n) ::
  match net_raises net n with
  | Some _ => []
  | None =>
    ClientSetblocking (net_raises net (S n)) ::
    match net_raises net (S n) with
    | Some _ => []
    | None =>
      [HandlerStart (net_peer net n) (server_listening self)
                    (server_config self) (net_raises net (S (S n)))]
    end
  end.

Definition pass_raised (net : Network) (n : nat) : option failure :=
  match net_raises net n with
  | Some e => Some e
  | None =>
    match net_raises net (S n) with
    | Some e => Some e
    | None => net_raises net (S (S n))
    end
  end.

(** No [stop()] comes during the calls [n], ..., [n + k - 1]. *)
Definition unstopped (net : Network) (n k : nat) : bool :=
  forallb (fun j => negb (net_stop net j)) (seq n k).

(** ** The relay *)

(** Events among which bytes move only as forwards: a read that
    delivers bytes is followed at once by the write of exactly these
    bytes to the other side -- of which a beginning is written -- and
    there is no other write. *)
Inductive forwards : list event -> Prop :=
  | forwards_nil : forwards []
  | forwards_quiet ev evs :
    moves_bytes ev = false -> forwards evs -> forwards (ev :: evs)
  | forwards_chunk sock data written raised evs :
    data <> [] -> written `prefix_of` data -> forwards evs ->
    forwards (Recv sock (Ok data) :: Send (other sock) data written raised
              :: evs).

(** The events added from one state to the other are of this kind. *)
Definition forwarding (st st' : State) : Prop :=
  exists evs, trace st' = trace st ++ evs /\ forwards evs.

(** The state in which the accept loop is entered: the socket is set
    up and announced; the server runs unless [stop()] came during the
    announcement. *)
Definition listening_state (net : Network) (self : Server) : ServerState :=
  {| running := negb (net_stop net 5%nat);
     server_trace := setup_events self (fun _ => None)
                     ++ [Announce (announcement self)] |}.

(** The state after several calls in a row. *)
Definition recorded_all (net : Network) (evs : list server_event)
    (st : ServerState) : ServerState :=
  foldl (fun st ev => recorded net ev st) st evs.

(** ** The turns of a pass *)

(** The events of the turn of [sock] in [for sock in r], begun at call
    [t], after which the loop goes on to the next socket: the read would
    block, or it delivers bytes and their forward completes or would
    block. *)
Inductive turn_goes_on (env : Env) (config : Config) (sock : endpoint)
    (t : nat) : list event -> Prop :=
  | turn_would_block e :
    recv_answer env sock (buffer config) t = Raise e ->
    is_BlockingIOError e = true ->
    turn_goes_on env config sock t [Recv sock (Raise e)]
  | turn_forwarded data :
    recv_answer env sock (buffer config) t = Ok data -> data <> [] ->
    env_sendall env (S t) (other sock) data = None ->
    turn_goes_on env config sock t
      [Recv sock (Ok data); Send (other sock) data data None]
  | turn_forward_blocked data k e :
    recv_answer env sock (buffer config) t = Ok data -> data <> [] ->
    env_sendall env (S t) (other sock) data = Some (k, e) ->
    is_BlockingIOError e = true ->
    turn_goes_on env config sock t
      [Recv sock (Ok data); Send (other sock) data (take k data) (Some e)].

(** The events of the turns that come before the turn of [sock] among
    the ready sockets [r], the first of them begun at call [t]. *)
Inductive turns_before (env : Env) (config : Config)
  : list endpoint -> endpoint -> nat -> list event -> Prop :=
  | turns_first sock r t : turns_before env config (sock :: r) sock t []
  | turns_later first r sock t evs evs' :
    turn_goes_on env config first t evs ->
    turns_before env config r sock (t + length evs) evs' ->
    turns_before env config (first :: r) sock t (evs ++ evs').

(** ** Sample inputs

    Concrete chunks, settings and environments on which the theorems
    are tried out. *)

Definition ascii_bytes (s : string) : bytes := list_byte_of_string s.

Definition sample_listening : Listening := mkListening (lit "127.0.0.1") 22.

(** Small buffers, the default timeout of 60 seconds. *)
Definition sample_config : Config :=
  {| bindings := []; listenings := []; buffer := 8; timeout := TIMEOUT;
     response := lit "HTTP/1.1 101" |}.

Definition sample_addr : str * Z := (lit "10.0.0.9", 40000%Z).

(** A request that names its target, one that leaves the port out, one
    without routing header, one that is not UTF-8 after its headers, one
    whose port is not a number, one with two routing headers of which
    the first has no ": ". *)
Definition chunk_host_port : bytes :=
  ascii_bytes ("GET / HTTP/1.1" ++ CRLF ++ "Host: front.example" ++ CRLF
               ++ "X-Real-Host: example.org:2222" ++ CRLF
               ++ "Upgrade: websocket" ++ CRLF ++ CRLF).



Definition chunk_not_utf8 : bytes :=
  ascii_bytes ("X-Real-Host: example.org:2222" ++ CRLF ++ CRLF) ++ [xff].





(** An environment in which the first read delivers [first], every later
    read answers [later_recv], [connect] answers [dial], [select] always
    reports [ready], [sendall] always answers [forward], the [n]-th
    event happens at second [clock n], and nothing else fails. *)
Definition sample_env (first later_recv : result bytes) (dial : option exn)
    (ready : Ready) (forward : option (nat * exn)) (clock : nat -> Q) : Env :=
  {| env_recv := fun t _ => match t with O => first | S _ => later_recv end;
     env_send := fun _ _ data => Ok (length data);
     env_sendall := fun _ _ _ => forward;
     env_socket := fun _ => None;
     env_connect := fun _ _ _ => dial;
     env_setblocking := fun _ _ => None;
     env_select := fun _ => Ok ready;
     env_time := clock;
     env_close := fun _ _ => None |}.

Definition seconds (n : nat) : Q := inject_Z (Z.of_nat n).

(** The client has closed its side: it is read-ready for ever and every
    read delivers nothing. *)
Definition env_client_eof : Env :=
  sample_env (Ok (ascii_bytes "hello")) (Ok [])
    None (mkReady true false true true false false) None seconds.

(** The client sends; the target's send buffer is full after 3 bytes. *)
Definition env_target_slow : Env :=
  sample_env (Ok (ascii_bytes "hello")) (Ok (ascii_bytes "abcdefgh"))
    None (mkReady true false true true false false)
    (Some (3%nat, BlockingIOError)) seconds.

(** Nobody sends; 100 seconds go by between two events. *)
Definition env_idle : Env :=
  sample_env (Ok (ascii_bytes "hello")) (Raise BlockingIOError)
    None (mkReady false false true true false false) None
    (fun n => seconds (100 * n)).

(** The target refuses the connection. *)
Definition env_refused : Env :=
  sample_env (Ok chunk_host_port) (Ok [])
    (Some OSError) (mkReady false false true true false false) None seconds.

(** The client connects and closes without sending. *)
Definition env_silent : Env :=
  sample_env (Ok []) (Ok [])
    None (mkReady false false true true false false) None seconds.

(** The write of the handshake text fails. *)
Definition env_handshake_fails : Env :=
  {| env_recv := env_recv env_idle;
     env_send := fun _ _ _ => Raise OSError;
     env_sendall := env_sendall env_idle;
     env_socket := env_socket env_idle;
     env_connect := env_connect env_idle;
     env_setblocking := env_setblocking env_idle;
     env_select := env_select env_idle;
     env_time := env_time env_idle;
     env_close := env_close env_idle |}.

(** [select] reports the client socket in error. *)
Definition env_relay_error : Env :=
  sample_env (Ok (ascii_bytes "hello")) (Raise BlockingIOError)
    None (mkReady false false true true true false) None seconds.

(** Closing the client fails, and so does closing the target. *)
Definition env_close_fails : Env :=
  {| env_recv := env_recv env_idle;
     env_send := env_send env_idle;
     env_sendall := env_sendall env_idle;
     env_socket := env_socket env_idle;
     env_connect := env_connect env_idle;
     env_setblocking := env_setblocking env_idle;
     env_select := env_select env_idle;
     env_time := env_time env_idle;
     env_close := fun _ _ => Some OSError |}.

(** The last two events of a session. *)
Definition ending (st : State) : list event :=
  drop (length (trace st) - 2) (trace st).

(** The client sends a chunk that is not UTF-8. *)
Definition env_binary : Env :=
  sample_env (Ok chunk_not_utf8) (Raise BlockingIOError)
    None (mkReady false false true true false false) None seconds.
(** ** Sample command lines, machines and networks *)

(** A machine without configuration file on which every thread
    starts, and one on which only the first thread starts. *)
Definition sample_machine : Host :=
  {| host_file := fun _ => Raise OSError; host_start := fun _ => true |}.

Definition machine_one_thread : Host :=
  {| host_file := fun _ => Raise OSError;
     host_start := fun i => (i <? 1)%nat |}.

(** [-b 1:10.0.0.1:80 --listen=0:192.168.0.2:22] *)
Definition sample_settings : list setting :=
  [Bind (lit "1:10.0.0.1:80"); Listen (lit "0:192.168.0.2:22")].

Definition sample_argv : list str :=
  [lit "-b"; lit "1:10.0.0.1:80"; lit "--listen=0:192.168.0.2:22"].

(** What [load_config] makes of it. *)
Definition sample_resolved : Config :=
  {| bindings := [mkBinding DEFAULT_BIND_ADDR DEFAULT_BIND_PORT;
                  mkBinding (lit "10.0.0.1") 80];
     listenings := [mkListening (lit "192.168.0.2") 22];
     buffer := BUFFER_SIZE; timeout := TIMEOUT; response := RESPONSE |}.

Definition sample_server : Server :=
  mkServer 0 (mkBinding (lit "0.0.0.0") 8880) sample_listening sample_config.

(** A network in which every connection comes from [sample_addr]. *)
Definition sample_net (raises : nat -> option failure) (stops : nat -> bool)
  : Network :=
  {| net_raises := raises; net_peer := fun _ => sample_addr;
     net_stop := stops |}.

(** The address is in use: [bind], the fourth call, fails. *)
Definition net_bind_fails : Network :=
  sample_net (fun t => if (t =? 3)%nat then Some (builtin OSError) else None)
             (fun _ => false).

(** One connection is accepted and handed over; the next [accept]
    (call 9) times out, and [stop()] comes while it waits. *)
Definition net_stopped : Network :=
  sample_net (fun t => if (t =? 9)%nat then Some socket_timeout else None)
             (fun t => (t =? 9)%nat).

(** [stop()] comes during the third call of the set-up; afterwards
    nobody connects and every [accept] times out. *)
Definition net_stopped_early : Network :=
  sample_net (fun t => if (t <? 6)%nat then None else Some socket_timeout)
             (fun t => (t =? 2)%nat).

(** The first [accept] times out, the second fails (too many open
    files, say). *)
Definition net_accept_fails : Network :=
  sample_net (fun t => if (t =? 6)%nat then Some socket_timeout
                       else if (t =? 7)%nat then Some (builtin OSError)
                       else None)
             (fun _ => false).

(** Requests whose routing value has no host, and one whose host is an
    IPv6 literal. *)
Definition chunk_port_only : bytes :=
  ascii_bytes ("GET / HTTP/1.1" ++ CRLF ++ "X-Real-Host: :2222" ++ CRLF ++ CRLF).

Definition chunk_ipv6 : bytes :=
  ascii_bytes ("GET / HTTP/1.1" ++ CRLF ++ "X-Real-Host: [::1]:22" ++ CRLF
               ++ CRLF).

(** A configuration with no room to read into. *)
Definition config_no_buffer : Config :=
  {| bindings := []; listenings := []; buffer := 0; timeout := TIMEOUT;
     response := RESPONSE |}.

(** A configuration whose response text holds a lone surrogate. *)
Definition config_bad_response : Config :=
  {| bindings := []; listenings := []; buffer := 8; timeout := TIMEOUT;
     response := [0xD800] |}.

(** The client takes the first ten bytes of whatever is written to it. *)
Definition env_short_write : Env :=
  {| env_recv := env_recv env_idle;
     env_send := fun _ _ _ => Ok 10%nat;
     env_sendall := env_sendall env_idle;
     env_socket := env_socket env_idle;
     env_connect := env_connect env_idle;
     env_setblocking := env_setblocking env_idle;
     env_select := env_select env_idle;
     env_time := env_time env_idle;
     env_close := env_close env_idle |}.

(** The client's socket is readable and the read finds the connection
    reset. *)
Definition env_reset : Env :=
  sample_env (Ok (ascii_bytes "hello")) (Raise OSError)
    None (mkReady true false true true false false) None seconds.

(** Both sockets are readable: the client's chunk is forwarded whole,
    then the read of the target finds the connection reset. *)
Definition env_target_reset : Env :=
  {| env_recv := fun t who =>
       match t, who with
       | O, _ => Ok (ascii_bytes "hello")
       | S _, Client => Ok (ascii_bytes "abcdefgh")
       | S _, Target => Raise OSError
       end;
     env_send := env_send env_idle;
     env_sendall := fun _ _ _ => None;
     env_socket := env_socket env_idle;
     env_connect := env_connect env_idle;
     env_setblocking := env_setblocking env_idle;
     env_select := fun _ => Ok (mkReady true true true true false false);
     env_time := seconds;
     env_close := env_close env_idle |}.

(* ===================================================================== *)
(** * Configuration resolution                                            *)
(* ===================================================================== *)

Section Overrides.
Context {A : Type}.
Implicit Types (l : list A) (d x : A).

Lemma append_while_replicate fuel l index d :
  (index + 1 - Z.of_nat (length l) <= Z.of_nat fuel)%Z ->
  append_while fuel l index d
  = l ++ replicate (Z.to_nat (index + 1 - Z.of_nat (length l))) d.
Proof.
  revert l. induction fuel as [|fuel IH]; intros l Hfuel; simpl.
  - replace (Z.to_nat _) with 0%nat by lia. simpl. by rewrite app_nil_r.
  - destruct (Z.leb_spec (Z.of_nat (length l)) index) as [Hle|Hgt].
    + rewrite IH; rewrite length_app; simpl; [|lia].
      replace (Z.to_nat (index + 1 - Z.of_nat (length l)))
        with (S (Z.to_nat (index + 1 - Z.of_nat (length l + 1)))) by lia.
      simpl. by rewrite <- app_assoc.
    + replace (Z.to_nat _) with 0%nat by lia. simpl. by rewrite app_nil_r.
Qed.

(** One override at a natural index: the array is padded with the
    default and the entry is set. *)
Lemma extend_and_set_nat d l (i : nat) x :
  extend_and_set d l (Z.of_nat i) x
  = Ok (<[i := x]> (l ++ replicate (i + 1 - length l) d)).
Proof.
  unfold extend_and_set. rewrite append_while_replicate by lia.
  replace (Z.to_nat (Z.of_nat i + 1 - Z.of_nat (length l)))
    with (i + 1 - length l)%nat by lia.
  unfold list_setitem. rewrite length_app, length_replicate.
  destruct (Z.leb_spec 0 (Z.of_nat i)); [|lia].
  destruct (Z.ltb_spec (Z.of_nat i)
              (Z.of_nat (length l + (i + 1 - length l)))); [|lia].
  simpl. by rewrite Nat2Z.id.
Qed.

Lemma extend_and_set_length d l (i : nat) x l' :
  extend_and_set d l (Z.of_nat i) x = Ok l' ->
  length l' = (length l `max` (i + 1))%nat.
Proof.
  rewrite extend_and_set_nat. intros [= <-].
  rewrite length_insert, length_app, length_replicate. lia.
Qed.

Lemma extend_and_set_lookup d l (i : nat) x l' j :
  extend_and_set d l (Z.of_nat i) x = Ok l' ->
  (j < length l')%nat ->
  l' !! j = Some (if decide (j = i) then x else default d (l !! j)).
Proof.
  intros Hset Hj. pose proof (extend_and_set_length _ _ _ _ _ Hset) as Hlen.
  rewrite extend_and_set_nat in Hset. injection Hset as <-.
  destruct (decide (j = i)) as [->|Hne].
  - apply list_lookup_insert_eq. rewrite length_app, length_replicate. lia.
  - rewrite list_lookup_insert_ne by done.
    destruct (decide (j < length l)%nat) as [Hin|Hout].
    + rewrite lookup_app_l by done.
      destruct (lookup_lt_is_Some_2 l j Hin) as [y Hy]. by rewrite Hy.
    + rewrite lookup_app_r by lia.
      rewrite (proj2 (lookup_ge_None l j)) by lia. simpl.
      apply lookup_replicate_2. lia.
Qed.

(** All the overrides of one loop. *)
Lemma for_each_overrides (mk : str -> Z -> A) d overrides : forall l,
  Forall (fun ov => (0 <= ov.1.1)%Z) overrides ->
  exists l',
    for_each (fun l '(index, a, p) => extend_and_set d l index (mk a p))
             overrides l = Ok l'
    /\ length l' = resolved_length (length l) overrides
    /\ forall j, (j < length l')%nat ->
         l' !! j = Some (resolved_entry mk d l overrides j).
Proof.
  induction overrides as [|[[index a] p] rest IH]; intros l Hall.
  - exists l. split; [done|]. split; [done|]. intros j Hj.
    unfold resolved_entry. simpl.
    destruct (lookup_lt_is_Some_2 l j Hj) as [y Hy]. by rewrite Hy.
  - apply Forall_cons in Hall as [Hidx Hall]. simpl in Hidx.
    rewrite <- (Z2Nat.id index) by done.
    set (i := Z.to_nat index).
    destruct (extend_and_set d l (Z.of_nat i) (mk a p)) as [l1|e] eqn:Hset;
      [|by rewrite extend_and_set_nat in Hset].
    destruct (IH l1 Hall) as (l' & Hrun & Hlen & Hlook).
    exists l'. split; [by simpl; rewrite Hset|].
    pose proof (extend_and_set_length _ _ _ _ _ Hset) as Hlen1.
    split; [by simpl; rewrite Nat2Z.id, <- Hlen1|].
    intros j Hj. rewrite (Hlook j Hj). f_equal.
    unfold resolved_entry. simpl.
    destruct (last_override j rest) as [[a' p']|]; [done|].
    destruct (decide (j < length l1)%nat) as [Hin|Hout].
    + rewrite (extend_and_set_lookup _ _ _ _ _ _ Hset Hin). simpl.
      destruct (decide (j = i)) as [->|Hne].
      * by rewrite Z.eqb_refl.
      * destruct (Z.eqb_spec (Z.of_nat i) (Z.of_nat j)); [lia|done].
    + rewrite (proj2 (lookup_ge_None l1 j)) by lia.
      rewrite (proj2 (lookup_ge_None l j)) by lia.
      destruct (Z.eqb_spec (Z.of_nat i) (Z.of_nat j)); [lia|done].
Qed.

End Overrides.

(** C3.  [load_config] with a base from the file (or none) and overrides
    whose indices are array indices (not negative) returns a
    configuration in which, for bindings and for listenings alike,
    - the array is as long as the base or as the highest overridden
      index requires, whichever is more;
    - entry [j] is the value of the last override given for [j]; where
      there is none it is the base entry; where the base is too short it
      is the fixed default. *)
Theorem load_config_overrides (file : option FileData)
    (cmd_bind cmd_listen : list (Z * str * Z)) :
  Forall (fun ov => (0 <= ov.1.1)%Z) cmd_bind ->
  Forall (fun ov => (0 <= ov.1.1)%Z) cmd_listen ->
  let base_b := from_option file_bindings [] file in
  let base_l := from_option file_listenings [] file in
  exists config,
    load_config (Ok <$> file) cmd_bind cmd_listen = Started config
    /\ length (bindings config) = resolved_length (length base_b) cmd_bind
    /\ (forall j, (j < length (bindings config))%nat ->
          bindings config !! j
          = Some (resolved_entry mkBinding
                    (mkBinding DEFAULT_BIND_ADDR DEFAULT_BIND_PORT)
                    base_b cmd_bind j))
    /\ length (listenings config) = resolved_length (length base_l) cmd_listen
    /\ (forall j, (j < length (listenings config))%nat ->
          listenings config !! j
          = Some (resolved_entry mkListening
                    (mkListening DEFAULT_LISTEN_HOST DEFAULT_LISTEN_PORT)
                    base_l cmd_listen j)).
Proof.
  intros Hb Hl base_b base_l.
  destruct (for_each_overrides mkBinding
              (mkBinding DEFAULT_BIND_ADDR DEFAULT_BIND_PORT)
              cmd_bind base_b Hb) as (bs & Hbs & Hblen & Hblook).
  destruct (for_each_overrides mkListening
              (mkListening DEFAULT_LISTEN_HOST DEFAULT_LISTEN_PORT)
              cmd_listen base_l Hl) as (ls & Hls & Hllen & Hllook).
  exists (mkConfig bs ls
            (from_option (fun d => default BUFFER_SIZE (file_buffer d))
                         BUFFER_SIZE file)
            TIMEOUT
            (from_option (fun d => default RESPONSE (file_response d))
                         RESPONSE file)).
  split; [|done].
  unfold load_config. subst base_b base_l.
  destruct file as [data|]; simpl in *; by rewrite Hbs, Hls.
Qed.

(** The example of the specification: a base of one binding and an
    override at index 2 give three bindings, the one at index 1 being
    the fixed default. *)
Lemma load_config_overrides_witness :
  let b0 := mkBinding (lit "10.0.0.1") 80 in
  let file := Some (mkFileData [b0] [] None None) in
  exists config,
    load_config (Ok <$> file) [(2%Z, lit "10.0.0.3", 443%Z)] []
    = Started config
    /\ length (bindings config) = 3%nat
    /\ bindings config !! 0%nat = Some b0
    /\ bindings config !! 1%nat
       = Some (mkBinding DEFAULT_BIND_ADDR DEFAULT_BIND_PORT)
    /\ bindings config !! 2%nat = Some (mkBinding (lit "10.0.0.3") 443).
Proof.
  intros b0 file.
  destruct (load_config_overrides file [(2%Z, lit "10.0.0.3", 443%Z)] [])
    as (config & Hrun & Hlen & Hlook & _).
  - repeat constructor; simpl; lia.
  - constructor.
  - exists config. split; [exact Hrun|]. split; [exact Hlen|].
    rewrite Hlen in Hlook.
    split; [|split]; (rewrite Hlook; [reflexivity | simpl; lia]).
Defined.

(** An index below zero is no array index.  On a base of one binding,
    the override [-2:10.0.0.3:443] finds no entry to replace, the
    assignment raises and no configuration is returned; the override
    [-1:10.0.0.3:443] replaces the entry of index 0, and the array is
    not extended. *)
Lemma override_below_zero :
  let b0 := mkBinding (lit "10.0.0.1") 80 in
  let file := Some (Ok (mkFileData [b0] [] None None)) in
  load_config file [((-2)%Z, lit "10.0.0.3", 443%Z)] [] = Crashed IndexError
  /\ load_config file [((-1)%Z, lit "10.0.0.3", 443%Z)] []
     = Started {| bindings := [mkBinding (lit "10.0.0.3") 443];
                  listenings := []; buffer := BUFFER_SIZE;
                  timeout := TIMEOUT; response := RESPONSE |}.
Proof. split; reflexivity. Qed.

(* ===================================================================== *)
(** * str methods                                                         *)
(* ===================================================================== *)

Section StrFacts.
Context `{Runtime}.
Implicit Types (s p sep : str) (c : N).

Lemma startswith_app p s q : startswith (p ++ s) (p ++ q) = startswith s q.
Proof. induction p as [|a p IH]; simpl; [done|]. by rewrite N.eqb_refl. Qed.

Lemma startswith_nil s : startswith s [] = true.
Proof. by destruct s. Qed.

Lemma startswith_head_ne c c' s sep :
  c <> c' -> startswith (c :: s) (c' :: sep) = false.
Proof. intros Hne. simpl. by destruct (N.eqb_spec c' c); [congruence|]. Qed.

Lemma startswith_self sep s : startswith (sep ++ s) sep = true.
Proof.
  induction sep as [|a sep IH]; simpl; [apply startswith_nil|].
  by rewrite N.eqb_refl.
Qed.

Lemma partition_unfold sep s :
  partition sep s
  = if startswith s sep then Some ([], drop (length sep) s)
    else match s with
         | [] => None
         | c :: s' =>
           match partition sep s' with
           | Some (a, b) => Some (c :: a, b)
           | None => None
           end
         end.
Proof. by destruct s. Qed.

(** A separator is found where it first stands, when its first code
    point does not occur before. *)
Lemma partition_first c sep a b :
  c ∉ a -> partition (c :: sep) (a ++ (c :: sep) ++ b) = Some (a, b).
Proof.
  induction a as [|x a IH]; intros Hnot; rewrite partition_unfold.
  - change ([] ++ (c :: sep) ++ b) with ((c :: sep) ++ b).
    by rewrite startswith_self, drop_app_length.
  - apply not_elem_of_cons in Hnot as [Hne Hnot].
    change ((x :: a) ++ (c :: sep) ++ b) with (x :: (a ++ (c :: sep) ++ b)).
    rewrite startswith_head_ne by done. by rewrite (IH Hnot).
Qed.

(** No separator, no split. *)
Lemma partition_none c sep s :
  c ∉ s -> partition (c :: sep) s = None.
Proof.
  induction s as [|x s IH]; intros Hnot; rewrite partition_unfold; [done|].
  apply not_elem_of_cons in Hnot as [Hne Hnot].
  rewrite startswith_head_ne by done. by rewrite (IH Hnot).
Qed.

(** [s.split(sep, 1)] *)
Lemma splitn_1 sep s :
  splitn 1 sep s
  = match partition sep s with
    | Some (a, b) => [a; b]
    | None => [s]
    end.
Proof. simpl. by destruct (partition sep s) as [[a b]|]. Qed.

Lemma contains_elem_of c s : contains c s = true <-> c ∈ s.
Proof.
  unfold contains. rewrite existsb_exists. split.
  - intros (x & Hin & Heq). apply N.eqb_eq in Heq as <-.
    by apply list_elem_of_In.
  - intros Hin. exists c. split; [by apply list_elem_of_In|apply N.eqb_refl].
Qed.


(** ** lower *)

Lemma lower_app s1 s2 : lower (s1 ++ s2) = lower s1 ++ lower s2.
Proof. unfold lower. apply flat_map_app. Qed.

Lemma ascii_lower_ascii c : ascii_lower c < 128 -> c < 128.
Proof.
  unfold ascii_lower, in_range.
  destruct (N.leb_spec 65 c), (N.leb_spec c 90); simpl; lia.
Qed.

Lemma lower_ascii s :
  Forall (fun c => ascii_lower c < 128) s -> lower s = ascii_lower <$> s.
Proof.
  induction 1 as [|c s Hc _ IH]; [done|].
  unfold lower in *. simpl. rewrite IH.
  apply ascii_lower_ascii in Hc.
  by destruct (N.ltb_spec c 128); [|lia].
Qed.

Lemma routing_name_lower name :
  is_routing_name name -> lower name = lit "x-real-host".
Proof.
  intros Hname. rewrite lower_ascii; [done|].
  apply Forall_fmap with (f := ascii_lower) (P := fun k => k < 128).
  rewrite Hname. vm_compute. repeat constructor.
Qed.

Lemma routing_name_no_colon name : is_routing_name name -> 58 ∉ name.
Proof.
  intros Hname Hin.
  assert (58 ∈ ascii_lower <$> name) as Hin'.
  { change 58 with (ascii_lower 58). by apply list_elem_of_fmap_2. }
  rewrite Hname in Hin'. vm_compute in Hin'.
  repeat (apply elem_of_cons in Hin' as [Hin'|Hin']; [discriminate|]).
  by apply elem_of_nil in Hin'.
Qed.

(** A line that begins with the header name and a colon is a routing
    line, whatever the case of the name. *)
Lemma routing_line_intro name rest :
  is_routing_name name -> is_routing_line (name ++ 58 :: rest) = true.
Proof.
  intros Hname. unfold is_routing_line.
  rewrite lower_app, (routing_name_lower _ Hname).
  change (lit "x-real-host:") with (lit "x-real-host" ++ [58]).
  rewrite startswith_app. unfold lower. simpl. apply startswith_nil.
Qed.

(** ** strip *)

Lemma lstrip_by_head sp c s : sp c = false -> lstrip_by sp (c :: s) = c :: s.
Proof. intros Hc. simpl. by rewrite Hc. Qed.

(** Nothing is stripped from a string that begins and ends with code
    points that are not white space. *)
Lemma strip_by_id sp c s c' :
  sp c = false -> sp c' = false ->
  strip_by sp (c :: s ++ [c']) = c :: s ++ [c'].
Proof.
  intros Hc Hc'. unfold strip_by. rewrite lstrip_by_head by done.
  assert (rev (c :: s ++ [c']) = c' :: rev (c :: s)) as Hrev.
  { change (c :: s ++ [c']) with ((c :: s) ++ [c']). by rewrite rev_app_distr. }
  rewrite Hrev, lstrip_by_head by done. rewrite <- Hrev.
  apply rev_involutive.
Qed.

Lemma strip_by_single sp c : sp c = false -> strip_by sp [c] = [c].
Proof. intros Hc. unfold strip_by. simpl. rewrite Hc. simpl. by rewrite Hc. Qed.

(** The same for any non-empty string, given its two ends. *)
Lemma strip_by_ends sp s c c' :
  head s = Some c -> last s = Some c' ->
  sp c = false -> sp c' = false -> strip_by sp s = s.
Proof.
  intros Hhead Hlast Hc Hc'.
  destruct s as [|x s]; [done|]. injection Hhead as ->.
  destruct (decide (s = [])) as [->|Hne].
  - by apply strip_by_single.
  - destruct (exists_last Hne) as (s' & y & ->).
    rewrite app_comm_cons, last_snoc in Hlast. injection Hlast as ->.
    by apply strip_by_id.
Qed.

End StrFacts.

(* ===================================================================== *)
(** * int                                                                 *)
(* ===================================================================== *)

Section IntFacts.
Context `{Runtime}.

Lemma digit_val_ascii c : is_ascii_digit c -> digit_val c = Some (c - 48).
Proof.
  intros [Hlo Hhi]. unfold digit_val, in_range.
  destruct (N.ltb_spec c 128); [|lia].
  by destruct (N.leb_spec 48 c), (N.leb_spec c 57); try lia.
Qed.

Lemma int_isspace_digit c : is_ascii_digit c -> int_isspace c = false.
Proof.
  intros [Hlo Hhi]. unfold int_isspace, in_range.
  destruct (N.ltb_spec c 128); [|lia].
  destruct (N.leb_spec 9 c), (N.leb_spec c 13), (N.eqb_spec c 32);
    simpl; try done; lia.
Qed.

Lemma int_digits_ascii s : forall acc count after_digit,
  Forall is_ascii_digit s ->
  s <> [] \/ after_digit = true ->
  int_digits s acc count after_digit
  = Some (foldl (fun acc c => 10 * acc + (c - 48)) acc s,
          (count + length s)%nat).
Proof.
  induction s as [|c s IH]; intros acc count after_digit Hall Hne.
  - destruct Hne as [?| ->]; [done|]. simpl. do 2 f_equal. lia.
  - apply Forall_cons in Hall as [Hc Hall]. simpl.
    destruct (N.eqb_spec c 95) as [->|_]; [destruct Hc; lia|].
    rewrite (digit_val_ascii _ Hc), IH by auto.
    do 2 f_equal. lia.
Qed.

(** [int] of a string of ASCII digits is the number they denote. *)
Lemma int_digits_value port :
  is_port port -> int port = Ok (Z.of_N (decimal_value port)).
Proof.
  intros (Hne & Hall & Hlen). unfold int.
  destruct port as [|c port]; [done|].
  assert (exists c', last (c :: port) = Some c' /\ is_ascii_digit c')
    as (c' & Hlast & Hc').
  { destruct (last (c :: port)) as [c'|] eqn:Hlast.
    - exists c'. split; [done|].
      apply last_Some in Hlast as [l' Hl']. rewrite Hl' in Hall.
      apply Forall_app in Hall as [_ Hall]. by apply Forall_cons in Hall as [? _].
    - by apply last_None in Hlast. }
  pose proof (Forall_inv Hall) as Hc.
  rewrite (strip_by_ends int_isspace (c :: port) c c')
    by auto using int_isspace_digit.
  destruct (N.eqb_spec c 43) as [->|_]; [destruct Hc; lia|].
  destruct (N.eqb_spec c 45) as [->|_]; [destruct Hc; lia|].
  rewrite int_digits_ascii by auto.
  assert ((640 <? 0 + length (c :: port))%nat = false) as Hshort.
  { apply Nat.ltb_ge. simpl in *. lia. }
  rewrite Hshort. by destruct int_max_str_digits.
Qed.

End IntFacts.

(* ===================================================================== *)
(** * The routing header                                                  *)
(* ===================================================================== *)

Section Routing.
Context `{Runtime}.
Variable listening : Listening.

(** The loop returns (or raises) at the first routing line. *)
Lemma scan_headers_first pre h post :
  Forall (fun x => is_routing_line x = false) pre ->
  is_routing_line h = true ->
  scan_headers listening (pre ++ h :: post)
  = (hp ← routing_value listening h; Ok (Some hp)).
Proof.
  intros Hpre Hh. induction Hpre as [|x pre Hx _ IH]; simpl.
  - by rewrite Hh.
  - by rewrite Hx.
Qed.


Lemma isspace_digit c : is_ascii_digit c -> isspace c = false.
Proof.
  intros [Hlo Hhi]. unfold isspace, in_range.
  destruct (N.ltb_spec c 128); [|lia].
  destruct (N.leb_spec 9 c), (N.leb_spec c 13), (N.leb_spec 28 c),
    (N.leb_spec c 32); simpl; try done; lia.
Qed.




Lemma port_last port :
  is_port port -> exists c, last port = Some c /\ isspace c = false.
Proof.
  intros (Hne & Hall & _). destruct (last port) as [c|] eqn:Hlast.
  - exists c. split; [done|].
    apply last_Some in Hlast as [l' ->].
    apply Forall_app in Hall as [_ Hall].
    apply isspace_digit. by apply Forall_inv in Hall.
  - by apply last_None in Hlast.
Qed.

(** [h.split(': ', 1)[1]] of a line [name: value] *)
Lemma routing_line_value name value :
  is_routing_name name ->
  splitn 1 (lit ": ") (name ++ lit ": " ++ value) !! 1%nat = Some value.
Proof.
  intros Hname. change (lit ": ") with [58; 32]. rewrite splitn_1.
  by rewrite (partition_first 58 [32] name value)
    by by apply routing_name_no_colon.
Qed.



Lemma parse_headers_first data text pre h post :
  decode data = Ok text ->
  split (lit CRLF) text = pre ++ h :: post ->
  Forall (fun x => is_routing_line x = false) pre ->
  is_routing_line h = true ->
  parse_headers listening data
  = match routing_value listening h with
    | Ok hp => Some hp
    | Raise _ => None
    end.
Proof.
  intros Hdec Hsplit Hpre Hh. unfold parse_headers, parse_headers_try.
  rewrite Hdec. simpl. rewrite Hsplit, scan_headers_first by done.
  by destruct (routing_value listening h).
Qed.

Lemma resolve_target_none data :
  parse_headers listening data = None ->
  resolve_target listening data = (host listening, port listening).
Proof. intros Hnone. unfold resolve_target. by rewrite Hnone. Qed.



(** Whatever goes wrong inside the [try] of [parse_headers], the
    function returns no directive and the default target is used. *)
Lemma parse_failure_no_directive (data : bytes) (e : exn) :
  parse_headers_try listening data = Raise e ->
  parse_headers listening data = None
  /\ resolve_target listening data = (host listening, port listening).
Proof.
  intros Hraise.
  assert (parse_headers listening data = None) as Hnone.
  { unfold parse_headers. by rewrite Hraise. }
  split; [done|]. by apply resolve_target_none.
Qed.

Lemma scan_headers_raises lines e :
  scan_headers listening lines = Raise e ->
  exists pre h post,
    lines = pre ++ h :: post
    /\ Forall (fun x => is_routing_line x = false) pre
    /\ is_routing_line h = true
    /\ routing_value listening h = Raise e.
Proof.
  induction lines as [|x lines IH]; [done|]. simpl.
  destruct (is_routing_line x) eqn:Hx.
  - intros Hscan. exists [], x, lines. repeat split; try done.
    destruct (routing_value listening x); simpl in Hscan; congruence.
  - intros Hscan.
    destruct (IH Hscan) as (pre & h & post & -> & Hpre & Hh & Hval).
    exists (x :: pre), h, post. repeat split; try done. by constructor.
Qed.

(** The ways the [try] of [parse_headers] raises. *)
Lemma parse_headers_try_raises data e :
  parse_headers_try listening data = Raise e <->
  decode data = Raise e
  \/ exists text pre h post,
       decode data = Ok text
       /\ split (lit CRLF) text = pre ++ h :: post
       /\ Forall (fun x => is_routing_line x = false) pre
       /\ is_routing_line h = true
       /\ routing_value listening h = Raise e.
Proof.
  unfold parse_headers_try. split.
  - destruct (decode data) as [text|e'] eqn:Hdec; simpl;
      [|intros [= ->]; by left].
    intros Hscan. right. exists text.
    destruct (scan_headers_raises _ _ Hscan)
      as (pre & h & post & Hsplit & Hpre & Hh & Hval).
    by exists pre, h, post.
  - intros [Hdec|(text & pre & h & post & Hdec & Hsplit & Hpre & Hh & Hval)];
      rewrite Hdec; simpl; [done|].
    by rewrite Hsplit, scan_headers_first, Hval.
Qed.

End Routing.

(* ===================================================================== *)
(** * Sessions                                                            *)
(* ===================================================================== *)

Section MonadFacts.
Context {A B : Type}.

Lemma bind_run (m : IO A) (k : A -> IO B) st :
  (m ≫= k) st
  = match m st with
    | Done (Ok a) st' => k a st'
    | Done (Raise e) st' => Done (Raise e) st'
    | Pending st' => Pending st'
    end.
Proof. reflexivity. Qed.

Lemma bind_done_ok (m : IO A) (k : A -> IO B) st a st' :
  m st = Done (Ok a) st' -> (m ≫= k) st = k a st'.
Proof. intros Hm. by rewrite bind_run, Hm. Qed.

Lemma bind_done_raise (m : IO A) (k : A -> IO B) st e st' :
  m st = Done (Raise e) st' -> (m ≫= k) st = Done (Raise e) st'.
Proof. intros Hm. by rewrite bind_run, Hm. Qed.

End MonadFacts.

Section Primitives.
Variable env : Env.

Lemma raise_if_run raised st : raise_if raised st = Done (outcome_of raised) st.
Proof. by destruct raised. Qed.

Lemma ret_run {A} (a : A) st : (mret a : IO A) st = Done (Ok a) st.
Proof. reflexivity. Qed.

Lemma raise_run {A} e st : @raise A e st = Done (Raise e) st.
Proof. reflexivity. Qed.

Lemma lift_run {A} (r : result A) st : lift r st = Done r st.
Proof. reflexivity. Qed.

Lemma get_run st : get st = Done (Ok st) st.
Proof. reflexivity. Qed.

Lemma modify_run f st : modify f st = Done (Ok tt) (f st).
Proof. reflexivity. Qed.

Lemma emit_run ev st : emit ev st = Done (Ok tt) (add_event ev st).
Proof. reflexivity. Qed.

Lemma printlog_run line st :
  printlog line st = Done (Ok tt) (add_event (Print line) st).
Proof. reflexivity. Qed.

Lemma run_except_run e st :
  run_except e st
  = Done (Ok tt) (add_event (Print (SessionError (log st) e)) st).
Proof. reflexivity. Qed.

Lemma sock_recv_run who bufsize st :
  sock_recv env who bufsize st
  = Done (recv_answer env who bufsize (tick st))
         (add_event (Recv who (recv_answer env who bufsize (tick st))) st).
Proof.
  unfold sock_recv, recv_answer. destruct (bufsize <? 0)%Z; [done|].
  rewrite bind_run. simpl. by destruct (env_recv env (tick st) who).
Qed.

Lemma sock_setblocking_run who st :
  sock_setblocking env who st
  = Done (outcome_of (env_setblocking env (tick st) who))
         (add_event (Setblocking who (env_setblocking env (tick st) who)) st).
Proof. unfold sock_setblocking. rewrite bind_run. simpl. by destruct env_setblocking. Qed.

Lemma time_run st :
  time env st
  = Done (Ok (env_time env (tick st)))
         (add_event (Time (env_time env (tick st))) st).
Proof. reflexivity. Qed.

(** [close] tries both handles, whatever the first attempt does, and
    never raises. *)
Lemma close_run st : close env st = Done (Ok tt) (closed env st).
Proof.
  unfold close, closed, close_client_answer, close_target_answer.
  rewrite bind_run. unfold try_except at 1. unfold sock_close at 1.
  rewrite bind_run. simpl.
  destruct st as [cc tg lg la cb tb er tr]. simpl.
  destruct cc; simpl.
  - unfold try_except, sock_close. rewrite bind_run. simpl.
    destruct tg as [[|]|]; simpl; try done.
    unfold tick; simpl. rewrite length_app. simpl.
    rewrite Nat.add_1_r. by destruct (env_close env (S (length tr)) Target).
  - unfold tick; simpl.
    destruct (env_close env (length tr) Client) as [e|]; simpl;
      unfold try_except, sock_close; rewrite bind_run; simpl;
      (destruct tg as [[|]|]; simpl; try done);
      unfold tick; simpl; rewrite length_app; simpl;
      rewrite Nat.add_1_r; by destruct (env_close env (S (length tr)) Target).
Qed.

Lemma closed_trace st :
  trace (closed env st)
  = trace st ++ [Close Client (close_client_answer env st);
                 Close Target (close_target_answer env st)].
Proof. unfold closed. simpl. by rewrite <- app_assoc. Qed.

Lemma closed_client st : client_closed (closed env st) = true.
Proof. reflexivity. Qed.

Lemma closed_target st : target (closed env st) <> Some false.
Proof. unfold closed. simpl. by destruct (target st). Qed.

End Primitives.

(** The index of the next event. *)
Lemma tick_add_event ev st : tick (add_event ev st) = S (tick st).
Proof. unfold tick. simpl. rewrite length_app. simpl. lia. Qed.

Lemma tick_set_client_closed b st : tick (set_client_closed b st) = tick st.
Proof. reflexivity. Qed.

Lemma tick_set_target t st : tick (set_target t st) = tick st.
Proof. reflexivity. Qed.

Lemma tick_set_log l st : tick (set_log l st) = tick st.
Proof. reflexivity. Qed.

Lemma tick_set_last_activity t st : tick (set_last_activity t st) = tick st.
Proof. reflexivity. Qed.

Lemma tick_set_buffer who b st : tick (set_buffer who b st) = tick st.
Proof. by destruct who. Qed.

Lemma tick_set_error b st : tick (set_error b st) = tick st.
Proof. reflexivity. Qed.

(** Rewriting a computation applied to a state, statement by statement. *)
Create Rewrite HintDb io.
#[local] Hint Rewrite @bind_run @ret_run @raise_run @lift_run get_run
  modify_run emit_run printlog_run run_except_run raise_if_run sock_recv_run
  sock_setblocking_run time_run close_run
  tick_add_event tick_set_client_closed tick_set_target tick_set_log
  tick_set_last_activity tick_set_buffer tick_set_error : io.

Ltac io_steps := repeat (progress (autorewrite with io; cbv beta iota)).

(** ** Relations every step of a computation keeps *)

Section Stable.
Context (R : State -> State -> Prop) `{!PreOrder R}.

Lemma stable_ret {A} (a : A) : stable R (mret a).
Proof. intros st. reflexivity. Qed.

Lemma stable_raise {A} e : stable R (@raise A e).
Proof. intros st. reflexivity. Qed.

Lemma stable_lift {A} (r : result A) : stable R (lift r).
Proof. intros st. reflexivity. Qed.

Lemma stable_get : stable R get.
Proof. intros st. reflexivity. Qed.

Lemma stable_raise_if raised : stable R (raise_if raised).
Proof. intros st. rewrite raise_if_run. reflexivity. Qed.

Lemma stable_modify f : (forall st, R st (f st)) -> stable R (modify f).
Proof. intros Hf st. apply Hf. Qed.

Lemma stable_bind {A B} (m : IO A) (k : A -> IO B) :
  stable R m -> (forall a, stable R (k a)) -> stable R (m ≫= k).
Proof.
  intros Hm Hk st. rewrite bind_run. specialize (Hm st).
  destruct (m st) as [[a|e] st'|st']; simpl in *; try done.
  etrans; [exact Hm|apply Hk].
Qed.

Lemma stable_try_except {A} (m : IO A) (h : exn -> IO A) :
  stable R m -> (forall e, stable R (h e)) -> stable R (try_except m h).
Proof.
  intros Hm Hh st. unfold try_except. specialize (Hm st).
  destruct (m st) as [[a|e] st'|st']; simpl in *; try done.
  etrans; [exact Hm|apply Hh].
Qed.

Lemma stable_try_finally {A} (m : IO A) (f : IO unit) :
  stable R m -> stable R f -> stable R (try_finally m f).
Proof.
  intros Hm Hf st. unfold try_finally. specialize (Hm st).
  destruct (m st) as [r st'|st']; simpl in *; try done.
  specialize (Hf st').
  destruct (f st') as [[[]|e] st''|st'']; simpl in *; by etrans.
Qed.

Lemma stable_if {A} (b : bool) (m1 m2 : IO A) :
  stable R m1 -> stable R m2 -> stable R (if b then m1 else m2).
Proof. by destruct b. Qed.

End Stable.

#[local] Instance relay_step_preorder : PreOrder relay_step.
Proof.
  split.
  - by split.
  - intros st1 st2 st3 [He1 Ht1] [He2 Ht2]. split; [congruence|by etrans].
Qed.

#[local] Instance later_preorder : PreOrder later.
Proof.
  split.
  - by intros st; unfold later.
  - intros st1 st2 st3. unfold later. intros. by etrans.
Qed.

Lemma relay_step_later {A} (m : IO A) : stable relay_step m -> stable later m.
Proof. intros Hm st. by destruct (Hm st). Qed.

Lemma relay_step_event ev st : relay_step st (add_event ev st).
Proof. split; [done|]. simpl. by apply prefix_app_r. Qed.

Lemma later_event ev st : later st (add_event ev st).
Proof. unfold later. simpl. by apply prefix_app_r. Qed.

(** Goals [stable R m] for straight-line code. *)
Ltac stable_step :=
  first
    [ apply stable_ret; tc_solve
    | apply stable_raise; tc_solve
    | apply stable_lift; tc_solve
    | apply stable_get; tc_solve
    | apply stable_raise_if; tc_solve
    | apply stable_bind; [tc_solve| |intros ?]
    | apply stable_try_except; [tc_solve| |intros ?]
    | apply stable_try_finally; [tc_solve| |]
    | apply stable_if ].

Section StableRelay.
Context `{Runtime}.
Variable env : Env.
Variable config : Config.

Lemma stable_emit_relay ev : stable relay_step (emit ev).
Proof. intros st. apply relay_step_event. Qed.

Lemma stable_recv_into who nbytes :
  stable relay_step (sock_recv_into env who nbytes).
Proof.
  unfold sock_recv_into. stable_step.
  - intros st. rewrite sock_recv_run. apply relay_step_event.
  - stable_step; [|stable_step].
    apply stable_modify. intros st. by destruct who.
Qed.

Lemma stable_sendall who data : stable relay_step (sock_sendall env who data).
Proof.
  unfold sock_sendall. stable_step; [stable_step|].
  destruct (env_sendall env (tick a) who data) as [[k e]|].
  - stable_step; [apply stable_emit_relay|stable_step].
  - apply stable_emit_relay.
Qed.

Lemma stable_relay_one sock now :
  stable relay_step (relay_one env config sock now).
Proof.
  unfold relay_one. stable_step.
  - stable_step; [apply stable_recv_into|].
    case_bool_decide; [|stable_step].
    stable_step; [by apply stable_modify|].
    stable_step; [stable_step|].
    stable_step; [apply stable_sendall|stable_step].
  - destruct (is_BlockingIOError e); stable_step.
Qed.

Lemma stable_relay_for r now : stable relay_step (relay_for env config r now).
Proof.
  induction r as [|sock r IH]; simpl; [stable_step|].
  stable_step; [apply stable_relay_one|].
  by destruct a; [|stable_step].
Qed.

End StableRelay.

(** ** Computations that come back *)

Section Returns.
Context {A B : Type}.

Lemma returns_ret (a : A) : returns (mret a).
Proof. intros st. by eexists _, _. Qed.

Lemma returns_raise e : returns (@raise A e).
Proof. intros st. by eexists _, _. Qed.

Lemma returns_lift (r : result A) : returns (lift r).
Proof. intros st. by eexists _, _. Qed.

Lemma returns_bind (m : IO A) (k : A -> IO B) :
  returns m -> (forall a, returns (k a)) -> returns (m ≫= k).
Proof.
  intros Hm Hk st. rewrite bind_run.
  destruct (Hm st) as ([a|e] & st' & ->); [apply Hk|by eexists _, _].
Qed.

Lemma returns_try_except (m : IO A) (h : exn -> IO A) :
  returns m -> (forall e, returns (h e)) -> returns (try_except m h).
Proof.
  intros Hm Hh st. unfold try_except.
  destruct (Hm st) as ([a|e] & st' & ->); [by eexists _, _|apply Hh].
Qed.

Lemma returns_if (b : bool) (m1 m2 : IO A) :
  returns m1 -> returns m2 -> returns (if b then m1 else m2).
Proof. by destruct b. Qed.

(** A handler that never raises makes the whole statement succeed. *)
Lemma succeeds_try_except (m : IO A) (h : exn -> IO A) :
  returns m -> (forall e, succeeds (h e)) -> succeeds (try_except m h).
Proof.
  intros Hm Hh st. unfold try_except.
  destruct (Hm st) as ([a|e] & st' & ->); [by eexists _, _|apply Hh].
Qed.

End Returns.

Lemma returns_get : returns get.
Proof. intros st. by eexists _, _. Qed.

Lemma returns_modify f : returns (modify f).
Proof. intros st. by eexists _, _. Qed.

Lemma returns_raise_if raised : returns (raise_if raised).
Proof. intros st. rewrite raise_if_run. by eexists _, _. Qed.

(** Goals [returns m] for straight-line code. *)
Ltac returns_step :=
  first
    [ apply returns_ret
    | apply returns_raise
    | apply returns_lift
    | apply returns_get
    | apply returns_modify
    | apply returns_raise_if
    | apply returns_bind; [|intros ?]
    | apply returns_try_except; [|intros ?]
    | apply returns_if ].

Section ReturnsSession.
Context `{Runtime}.
Variable env : Env.
Variable config : Config.
Variable listening : Listening.

Lemma select_run timeout st :
  select env timeout st
  = Done (select_answer env timeout (tick st))
         (add_event (Select (select_answer env timeout (tick st))) st).
Proof.
  unfold select, select_answer. destruct (Qgtb 0 timeout); [done|].
  rewrite bind_run. simpl. by destruct (env_select env (tick st)).
Qed.

Lemma returns_recv who bufsize : returns (sock_recv env who bufsize).
Proof. intros st. rewrite sock_recv_run. by eexists _, _. Qed.

Lemma returns_recv_into who nbytes : returns (sock_recv_into env who nbytes).
Proof.
  unfold sock_recv_into. returns_step; [apply returns_recv|].
  repeat returns_step.
Qed.

Lemma returns_send who data : returns (sock_send env who data).
Proof.
  unfold sock_send. returns_step; [returns_step|].
  destruct (env_send env (tick a) who data); unfold emit; repeat returns_step.
Qed.

Lemma returns_sendall who data : returns (sock_sendall env who data).
Proof.
  unfold sock_sendall. returns_step; [returns_step|].
  destruct (env_sendall env (tick a) who data) as [[k e]|];
    unfold emit; repeat returns_step.
Qed.

Lemma returns_select timeout : returns (select env timeout).
Proof. intros st. rewrite select_run. by eexists _, _. Qed.

Lemma returns_connect_target h p : returns (connect_target env h p).
Proof. unfold connect_target, printlog, emit. repeat returns_step. Qed.

Lemma returns_relay_one sock now : returns (relay_one env config sock now).
Proof.
  unfold relay_one. returns_step.
  - returns_step; [apply returns_recv_into|].
    case_bool_decide; [|returns_step].
    do 2 (returns_step; [returns_step|]).
    returns_step; [apply returns_sendall|returns_step].
  - destruct (is_BlockingIOError e); returns_step.
Qed.

Lemma returns_relay_for r now : returns (relay_for env config r now).
Proof.
  induction r as [|sock r IH]; simpl; [returns_step|].
  returns_step; [apply returns_relay_one|]. destruct a; [done|returns_step].
Qed.

Lemma succeeds_close : succeeds (close env).
Proof. intros st. rewrite close_run. by eexists _, _. Qed.

(** A pass through the loop body neither raises nor stays. *)
Lemma succeeds_tunnel_iteration : succeeds (tunnel_iteration env config).
Proof.
  unfold tunnel_iteration. apply succeeds_try_except.
  - returns_step; [apply returns_select|].
    case_bool_decide; [unfold emit; repeat returns_step|].
    returns_step; [intros st; rewrite time_run; by eexists _, _|].
    returns_step; [returns_step|].
    destruct (Qgtb _ _); [returns_step|].
    returns_step.
    + case_bool_decide; [apply returns_relay_for|returns_step].
    + destruct (_ && _); returns_step.
  - intros e st. by eexists _, _.
Qed.

End ReturnsSession.

(** ** The relay loop *)

Section Loop.
Context `{Runtime}.
Variable env : Env.
Variable config : Config.

Lemma tunnel_while_S fuel st :
  tunnel_while env config (S fuel) st
  = match tunnel_iteration env config st with
    | Done (Ok Continue) st' => tunnel_while env config fuel st'
    | Done (Ok Break) st' => Done (Ok tt) st'
    | Done (Raise e) st' => Done (Raise e) st'
    | Pending st' => Pending st'
    end.
Proof.
  simpl. rewrite bind_run.
  by destruct (tunnel_iteration env config st) as [[[|]|e] st'|st'].
Qed.

(** The relay part of a pass: [if r: for sock in r: ...]. *)
Lemma stable_relay_part r now :
  stable relay_step
    (if bool_decide (r ≠ []) then relay_for env config r now else mret tt).
Proof. apply stable_if; [apply stable_relay_for|stable_step]. Qed.

(** A pass after which the loop goes on has set no [error] and has
    only added events. *)
Lemma tunnel_iteration_continue st st' :
  tunnel_iteration env config st = Done (Ok Continue) st' ->
  relay_step st st'.
Proof.
  unfold tunnel_iteration, try_except. rewrite bind_run, select_run.
  destruct (select_answer env (timeout config) (tick st)) as [ready|e];
    [|by intros [=]].
  case_bool_decide; [by intros [=]|].
  rewrite bind_run, time_run, bind_run. simpl.
  destruct (Qgtb _ _); [by intros [=]|].
  rewrite bind_run.
  pose proof (stable_relay_part
                (ready_list (r_client ready) (r_target ready))
                (env_time env (tick (add_event (Select (Ok ready)) st)))
                (add_event
                   (Time (env_time env (tick (add_event (Select (Ok ready)) st))))
                   (add_event (Select (Ok ready)) st))) as Hrelay.
  destruct (if bool_decide _ then _ else _) as [[[]|e] st3|st3];
    simpl in *; try by intros [=].
  destruct (_ && _); intros [= <-].
  etrans; [|exact Hrelay].
  etrans; apply relay_step_event.
Qed.

(** While the loop is running, [error] is what it was at the start. *)
Lemma tunnel_while_pending fuel : forall st st',
  tunnel_while env config fuel st = Pending st' -> relay_step st st'.
Proof.
  induction fuel as [|fuel IH]; intros st st'.
  - intros [= <-]. reflexivity.
  - rewrite tunnel_while_S.
    destruct (tunnel_iteration env config st) as [[[|]|e] st1|st1] eqn:Hit;
      try by intros [=].
    + intros Hrest. etrans; [by apply tunnel_iteration_continue|by apply IH].
    + destruct (succeeds_tunnel_iteration env config st) as (fl & st2 & Hs).
      congruence.
Qed.

(** A loop that is still running after [fuel] passes goes on from
    where it stands. *)
Lemma tunnel_while_resume fuel : forall st st' n,
  tunnel_while env config fuel st = Pending st' ->
  tunnel_while env config (fuel + n) st = tunnel_while env config n st'.
Proof.
  induction fuel as [|fuel IH]; intros st st' n.
  - by intros [= <-].
  - rewrite Nat.add_succ_l, !tunnel_while_S.
    destruct (tunnel_iteration env config st) as [[[|]|e] st1|st1] eqn:Hit;
      try by intros [=].
    + apply IH.
    + destruct (succeeds_tunnel_iteration env config st) as (fl & st2 & Hs).
      congruence.
Qed.

(** A loop that has ended needs no more passes. *)
Lemma tunnel_while_done fuel : forall st r st' n,
  tunnel_while env config fuel st = Done r st' ->
  tunnel_while env config (fuel + n) st = Done r st'.
Proof.
  induction fuel as [|fuel IH]; intros st r st' n; [by intros [=]|].
  rewrite Nat.add_succ_l, !tunnel_while_S.
  destruct (tunnel_iteration env config st) as [[[|]|e] st1|st1];
    try done. apply IH.
Qed.

(** What is left of [run] at the top of the loop, in terms of the loop. *)
Lemma resume_run fuel st :
  resume env config fuel st
  = match tunnel_while env config fuel st with
    | Done (Ok _) st1 =>
      Done (Ok tt)
        (closed env (if error st1 then closed env st1 else st1))
    | Done (Raise e) st1 =>
      Done (Ok tt)
        (closed env (add_event (Print (SessionError (log st1) e)) st1))
    | Pending st1 => Pending st1
    end.
Proof.
  unfold resume, try_finally, try_except. rewrite bind_run.
  destruct (tunnel_while env config fuel st) as [[[]|e] st1|st1]; try done.
  - unfold tunnel_exit. rewrite bind_run. unfold get. cbv beta iota.
    destruct (error st1); rewrite ?close_run; unfold mret, IO_ret;
      cbv beta iota; by rewrite ?close_run.
  - unfold run_except, printlog, emit. rewrite bind_run.
    unfold get, modify. cbv beta iota. by rewrite close_run.
Qed.

Lemma resume_pending fuel st st' n :
  resume env config fuel st = Pending st' ->
  tunnel_while env config fuel st = Pending st'
  /\ resume env config (fuel + n) st = resume env config n st'.
Proof.
  rewrite resume_run.
  destruct (tunnel_while env config fuel st) as [[[]|e] st1|st1] eqn:Hloop;
    try by intros [=].
  intros [= ->]. split; [done|].
  by rewrite !resume_run, (tunnel_while_resume _ _ _ _ Hloop).
Qed.

End Loop.

(** ** The session around the loop *)

Section Session.
Context `{Runtime}.
Variable env : Env.
Variable config : Config.
Variable listening : Listening.

Local Abbreviation wrapped body := (try_finally (try_except body run_except) (close env)).

(** How [run] ends when its [try] block raises [e] in state [st]. *)
Lemma wrapped_raise (body : IO unit) st e st' :
  body st = Done (Raise e) st' ->
  wrapped body st
  = Done (Ok tt) (closed env (add_event (Print (SessionError (log st') e)) st')).
Proof.
  intros Hbody. unfold try_finally, try_except. rewrite Hbody.
  unfold run_except, printlog, emit. rewrite bind_run.
  unfold get, modify. cbv beta iota. by rewrite close_run.
Qed.

(** How [run] ends when its [try] block returns in state [st]. *)
Lemma wrapped_return (body : IO unit) st st' :
  body st = Done (Ok tt) st' ->
  wrapped body st = Done (Ok tt) (closed env st').
Proof.
  intros Hbody. unfold try_finally, try_except. rewrite Hbody.
  by rewrite close_run.
Qed.

(** However the [try] block ends, [run] returns, from [close]. *)
Lemma wrapped_done (body : IO unit) st r st' :
  wrapped body st = Done r st' ->
  r = Ok tt /\ exists st1, st' = closed env st1.
Proof.
  destruct (body st) as [[[]|e] st1|st1] eqn:Hbody.
  - rewrite (wrapped_return _ _ _ Hbody). intros [= <- <-]. eauto.
  - rewrite (wrapped_raise _ _ _ _ Hbody). intros [= <- <-]. eauto.
  - unfold try_finally, try_except. by rewrite Hbody.
Qed.

(** The first statement of the [try] block either raises, which ends
    the session, or hands over to the statements after it. *)
Lemma wrapped_bind {A} (m : IO A) st :
  returns m ->
  (exists a st', m st = Done (Ok a) st'
     /\ forall k : A -> IO unit, wrapped (m ≫= k) st = wrapped (k a) st')
  \/ (exists e st', m st = Done (Raise e) st'
     /\ forall k : A -> IO unit,
          wrapped (m ≫= k) st
          = Done (Ok tt)
              (closed env (add_event (Print (SessionError (log st') e)) st'))).
Proof.
  intros Hm. destruct (Hm st) as ([a|e] & st' & Hrun).
  - left. exists a, st'. split; [done|]. intros k.
    unfold try_finally, try_except. by rewrite (bind_done_ok _ _ _ _ _ Hrun).
  - right. exists e, st'. split; [done|]. intros k.
    apply wrapped_raise. by apply bind_done_raise.
Qed.

(** [tunnel] up to its loop. *)
Lemma tunnel_run fuel st :
  (buffer config <? 0)%Z = false ->
  tunnel env config fuel st
  = match env_setblocking env (S (tick st)) Client with
    | Some e => Done (Raise e) (add_event (Setblocking Client (Some e))
        (set_error false
           (set_last_activity (env_time env (tick st))
              (add_event (Time (env_time env (tick st)))
                 (set_buffer Target (replicate (Z.to_nat (buffer config)) x00)
                    (set_buffer Client
                       (replicate (Z.to_nat (buffer config)) x00) st))))))
    | None =>
      match env_setblocking env (S (S (tick st))) Target with
      | Some e => Done (Raise e) (add_event (Setblocking Target (Some e))
         (add_event (Setblocking Client None)
          (set_error false
           (set_last_activity (env_time env (tick st))
              (add_event (Time (env_time env (tick st)))
                 (set_buffer Target (replicate (Z.to_nat (buffer config)) x00)
                    (set_buffer Client
                       (replicate (Z.to_nat (buffer config)) x00) st)))))))
      | None =>
        (tunnel_while env config fuel;; tunnel_exit env)
          (tunnel_start env config st)
      end
    end.
Proof.
  intros Hbuf. unfold tunnel. rewrite Hbuf. io_steps.
  destruct (env_setblocking env (S (tick st)) Client) as [e|];
    simpl outcome_of; io_steps; [done|].
  destruct (env_setblocking env (S (S (tick st))) Target) as [e|];
    simpl outcome_of; io_steps; done.
Qed.

(** [tunnel] up to its loop: the set-up raises, or the loop starts
    with [error] unset and both sockets in non-blocking mode. *)
Lemma tunnel_entry st :
  (exists e st', forall fuel, tunnel env config fuel st = Done (Raise e) st')
  \/ (exists st',
        (forall fuel, tunnel env config fuel st
                      = (tunnel_while env config fuel;; tunnel_exit env) st')
        /\ error st' = false
        /\ exists tr, trace st'
                      = tr ++ [Setblocking Client None; Setblocking Target None]).
Proof.
  destruct (buffer config <? 0)%Z eqn:Hbuf.
  { left. eexists _, _. intros fuel. unfold tunnel. rewrite Hbuf. by io_steps. }
  destruct (env_setblocking env (S (tick st)) Client) as [e|] eqn:Hb1.
  { left. eexists _, _. intros fuel. by rewrite tunnel_run, Hb1. }
  destruct (env_setblocking env (S (S (tick st))) Target) as [e|] eqn:Hb2.
  { left. eexists _, _. intros fuel. by rewrite tunnel_run, Hb1, Hb2. }
  right. exists (tunnel_start env config st).
  split; [intros fuel; by rewrite tunnel_run, Hb1, Hb2|].
  split; [done|]. eexists. unfold tunnel_start. simpl.
  rewrite <- app_assoc. reflexivity.
Qed.

(** A session either ends before the relay loop, however many passes
    it is allowed, or reaches the top of the loop with [error] unset
    and both sockets switched to non-blocking mode. *)
Lemma run_entry st0 :
  (exists st', forall fuel, run env config listening fuel st0 = Done (Ok tt) st')
  \/ (exists st2,
        (forall fuel, run env config listening fuel st0
                      = resume env config fuel st2)
        /\ error st2 = false
        /\ exists tr, trace st2
                      = tr ++ [Setblocking Client None; Setblocking Target None]).
Proof.
  destruct (wrapped_bind (sock_recv env Client (buffer config)) st0
              (returns_recv env Client (buffer config)))
    as [(data & st1 & Hrecv & Hk)|(e & st1 & _ & Hk)];
    [|left; eexists; intros fuel; unfold run; apply Hk].
  destruct (decide (data = [])) as [Hdata|Hdata].
  { left. eexists. intros fuel. unfold run. rewrite Hk.
    rewrite bool_decide_true by done. by apply wrapped_return. }
  destruct (resolve_target listening data) as [target_host target_port] eqn:Hres.
  destruct (wrapped_bind (connect_target env target_host target_port) st1
              (returns_connect_target env target_host target_port))
    as [([] & st2 & _ & Hk2)|(e & st2 & _ & Hk2)].
  2:{ left. eexists. intros fuel. unfold run. rewrite Hk.
      rewrite bool_decide_false, Hres by done. apply Hk2. }
  destruct (wrapped_bind (lift (encode (response config))) st2
              (returns_lift _))
    as [(hello & st3 & _ & Hk3)|(e & st3 & _ & Hk3)].
  2:{ left. eexists. intros fuel. unfold run. rewrite Hk.
      rewrite bool_decide_false, Hres by done. rewrite Hk2. apply Hk3. }
  destruct (wrapped_bind (sock_send env Client hello) st3
              (returns_send env Client hello))
    as [(sent & st4 & _ & Hk4)|(e & st4 & _ & Hk4)].
  2:{ left. eexists. intros fuel. unfold run. rewrite Hk.
      rewrite bool_decide_false, Hres by done. rewrite Hk2, Hk3. apply Hk4. }
  (* tunnel *)
  assert (forall fuel,
             run env config listening fuel st0
             = wrapped (tunnel env config fuel) st4) as Hprefix.
  { intros fuel. unfold run. rewrite Hk.
    rewrite bool_decide_false, Hres by done. by rewrite Hk2, Hk3, Hk4. }
  clear Hk Hk2 Hk3 Hk4.
  destruct (tunnel_entry st4) as [(e & st5 & Hraise)|(st5 & Hloop & Herr & Htr)].
  - left. eexists. intros fuel. rewrite Hprefix. by apply wrapped_raise.
  - right. exists st5. split; [|done]. intros fuel.
    rewrite Hprefix. unfold resume, try_finally, try_except.
    by rewrite Hloop.
Qed.

End Session.

(** ** One pass of the relay, statement by statement *)

Section Pass.
Context `{Runtime}.
Variable env : Env.
Variable config : Config.

Lemma get_set_buffer who b st : get_buffer who (set_buffer who b st) = b.
Proof. by destruct who. Qed.

Lemma get_buffer_set_last_activity who t st :
  get_buffer who (set_last_activity t st) = get_buffer who st.
Proof. by destruct who. Qed.

Lemma last_activity_add_event ev st :
  last_activity (add_event ev st) = last_activity st.
Proof. reflexivity. Qed.

Lemma get_buffer_add_event who ev st :
  get_buffer who (add_event ev st) = get_buffer who st.
Proof. by destruct who. Qed.

Lemma sock_sendall_run who data st :
  sock_sendall env who data st
  = match env_sendall env (tick st) who data with
    | None => Done (Ok tt) (add_event (Send who data data None) st)
    | Some (k, e) =>
      Done (Raise e) (add_event (Send who data (take k data) (Some e)) st)
    end.
Proof.
  unfold sock_sendall. io_steps.
  destruct (env_sendall env (tick st) who data) as [[k e]|]; by io_steps.
Qed.

(** The body of the [for] loop for one socket. *)
Lemma relay_one_run sock now st :
  relay_one env config sock now st
  = match recv_answer env sock (buffer config) (tick st) with
    | Raise e =>
      Done (if is_BlockingIOError e then Ok Continue else Raise e)
           (add_event (Recv sock (Raise e)) st)
    | Ok data =>
      let st1 :=
        set_buffer sock (data ++ drop (length data) (get_buffer sock st))
          (add_event (Recv sock (Ok data)) st) in
      if bool_decide (data = []) then Done (Ok Break) st1
      else
        match env_sendall env (S (tick st)) (other sock) data with
        | None =>
          Done (Ok Continue)
            (add_event (Send (other sock) data data None)
               (set_last_activity now st1))
        | Some (k, e) =>
          Done (if is_BlockingIOError e then Ok Continue else Raise e)
            (add_event (Send (other sock) data (take k data) (Some e))
               (set_last_activity now st1))
        end
    end.
Proof.
  unfold relay_one, try_except, sock_recv_into. io_steps.
  destruct (recv_answer env sock (buffer config) (tick st)) as [data|e];
    io_steps; [|by destruct (is_BlockingIOError e)].
  rewrite get_buffer_add_event.
  destruct data as [|b data].
  - rewrite bool_decide_false by (intros Hne; by apply Hne).
    by rewrite bool_decide_true.
  - rewrite bool_decide_true by done.
    rewrite (bool_decide_false (b :: data = [])) by done.
    io_steps. rewrite sock_sendall_run.
    rewrite get_buffer_set_last_activity, get_set_buffer, take_app_length.
    io_steps.
    destruct (env_sendall _ _ _ _) as [[k e]|]; [|done].
    by destruct (is_BlockingIOError e).
Qed.

(** A pass in which [select] reports no socket in error and the idle
    time is within the limit: the ready sockets are served; the loop
    goes on unless nothing was ready at all or a socket call raised. *)
Lemma tunnel_iteration_serve st ready :
  select_answer env (timeout config) (tick st) = Ok ready ->
  e_client ready = false -> e_target ready = false ->
  Qgtb (env_time env (S (tick st)) - last_activity st) (timeout config) = false ->
  let r := ready_list (r_client ready) (r_target ready) in
  let w := ready_list (w_client ready) (w_target ready) in
  let now := env_time env (S (tick st)) in
  tunnel_iteration env config st
  = match (if bool_decide (r ≠ []) then relay_for env config r now
           else mret tt)
            (add_event (Time now) (add_event (Select (Ok ready)) st)) with
    | Done (Ok _) st' =>
      Done (Ok (if bool_decide (r = []) && bool_decide (w = [])
                then Break else Continue)) st'
    | Done (Raise e) st' =>
      Done (Ok Break)
        (set_error true (add_event (Print (TunnelError (log st') e)) st'))
    | Pending st' => Pending st'
    end.
Proof.
  intros Hsel He1 He2 Hidle r w now.
  unfold tunnel_iteration, try_except. rewrite bind_run, select_run, Hsel.
  cbv beta iota. rewrite He1, He2.
  rewrite bool_decide_false by (intros Hne; by apply Hne).
  io_steps. rewrite !last_activity_add_event, Hidle.
  rewrite bind_run. subst r w now.
  destruct (if bool_decide (_ ≠ []) then _ else _) as [[[]|e] st'|st'];
    [|by io_steps|done].
  by destruct (_ && _).
Qed.

(** A pass in which [select] reports no socket in error and the idle
    time is over the limit ends the loop at once: nothing is read or
    written and [error] stays as it is. *)
Lemma tunnel_iteration_idle st ready :
  select_answer env (timeout config) (tick st) = Ok ready ->
  e_client ready = false -> e_target ready = false ->
  Qgtb (env_time env (S (tick st)) - last_activity st) (timeout config) = true ->
  tunnel_iteration env config st
  = Done (Ok Break)
      (add_event (Time (env_time env (S (tick st))))
         (add_event (Select (Ok ready)) st)).
Proof.
  intros Hsel He1 He2 Hidle.
  unfold tunnel_iteration, try_except. rewrite bind_run, select_run, Hsel.
  cbv beta iota. rewrite He1, He2.
  rewrite bool_decide_false by (intros Hne; by apply Hne).
  io_steps. by rewrite !last_activity_add_event, Hidle.
Qed.

End Pass.

(** ** Events are only ever added *)

Section Later.
Context `{Runtime}.
Variable env : Env.
Variable config : Config.
Variable listening : Listening.

Lemma later_emit ev : stable later (emit ev).
Proof. intros st. apply later_event. Qed.

Lemma later_modify f :
  (forall st, trace (f st) = trace st) -> stable later (modify f).
Proof. intros Hf st. unfold later. simpl. by rewrite Hf. Qed.

Lemma later_set_buffer who b : stable later (modify (set_buffer who b)).
Proof. apply later_modify. by destruct who. Qed.

Lemma later_recv who bufsize : stable later (sock_recv env who bufsize).
Proof. intros st. rewrite sock_recv_run. apply later_event. Qed.

Lemma later_send who data : stable later (sock_send env who data).
Proof.
  unfold sock_send. stable_step; [stable_step|].
  destruct (env_send env (tick a) who data);
    (stable_step; [apply later_emit|stable_step]).
Qed.

Lemma later_setblocking who : stable later (sock_setblocking env who).
Proof. intros st. rewrite sock_setblocking_run. apply later_event. Qed.

Lemma later_time : stable later (time env).
Proof. intros st. rewrite time_run. apply later_event. Qed.

Lemma later_select timeout : stable later (select env timeout).
Proof. intros st. rewrite select_run. apply later_event. Qed.

Lemma later_close : stable later (close env).
Proof.
  intros st. rewrite close_run. unfold later. simpl state_of.
  rewrite closed_trace. by apply prefix_app_r.
Qed.

Lemma later_run_except e : stable later (run_except e).
Proof. unfold run_except, printlog. stable_step; [stable_step|apply later_emit]. Qed.

Lemma later_tunnel_exit : stable later (tunnel_exit env).
Proof.
  unfold tunnel_exit. stable_step; [stable_step|].
  apply stable_if; [apply later_close|stable_step].
Qed.

Lemma later_tunnel_iteration : stable later (tunnel_iteration env config).
Proof.
  unfold tunnel_iteration. stable_step.
  - stable_step; [apply later_select|].
    case_bool_decide.
    { stable_step; [by apply later_modify|stable_step]. }
    stable_step; [apply later_time|].
    stable_step; [stable_step|].
    apply stable_if; [stable_step|].
    stable_step.
    + apply relay_step_later, stable_relay_part.
    + apply stable_if; stable_step.
  - stable_step; [stable_step|].
    stable_step; [apply later_emit|].
    stable_step; [by apply later_modify|stable_step].
Qed.

Lemma later_tunnel_while fuel : stable later (tunnel_while env config fuel).
Proof.
  induction fuel as [|fuel IH]; simpl; [by intros st|].
  stable_step; [apply later_tunnel_iteration|].
  by destruct a; [|stable_step].
Qed.

Lemma later_tunnel fuel : stable later (tunnel env config fuel).
Proof.
  unfold tunnel.
  stable_step; [apply stable_if; stable_step|].
  stable_step; [apply later_set_buffer|].
  stable_step; [apply later_set_buffer|].
  stable_step; [apply later_time|].
  stable_step; [by apply later_modify|].
  stable_step; [by apply later_modify|].
  stable_step; [apply later_setblocking|].
  stable_step; [apply later_setblocking|].
  stable_step; [apply later_tunnel_while|apply later_tunnel_exit].
Qed.

(** Everything [run] does after the dial, with its [except] and
    [finally], keeps the events there are. *)
Lemma later_after_dial fuel :
  stable later
    (try_finally
       (try_except
          (hello ← lift (encode (response config));
           sock_send env Client hello;;
           tunnel env config fuel)
          run_except)
       (close env)).
Proof.
  stable_step; [|apply later_close].
  stable_step; [|apply later_run_except].
  stable_step; [stable_step|].
  stable_step; [apply later_send|apply later_tunnel].
Qed.

End Later.

(* ===================================================================== *)
(** * Properties of a session                                             *)
(* ===================================================================== *)

Lemma Qgtb_true x y : Qgtb x y = true <-> (y < x)%Q.
Proof.
  unfold Qgtb. rewrite negb_true_iff. split.
  - intros Hle. apply Qnot_le_lt. intros Hxy.
    apply Qle_bool_iff in Hxy. congruence.
  - intros Hlt. destruct (Qle_bool x y) eqn:Hle; [|done].
    apply Qle_bool_iff in Hle. by apply Qlt_not_le in Hlt.
Qed.

Lemma Qgtb_false x y : Qgtb x y = false <-> (x <= y)%Q.
Proof.
  unfold Qgtb. rewrite negb_false_iff. apply Qle_bool_iff.
Qed.

Section Claims.
Context `{Runtime}.
Variable env : Env.
Variable config : Config.
Variable listening : Listening.

Local Abbreviation session := (run env config listening).

Lemma select_answer_ok t :
  (0 <= timeout config)%Q ->
  select_answer env (timeout config) t = env_select env t.
Proof.
  intros Hpos. unfold select_answer.
  by rewrite (proj2 (Qgtb_false 0 (timeout config)) Hpos).
Qed.

(** [run] ends by closing: whatever its [try] block did, the result
    is a return and the state is one [close] has left. *)
Lemma run_done fuel st0 r st' :
  session fuel st0 = Done r st' -> r = Ok tt /\ exists st1, st' = closed env st1.
Proof. apply wrapped_done. Qed.

(** A session that is still running after [k] passes stands in the
    loop, with [error] unset and the relay set up, and goes on from
    there. *)
Lemma run_pending k st0 st :
  session k st0 = Pending st ->
  error st = false
  /\ Setblocking Target None ∈ trace st
  /\ forall n, session (k + n) st0 = resume env config n st.
Proof.
  intros Hrun.
  destruct (run_entry env config listening st0)
    as [(st' & Hdone)|(st2 & Hresume & Herr & tr & Htr)].
  { rewrite Hdone in Hrun. discriminate. }
  rewrite Hresume in Hrun.
  destruct (resume_pending env config k st2 st 0 Hrun) as [Hloop _].
  destruct (tunnel_while_pending env config k st2 st Hloop) as [Herr' Hpre].
  split; [congruence|]. split.
  - destruct Hpre as [evs ->]. rewrite Htr.
    rewrite !elem_of_app. left. right. right. by left.
  - intros n. rewrite Hresume.
    by destruct (resume_pending env config k st2 st n Hrun).
Qed.

(** Let the session stand at the top of the relay loop after [k]
    passes.  If at the next pass no socket is reported in error and
    the clock shows that more than the idle timeout has gone by since
    [last_activity] -- the last time bytes were read -- then that pass
    ends the loop without reading or writing, [error] stays unset, the
    session returns, and both handles have been closed. *)
Lemma idle_pass_ends_session (k : nat) (st0 st : State) (ready : Ready) :
  session k st0 = Pending st ->
  (0 <= timeout config)%Q ->
  env_select env (tick st) = Ok ready ->
  e_client ready = false -> e_target ready = false ->
  (timeout config < env_time env (S (tick st)) - last_activity st)%Q ->
  forall n, exists st',
    session (k + S n) st0 = Done (Ok tt) st'
    /\ error st' = false
    /\ client_closed st' = true
    /\ target st' <> Some false
    /\ exists c t,
         trace st' = trace st ++ [Select (Ok ready);
                                  Time (env_time env (S (tick st)));
                                  Close Client c; Close Target t].
Proof.
  intros Hrun Hpos Hsel He1 He2 Hidle n.
  destruct (run_pending k st0 st Hrun) as (Herr & _ & Hgo).
  rewrite <- (select_answer_ok _ Hpos) in Hsel.
  apply Qgtb_true in Hidle.
  pose proof (tunnel_iteration_idle env config st ready Hsel He1 He2 Hidle)
    as Hpass.
  eexists. split.
  { rewrite Hgo, resume_run, tunnel_while_S, Hpass. simpl error.
    rewrite Herr. reflexivity. }
  split; [done|]. split; [done|]. split; [apply closed_target|].
  eexists _, _. rewrite closed_trace. simpl trace.
  by rewrite <- !app_assoc.
Qed.

Lemma healthy_mono a b : healthy env a -> (a <= b)%nat -> healthy env b.
Proof. intros Hh Hab t Ht. apply Hh. lia. Qed.

Lemma quiet_mono a b : quiet env config a -> (a <= b)%nat -> quiet env config b.
Proof. intros Hq Hab t who Ht. apply Hq. lia. Qed.

(** While no read delivers a byte, serving the ready sockets writes
    nothing and leaves [last_activity] and [error] alone. *)
Lemma relay_for_quiet r now : forall st,
  quiet env config (tick st) ->
  exists st' evs,
    relay_for env config r now st = Done (Ok tt) st'
    /\ trace st' = trace st ++ evs
    /\ Forall (fun ev => moves_bytes ev = false) evs
    /\ last_activity st' = last_activity st
    /\ error st' = error st.
Proof.
  induction r as [|sock r IH]; intros st Hquiet.
  - exists st, []. by rewrite app_nil_r.
  - cbn [relay_for]. rewrite bind_run, relay_one_run.
    destruct (Hquiet (tick st) sock (le_n _)) as [-> | ->].
    + cbv zeta. rewrite bool_decide_true by done.
      eexists _, [Recv sock (Ok [])]. split; [reflexivity|].
      split; [by destruct sock|]. split; [by repeat constructor|].
      split; by destruct sock.
    + cbn [is_BlockingIOError].
      destruct (IH (add_event (Recv sock (Raise BlockingIOError)) st))
        as (st' & evs & Hrun & Htrace & Hevs & Hlast & Herr).
      { apply (quiet_mono (tick st)); [done|]. rewrite tick_add_event. lia. }
      exists st', (Recv sock (Raise BlockingIOError) :: evs).
      split; [done|]. split; [by rewrite Htrace; simpl; rewrite <- app_assoc|].
      split; [by constructor|]. done.
Qed.

(** An idle relay ends: if from some pass on no socket is reported in
    error and no read delivers a byte, the loop ends, without error, by
    the pass at which the clock shows more than the idle timeout since
    [last_activity] -- or before, if [select] finds nothing ready. *)
Lemma tunnel_while_idle n : forall st,
  (0 <= timeout config)%Q ->
  healthy env (tick st) ->
  quiet env config (tick st) ->
  (forall t, (tick st + n <= t)%nat ->
             (timeout config < env_time env t - last_activity st)%Q) ->
  exists fuel st' evs,
    tunnel_while env config fuel st = Done (Ok tt) st'
    /\ trace st' = trace st ++ evs
    /\ Forall (fun ev => moves_bytes ev = false) evs
    /\ error st' = error st.
Proof.
  induction n as [|n IH]; intros st Hpos Hhealthy Hquiet Hdeadline;
    destruct (Hhealthy (tick st) (le_n _)) as (ready & Hsel & He1 & He2);
    rewrite <- (select_answer_ok _ Hpos) in Hsel;
    destruct (Qgtb (env_time env (S (tick st)) - last_activity st)
                   (timeout config)) eqn:Hidle.
  1,3: exists 1%nat; eexists _, [_; _];
       rewrite tunnel_while_S,
         (tunnel_iteration_idle env config st ready Hsel He1 He2 Hidle);
       split; [reflexivity|]; split; [by simpl; rewrite <- app_assoc|];
       split; [by repeat constructor|done].
  - exfalso. apply Qgtb_false in Hidle.
    apply (Qlt_not_le _ _ (Hdeadline (S (tick st)) ltac:(lia))). done.
  - pose proof (tunnel_iteration_serve env config st ready Hsel He1 He2 Hidle)
      as Hpass. cbv zeta in Hpass.
    set (st2 := add_event (Time (env_time env (S (tick st))))
                  (add_event (Select (Ok ready)) st)) in *.
    assert (tick st2 = S (S (tick st))) as Htick2
      by (subst st2; by rewrite !tick_add_event).
    assert (exists st3 evs,
               (if bool_decide (ready_list (r_client ready) (r_target ready) ≠ [])
                then relay_for env config
                       (ready_list (r_client ready) (r_target ready))
                       (env_time env (S (tick st)))
                else mret tt) st2 = Done (Ok tt) st3
               /\ trace st3 = trace st2 ++ evs
               /\ Forall (fun ev => moves_bytes ev = false) evs
               /\ last_activity st3 = last_activity st2
               /\ error st3 = error st2)
      as (st3 & evs & Hrelay & Htrace & Hevs & Hlast & Herr).
    { case_bool_decide.
      - apply relay_for_quiet. apply (quiet_mono (tick st)); [done|lia].
      - exists st2, []. by rewrite app_nil_r. }
    rewrite Hrelay in Hpass.
    assert (trace st3 = trace st ++ Select (Ok ready)
                          :: Time (env_time env (S (tick st))) :: evs)
      as Htrace3.
    { rewrite Htrace. subst st2. simpl. by rewrite <- !app_assoc. }
    destruct (bool_decide (ready_list (r_client ready) (r_target ready) = [])
              && bool_decide (ready_list (w_client ready) (w_target ready) = [])).
    + exists 1%nat, st3, (Select (Ok ready)
                          :: Time (env_time env (S (tick st))) :: evs).
      rewrite tunnel_while_S, Hpass.
      split; [done|]. split; [done|]. split; [by repeat constructor|].
      by rewrite Herr.
    + assert (tick st <= tick st3)%nat as Hlater.
      { unfold tick. rewrite Htrace3, length_app. lia. }
      assert (tick st + 2 <= tick st3)%nat as Hlater2.
      { unfold tick. rewrite Htrace3, length_app. simpl. lia. }
      destruct (IH st3 Hpos) as (fuel & st' & evs' & Hloop & Htrace' & Hevs' & Herr').
      { by apply (healthy_mono (tick st)). }
      { by apply (quiet_mono (tick st)). }
      { intros t Ht. rewrite Hlast. subst st2. simpl last_activity.
        apply Hdeadline. lia. }
      exists (S fuel), st',
        ((Select (Ok ready) :: Time (env_time env (S (tick st))) :: evs) ++ evs').
      rewrite tunnel_while_S, Hpass.
      split; [done|]. split; [by rewrite Htrace', Htrace3, <- app_assoc|].
      split; [apply Forall_app; split; [by repeat constructor|done]|].
      by rewrite Herr', Herr.
Qed.

(** C4.  Let the session stand at the top of the relay loop after [k]
    passes, and let nothing flow from then on: no socket is reported in
    error, no read delivers a byte, and by the [n]-th event from now the
    clock shows more than the idle timeout since [last_activity].  Then
    the session ends, whatever number of passes beyond some bound it is
    allowed: no byte has been read or written since, [error] is unset
    (the loop was left by a plain [break], not as an error), [run]
    returns, and both handles have been closed. *)
Theorem idle_timeout_ends_session (k : nat) (st0 st : State) (n : nat) :
  session k st0 = Pending st ->
  (0 <= timeout config)%Q ->
  healthy env (tick st) ->
  quiet env config (tick st) ->
  (forall t, (tick st + n <= t)%nat ->
             (timeout config < env_time env t - last_activity st)%Q) ->
  exists fuel st' evs c t,
    (forall more, session (fuel + more) st0 = Done (Ok tt) st')
    /\ trace st' = trace st ++ evs ++ [Close Client c; Close Target t]
    /\ Forall (fun ev => moves_bytes ev = false) evs
    /\ error st' = false
    /\ client_closed st' = true
    /\ target st' <> Some false.
Proof.
  intros Hrun Hpos Hhealthy Hquiet Hdeadline.
  destruct (run_pending k st0 st Hrun) as (Herr & _ & Hgo).
  destruct (tunnel_while_idle n st Hpos Hhealthy Hquiet Hdeadline)
    as (fuel & st1 & evs & Hloop & Htrace & Hevs & Herr1).
  rewrite Herr in Herr1.
  exists (k + fuel)%nat, (closed env st1), evs. eexists _, _.
  split; [|split; [|split; [done|split; [done|split;
    [done|apply closed_target]]]]].
  - intros more. rewrite <- Nat.add_assoc, Hgo, resume_run.
    rewrite (tunnel_while_done env config fuel st _ _ more Hloop).
    by rewrite Herr1.
  - by rewrite closed_trace, Htrace, <- app_assoc.
Qed.

(** C1 (what the code does).  Let the session stand at the top of the
    relay loop after [k] passes.  If at the next pass the first
    read-ready socket delivers zero bytes, the [break] leaves the
    [for] loop only: the relay is still running after that pass, with
    [last_activity] and [error] as they were. *)
Theorem zero_read_keeps_relay_running (k : nat) (st0 st : State)
    (ready : Ready) (sock : endpoint) (rest : list endpoint) :
  session k st0 = Pending st ->
  (0 <= timeout config)%Q ->
  env_select env (tick st) = Ok ready ->
  e_client ready = false -> e_target ready = false ->
  (env_time env (S (tick st)) - last_activity st <= timeout config)%Q ->
  ready_list (r_client ready) (r_target ready) = sock :: rest ->
  recv_answer env sock (buffer config) (S (S (tick st))) = Ok [] ->
  exists st',
    session (S k) st0 = Pending st'
    /\ trace st' = trace st ++ [Select (Ok ready);
                                Time (env_time env (S (tick st)));
                                Recv sock (Ok [])]
    /\ last_activity st' = last_activity st
    /\ error st' = false.
Proof.
  intros Hrun Hpos Hsel He1 He2 Hidle Hr Hrecv.
  destruct (run_pending k st0 st Hrun) as (Herr & _ & Hgo).
  rewrite <- (select_answer_ok _ Hpos) in Hsel.
  apply Qgtb_false in Hidle.
  pose proof (tunnel_iteration_serve env config st ready Hsel He1 He2 Hidle)
    as Hpass. cbv zeta in Hpass. rewrite Hr in Hpass.
  rewrite bool_decide_true in Hpass by done.
  rewrite (bool_decide_false (sock :: rest = [])) in Hpass by done.
  cbn [relay_for] in Hpass. rewrite bind_run, relay_one_run in Hpass.
  rewrite !tick_add_event, Hrecv in Hpass. cbv zeta in Hpass.
  rewrite bool_decide_true in Hpass by done. cbv beta iota in Hpass.
  rewrite ret_run in Hpass. simpl andb in Hpass. cbv iota in Hpass.
  eexists. split.
  { rewrite <- Nat.add_1_r, Hgo, resume_run, tunnel_while_S, Hpass.
    reflexivity. }
  split; [|split].
  - destruct sock; simpl; by rewrite <- !app_assoc.
  - by destruct sock.
  - by destruct sock.
Qed.

(** C5 (what the code does).  Let the session stand at the top of the
    relay loop after [k] passes.  If at the next pass one socket is
    read-ready and delivers a chunk, and [sendall] to the other socket
    raises [BlockingIOError] after [n] bytes, the [except
    BlockingIOError: continue] takes it for a read that would block:
    only the first [n] bytes of the chunk have gone out, nothing is
    reported, and the relay is still running and will read again. *)
Theorem blocked_forward_drops_bytes (k : nat) (st0 st : State)
    (ready : Ready) (sock : endpoint) (data : bytes) (n : nat) :
  session k st0 = Pending st ->
  (0 <= timeout config)%Q ->
  env_select env (tick st) = Ok ready ->
  e_client ready = false -> e_target ready = false ->
  (env_time env (S (tick st)) - last_activity st <= timeout config)%Q ->
  ready_list (r_client ready) (r_target ready) = [sock] ->
  recv_answer env sock (buffer config) (S (S (tick st))) = Ok data ->
  data <> [] ->
  env_sendall env (S (S (S (tick st)))) (other sock) data
  = Some (n, BlockingIOError) ->
  exists st',
    session (S k) st0 = Pending st'
    /\ trace st' = trace st ++ [Select (Ok ready);
                                Time (env_time env (S (tick st)));
                                Recv sock (Ok data);
                                Send (other sock) data (take n data)
                                     (Some BlockingIOError)]
    /\ error st' = false.
Proof.
  intros Hrun Hpos Hsel He1 He2 Hidle Hr Hrecv Hdata Hsend.
  destruct (run_pending k st0 st Hrun) as (Herr & _ & Hgo).
  rewrite <- (select_answer_ok _ Hpos) in Hsel.
  apply Qgtb_false in Hidle.
  pose proof (tunnel_iteration_serve env config st ready Hsel He1 He2 Hidle)
    as Hpass. cbv zeta in Hpass. rewrite Hr in Hpass.
  rewrite bool_decide_true in Hpass by done.
  rewrite (bool_decide_false ([sock] = [])) in Hpass by done.
  cbn [relay_for] in Hpass. rewrite bind_run, relay_one_run in Hpass.
  rewrite !tick_add_event, Hrecv in Hpass. cbv zeta in Hpass.
  rewrite bool_decide_false, Hsend in Hpass by done.
  cbn [is_BlockingIOError] in Hpass. cbv beta iota in Hpass.
  rewrite ret_run in Hpass. simpl andb in Hpass. cbv iota in Hpass.
  eexists. split.
  { rewrite <- Nat.add_1_r, Hgo, resume_run, tunnel_while_S, Hpass.
    reflexivity. }
  split.
  - destruct sock; simpl; by rewrite <- !app_assoc.
  - by destruct sock.
Qed.

(** Forwarding when the write goes through: the chunk a socket
    delivers is handed to [sendall] on the other socket as it is, and
    goes out whole, before anything else is read. *)
Lemma relay_one_forwards sock now st data :
  recv_answer env sock (buffer config) (tick st) = Ok data ->
  data <> [] ->
  env_sendall env (S (tick st)) (other sock) data = None ->
  exists st',
    relay_one env config sock now st = Done (Ok Continue) st'
    /\ trace st' = trace st ++ [Recv sock (Ok data);
                                Send (other sock) data data None]
    /\ last_activity st' = now.
Proof.
  intros Hrecv Hdata Hsend. rewrite relay_one_run, Hrecv. cbv zeta.
  rewrite bool_decide_false, Hsend by done.
  eexists. split; [done|].
  split; destruct sock; simpl; by rewrite <- ?app_assoc.
Qed.

End Claims.

Section Paths.
Context `{Runtime}.
Variable env : Env.
Variable config : Config.
Variable listening : Listening.

Local Abbreviation session := (run env config listening).

(** [connect_target], statement by statement. *)
Lemma connect_target_run h p st :
  connect_target env h p st
  = match env_socket env (tick st) with
    | Some e => Done (Raise e) (add_event (Socket (Some e)) st)
    | None =>
      let st1 := set_target (Some false) (add_event (Socket None) st) in
      match env_connect env (S (tick st)) h p with
      | Some e => Done (Raise e) (add_event (Connect h p (Some e)) st1)
      | None =>
        let st2 :=
          set_log (log st ++ lit " -> " ++ h ++ lit ":" ++ str_of_int p)
            (add_event (Connect h p None) st1) in
        Done (Ok tt) (add_event (Print (Connected (log st2))) st2)
      end
    end.
Proof.
  unfold connect_target. io_steps.
  destruct (env_socket env (tick st)) as [e|]; simpl outcome_of; io_steps;
    [done|].
  destruct (env_connect env (S (tick st)) h p) as [e|]; simpl outcome_of;
    by io_steps.
Qed.

(** C6.  Whatever way a session ends, [run] returns without an
    exception, its last two events are the attempt to close the client
    and the attempt to close the target -- the second made whatever the
    first one did -- and no handle is left open.  A session that has
    not ended is in the relay loop. *)
Theorem run_closes_both_handles (fuel : nat) (st0 : State) :
  match session fuel st0 with
  | Done r st' =>
    r = Ok tt
    /\ client_closed st' = true
    /\ target st' <> Some false
    /\ exists st1,
         trace st' = trace st1 ++ [Close Client (close_client_answer env st1);
                                   Close Target (close_target_answer env st1)]
  | Pending st' => Setblocking Target None ∈ trace st'
  end.
Proof.
  destruct (session fuel st0) as [r st'|st'] eqn:Hrun.
  - destruct (run_done env config listening fuel st0 r st' Hrun)
      as [-> [st1 ->]].
    split; [done|]. split; [done|]. split; [apply closed_target|].
    exists st1. apply closed_trace.
  - by destruct (run_pending env config listening fuel st0 st' Hrun)
      as (_ & Hin & _).
Qed.

(** [run] up to the dial: how the session ends when the first read or
    the dial fails, and what is left to do when they succeed. *)
Lemma run_dial fuel st0 :
  session fuel st0
  = match recv_answer env Client (buffer config) (tick st0) with
    | Raise e =>
      Done (Ok tt)
        (closed env (add_event (Print (SessionError (log st0) e))
                       (add_event (Recv Client (Raise e)) st0)))
    | Ok data =>
      let st1 := add_event (Recv Client (Ok data)) st0 in
      if bool_decide (data = []) then Done (Ok tt) (closed env st1)
      else
        let h := (resolve_target listening data).1 in
        let p := (resolve_target listening data).2 in
        match env_socket env (S (tick st0)) with
        | Some e =>
          Done (Ok tt)
            (closed env (add_event (Print (SessionError (log st0) e))
                           (add_event (Socket (Some e)) st1)))
        | None =>
          let st2 := set_target (Some false) (add_event (Socket None) st1) in
          match env_connect env (S (S (tick st0))) h p with
          | Some e =>
            Done (Ok tt)
              (closed env (add_event (Print (SessionError (log st0) e))
                             (add_event (Connect h p (Some e)) st2)))
          | None =>
            let st3 :=
              set_log (log st0 ++ lit " -> " ++ h ++ lit ":" ++ str_of_int p)
                (add_event (Connect h p None) st2) in
            try_finally
              (try_except
                 (hello ← lift (encode (response config));
                  sock_send env Client hello;;
                  tunnel env config fuel)
                 run_except)
              (close env)
              (add_event (Print (Connected (log st3))) st3)
          end
        end
    end.
Proof.
  unfold run, try_finally, try_except. rewrite bind_run, sock_recv_run.
  destruct (recv_answer env Client (buffer config) (tick st0)) as [data|e];
    cbv beta iota zeta; [|by io_steps].
  destruct (decide (data = [])) as [Hdata|Hdata].
  { rewrite !bool_decide_true by done. by io_steps. }
  rewrite !bool_decide_false by done.
  destruct (resolve_target listening data) as [h p]. cbn [fst snd].
  rewrite bind_run, connect_target_run, tick_add_event.
  destruct (env_socket env (S (tick st0))) as [e|]; [by io_steps|].
  cbv zeta.
  destruct (env_connect env (S (S (tick st0))) h p) as [e|]; [by io_steps|].
  reflexivity.
Qed.

(** C8.  A session whose first read delivers no byte returns at once:
    it creates no socket, dials nothing, writes nothing to the client,
    reports no error; it only closes. *)
Theorem empty_first_read_ends_session (fuel : nat) (addr : str * Z) :
  recv_answer env Client (buffer config) 0 = Ok [] ->
  exists st',
    session fuel (Handler_init addr) = Done (Ok tt) st'
    /\ trace st' = [Recv Client (Ok []);
                    Close Client (env_close env 1 Client);
                    Close Target (Some AttributeError)].
Proof.
  intros Hrecv. eexists. split.
  - rewrite run_dial. change (tick (Handler_init addr)) with 0%nat.
    rewrite Hrecv. cbv zeta. by rewrite bool_decide_true.
  - reflexivity.
Qed.

(** C9.  In every session,
    - a write to the client comes only after the dial of the resolved
      target has succeeded: the first event is the first read, the
      third is the successful [connect] to the target resolved from
      what was read, and the write comes later;
    - a failed dial ends the session: the error is reported, both
      handles are closed, nothing has been written to the client and
      no second dial has been made. *)
Theorem handshake_only_after_dial (fuel : nat) (addr : str * Z) :
  (forall i d w r,
      trace (state_of (session fuel (Handler_init addr))) !! i
      = Some (Send Client d w r) ->
      exists data,
        recv_answer env Client (buffer config) 0 = Ok data
        /\ trace (state_of (session fuel (Handler_init addr))) !! 2%nat
           = Some (Connect (resolve_target listening data).1
                           (resolve_target listening data).2 None)
        /\ (2 < i)%nat)
  /\ (forall data e,
      recv_answer env Client (buffer config) 0 = Ok data ->
      data <> [] ->
      env_socket env 1 = None ->
      env_connect env 2 (resolve_target listening data).1
                        (resolve_target listening data).2 = Some e ->
      exists st',
        session fuel (Handler_init addr) = Done (Ok tt) st'
        /\ trace st'
           = [Recv Client (Ok data);
              Socket None;
              Connect (resolve_target listening data).1
                      (resolve_target listening data).2 (Some e);
              Print (SessionError (log (Handler_init addr)) e);
              Close Client (env_close env 4 Client);
              Close Target (env_close env 5 Target)]).
Proof.
  split.
  - intros i d w r. rewrite run_dial.
    change (tick (Handler_init addr)) with 0%nat.
    destruct (recv_answer env Client (buffer config) 0) as [data|e] eqn:Hrecv.
    2:{ intros Hi. exfalso. revert Hi. cbn [state_of].
        rewrite closed_trace. cbn [trace add_event Handler_init app].
        do 4 (destruct i as [|i]; [discriminate|]). done. }
    cbv zeta. case_bool_decide as Hdata.
    { intros Hi. exfalso. revert Hi. cbn [state_of].
      rewrite closed_trace. cbn [trace add_event Handler_init app].
      do 3 (destruct i as [|i]; [discriminate|]). done. }
    destruct (env_socket env 1) as [e|].
    { intros Hi. exfalso. revert Hi. cbn [state_of].
      rewrite closed_trace. cbn [trace add_event Handler_init app].
      do 5 (destruct i as [|i]; [discriminate|]). done. }
    destruct (env_connect env 2 _ _) as [e|].
    { intros Hi. exfalso. revert Hi. cbn [state_of].
      rewrite closed_trace.
      cbn [trace add_event set_target Handler_init app].
      do 6 (destruct i as [|i]; [discriminate|]). done. }
    match goal with
    | |- context [try_finally ?m ?f ?s] =>
      destruct (later_after_dial env config fuel s) as [evs Hevs]
    end.
    rewrite Hevs. cbn [trace add_event set_target set_log Handler_init app].
    intros Hi. exists data. split; [done|]. split; [done|].
    do 3 (destruct i as [|i]; [discriminate|]). lia.
  - intros data e Hrecv Hdata Hsock Hconn. eexists. split.
    + rewrite run_dial. change (tick (Handler_init addr)) with 0%nat.
      rewrite Hrecv. cbv zeta. rewrite bool_decide_false by done.
      by rewrite Hsock, Hconn.
    + reflexivity.
Qed.

(** C7.  Whatever goes wrong inside the [try] of [parse_headers] -- the
    chunk is not UTF-8, the routing line has no ": " to split at, its
    port is not a number -- the function returns no directive, and a
    session that has read this chunk does not end there: its next two
    events are the creation of the socket and the dial of the binding's
    default target. *)
Theorem extraction_failure_falls_back (fuel : nat) (addr : str * Z)
    (data : bytes) (e : exn) :
  parse_headers_try listening data = Raise e ->
  parse_headers listening data = None
  /\ resolve_target listening data = (host listening, port listening)
  /\ (recv_answer env Client (buffer config) 0 = Ok data ->
      data <> [] ->
      env_socket env 1 = None ->
      exists rest,
        trace (state_of (session fuel (Handler_init addr)))
        = [Recv Client (Ok data);
           Socket None;
           Connect (host listening) (port listening)
                   (env_connect env 2 (host listening) (port listening))]
          ++ rest).
Proof.
  intros Hraise.
  destruct (parse_failure_no_directive listening data e Hraise)
    as [Hnone Hdefault].
  split; [done|]. split; [done|].
  intros Hrecv Hdata Hsock. rewrite run_dial.
  change (tick (Handler_init addr)) with 0%nat.
  rewrite Hrecv. cbv zeta. rewrite bool_decide_false by done.
  rewrite Hsock, Hdefault. cbn [fst snd].
  destruct (env_connect env 2 (host listening) (port listening)) as [e'|].
  - eexists. cbn [state_of]. rewrite closed_trace.
    cbn [trace add_event set_target Handler_init app]. reflexivity.
  - match goal with
    | |- context [try_finally ?m ?f ?s] =>
      destruct (later_after_dial env config fuel s) as [evs Hevs]
    end.
    rewrite Hevs. cbn [trace add_event set_target set_log Handler_init app].
    by eexists.
Qed.

End Paths.

(* ===================================================================== *)
(** * The theorems on sample inputs                                       *)
(* ===================================================================== *)




(** A chunk that is not UTF-8: the session dials the default target. *)
Lemma extraction_failure_falls_back_witness :
  parse_headers_try (H := ascii_runtime) sample_listening chunk_not_utf8
  = Raise UnicodeDecodeError
  /\ exists rest,
       trace (state_of (run (H := ascii_runtime) env_binary Config_init
                            sample_listening 0 (Handler_init sample_addr)))
       = [Recv Client (Ok chunk_not_utf8);
          Socket None;
          Connect (lit "127.0.0.1") 22 None] ++ rest.
Proof.
  split; [reflexivity|].
  destruct (extraction_failure_falls_back (H := ascii_runtime) env_binary
              Config_init sample_listening 0 sample_addr chunk_not_utf8
              UnicodeDecodeError eq_refl) as (_ & _ & Hsession).
  apply Hsession; [reflexivity|discriminate|reflexivity].
Defined.

(** A client that sends nothing: one read, two closes. *)
Lemma empty_first_read_ends_session_witness :
  recv_answer env_silent Client (buffer sample_config) 0 = Ok []
  /\ exists st',
       run (H := ascii_runtime) env_silent sample_config sample_listening 0
           (Handler_init sample_addr) = Done (Ok tt) st'
       /\ trace st' = [Recv Client (Ok []);
                       Close Client None;
                       Close Target (Some AttributeError)].
Proof.
  split; [reflexivity|].
  apply (empty_first_read_ends_session (H := ascii_runtime) env_silent
           sample_config sample_listening 0 sample_addr).
  reflexivity.
Defined.

(** A target that refuses the connection: no write to the client. *)
Lemma handshake_only_after_dial_witness :
  exists st',
    run (H := ascii_runtime) env_refused Config_init sample_listening 0
        (Handler_init sample_addr) = Done (Ok tt) st'
    /\ trace st'
       = [Recv Client (Ok chunk_host_port);
          Socket None;
          Connect (lit "example.org") 2222 (Some OSError);
          Print (SessionError (lit "10.0.0.9:40000") OSError);
          Close Client None;
          Close Target None].
Proof.
  destruct (handshake_only_after_dial (H := ascii_runtime) env_refused
              Config_init sample_listening 0 sample_addr) as [_ Hfail].
  apply (Hfail chunk_host_port OSError);
    [reflexivity|discriminate|reflexivity|reflexivity].
Defined.

(** Nobody sends and 100 seconds go by between two events: the session
    ends without error, nothing read or written, both handles closed. *)
Lemma idle_timeout_ends_session_witness :
  let st0 := Handler_init sample_addr in
  let session := run (H := ascii_runtime) env_idle sample_config
                     sample_listening in
  session 0%nat st0 = Pending (state_of (session 0%nat st0))
  /\ exists fuel st' evs c t,
       (forall more, session (fuel + more)%nat st0 = Done (Ok tt) st')
       /\ trace st' = trace (state_of (session 0%nat st0))
                      ++ evs ++ [Close Client c; Close Target t]
       /\ Forall (fun ev => moves_bytes ev = false) evs
       /\ error st' = false
       /\ client_closed st' = true
       /\ target st' <> Some false.
Proof.
  intros st0 session.
  split; [by vm_compute|].
  apply (idle_timeout_ends_session (H := ascii_runtime) env_idle sample_config
           sample_listening 0 st0 (state_of (session 0%nat st0)) 1).
  - by vm_compute.
  - by vm_compute.
  - intros t _. eexists. repeat split; reflexivity.
  - intros t who Ht. right. destruct t as [|t]; [|reflexivity].
    exfalso. vm_compute in Ht. lia.
  - intros t Ht. vm_compute in Ht.
    set (since := last_activity (state_of (session 0%nat st0))).
    vm_compute in since. subst since.
    unfold Qlt. simpl. lia.
Defined.

(** The same session, pass by pass: the first pass finds the idle time
    over the limit and ends the loop. *)
Example idle_pass_ends_session_example :
  let st0 := Handler_init sample_addr in
  let session := run (H := ascii_runtime) env_idle sample_config
                     sample_listening in
  let ready := mkReady false false true true false false in
  exists st',
    session 1%nat st0 = Done (Ok tt) st'
    /\ error st' = false
    /\ client_closed st' = true
    /\ target st' <> Some false
    /\ exists c t,
         trace st' = trace (state_of (session 0%nat st0))
                     ++ [Select (Ok ready); Time (seconds 900);
                         Close Client c; Close Target t].
Proof.
  intros st0 session ready.
  apply (idle_pass_ends_session (H := ascii_runtime) env_idle sample_config
           sample_listening 0 st0 (state_of (session 0%nat st0)) ready).
  - by vm_compute.
  - by vm_compute.
  - reflexivity.
  - reflexivity.
  - reflexivity.
  - by vm_compute.
Qed.

(** The client has closed: the pass reads zero bytes and the relay is
    still running, four seconds after the last activity. *)
Lemma zero_read_keeps_relay_running_witness :
  let st0 := Handler_init sample_addr in
  let session := run (H := ascii_runtime) env_client_eof sample_config
                     sample_listening in
  let ready := mkReady true false true true false false in
  session 0%nat st0 = Pending (state_of (session 0%nat st0))
  /\ recv_answer env_client_eof Client (buffer sample_config) 10 = Ok []
  /\ exists st',
       session 1%nat st0 = Pending st'
       /\ trace st' = trace (state_of (session 0%nat st0))
                      ++ [Select (Ok ready); Time (seconds 9);
                          Recv Client (Ok [])]
       /\ last_activity st' = last_activity (state_of (session 0%nat st0))
       /\ error st' = false.
Proof.
  intros st0 session ready.
  split; [by vm_compute|]. split; [reflexivity|].
  apply (zero_read_keeps_relay_running (H := ascii_runtime) env_client_eof
           sample_config sample_listening 0 st0
           (state_of (session 0%nat st0)) ready Client []).
  - by vm_compute.
  - by vm_compute.
  - reflexivity.
  - reflexivity.
  - reflexivity.
  - by vm_compute.
  - reflexivity.
  - reflexivity.
Defined.

(** The target takes 3 of 8 bytes: the other 5 are gone and the relay
    is still running. *)
Lemma blocked_forward_drops_bytes_witness :
  let st0 := Handler_init sample_addr in
  let session := run (H := ascii_runtime) env_target_slow sample_config
                     sample_listening in
  let ready := mkReady true false true true false false in
  session 0%nat st0 = Pending (state_of (session 0%nat st0))
  /\ exists st',
       session 1%nat st0 = Pending st'
       /\ trace st' = trace (state_of (session 0%nat st0))
                      ++ [Select (Ok ready); Time (seconds 9);
                          Recv Client (Ok (ascii_bytes "abcdefgh"));
                          Send Target (ascii_bytes "abcdefgh")
                               (ascii_bytes "abc") (Some BlockingIOError)]
       /\ error st' = false.
Proof.
  intros st0 session ready.
  split; [by vm_compute|].
  apply (blocked_forward_drops_bytes (H := ascii_runtime) env_target_slow
           sample_config sample_listening 0 st0
           (state_of (session 0%nat st0)) ready Client
           (ascii_bytes "abcdefgh") 3).
  - by vm_compute.
  - by vm_compute.
  - reflexivity.
  - reflexivity.
  - reflexivity.
  - by vm_compute.
  - reflexivity.
  - reflexivity.
  - discriminate.
  - reflexivity.
Defined.

(** ** The ways a session ends

    Idle timeout, empty first read, a chunk that cannot be parsed, a
    refused dial, a failed handshake write, a socket in error during the
    relay, closes that fail: each session returns normally and its last
    two events are the two close attempts. *)
Example every_exit_closes_both :
  Forall (fun o : outcome unit =>
            exists st c t,
              o = Done (Ok tt) st
              /\ ending st = [Close Client c; Close Target t]
              /\ client_closed st = true
              /\ target st <> Some false)
    [ run (H := ascii_runtime) env_idle sample_config sample_listening 1
          (Handler_init sample_addr);
      run (H := ascii_runtime) env_silent sample_config sample_listening 0
          (Handler_init sample_addr);
      run (H := ascii_runtime) env_binary Config_init sample_listening 40
          (Handler_init sample_addr);
      run (H := ascii_runtime) env_refused Config_init sample_listening 0
          (Handler_init sample_addr);
      run (H := ascii_runtime) env_handshake_fails sample_config
          sample_listening 0 (Handler_init sample_addr);
      run (H := ascii_runtime) env_relay_error sample_config sample_listening 1
          (Handler_init sample_addr);
      run (H := ascii_runtime) env_close_fails sample_config sample_listening 1
          (Handler_init sample_addr) ].
Proof.
  repeat (constructor;
          [eexists _, _, _;
           split; [vm_compute; reflexivity|];
           split; [vm_compute; reflexivity|];
           split; [reflexivity|discriminate]|]).
  constructor.
Qed.

(** Closes that fail are tried all the same and are not passed on. *)
Example failed_closes_are_swallowed :
  exists st,
    run (H := ascii_runtime) env_close_fails sample_config sample_listening 1
        (Handler_init sample_addr) = Done (Ok tt) st
    /\ ending st = [Close Client (Some OSError); Close Target (Some OSError)].
Proof. eexists. split; vm_compute; reflexivity. Qed.

(** The client has closed its side and stays read-ready: nineteen passes
    read zero bytes each and the relay is still running; it is the idle
    timeout, 61 seconds after the relay started, that ends it. *)
Example eof_ends_only_by_timeout :
  let session := run (H := ascii_runtime) env_client_eof sample_config
                     sample_listening in
  (exists st, session 19%nat (Handler_init sample_addr) = Pending st
              /\ last_activity st = seconds 5)
  /\ exists st', session 20%nat (Handler_init sample_addr) = Done (Ok tt) st'
                 /\ drop (length (trace st') - 4) (trace st')
                    = [Select (Ok (mkReady true false true true false false));
                       Time (seconds 66);
                       Close Client None; Close Target None].
Proof.
  intros session. split.
  - eexists. split; vm_compute; reflexivity.
  - eexists. split; vm_compute; reflexivity.
Qed.

(** A chunk forwarded whole: the target takes all 8 bytes. *)
Example forward_whole_chunk :
  let env := sample_env (Ok (ascii_bytes "hello")) (Ok (ascii_bytes "abcdefgh"))
               None (mkReady true false true true false false) None seconds in
  exists st,
    run (H := ascii_runtime) env sample_config sample_listening 1
        (Handler_init sample_addr) = Pending st
    /\ ending st = [Recv Client (Ok (ascii_bytes "abcdefgh"));
                    Send Target (ascii_bytes "abcdefgh")
                         (ascii_bytes "abcdefgh") None].
Proof. intros env. eexists. split; vm_compute; reflexivity. Qed.

(** A negative index is not an array index: it overwrites from the end,
    or raises when the array is too short. *)
Example load_config_negative_index :
  load_config None [((-1)%Z, lit "10.0.0.3", 443%Z)] [] = Crashed IndexError
  /\ exists config,
       load_config
         (Some (Ok (mkFileData [mkBinding (lit "10.0.0.1") 80] [] None None)))
         [((-1)%Z, lit "10.0.0.3", 443%Z)] []
       = Started config
       /\ bindings config = [mkBinding (lit "10.0.0.3") 443].
Proof. split; [reflexivity|]. eexists. split; reflexivity. Qed.

(* ===================================================================== *)
(** * Index arguments                                                     *)
(* ===================================================================== *)

Section IndexedArg.
Context `{Runtime}.
Implicit Types (s a : str) (c : N).

(** Where a one-character separator is found, and when it is not. *)
Lemma partition_char_Some c s a b :
  partition [c] s = Some (a, b) <-> s = a ++ c :: b /\ c ∉ a.
Proof.
  split.
  - revert a b. induction s as [|x s IH]; intros a b; rewrite partition_unfold.
    + done.
    + destruct (N.eqb_spec c x) as [->|Hne].
      * change (startswith (x :: s) [x]) with ((x =? x) && startswith s []).
        rewrite N.eqb_refl, startswith_nil. intros [= <- <-].
        split; [done|]. apply not_elem_of_nil.
      * rewrite startswith_head_ne by done.
        destruct (partition [c] s) as [[a' b']|]; [|done].
        intros [= <- <-]. destruct (IH _ _ eq_refl) as [-> Hnot].
        split; [done|]. by apply not_elem_of_cons.
  - intros [-> Hnot]. by apply (partition_first c []).
Qed.

Lemma partition_char_None c s : partition [c] s = None <-> c ∉ s.
Proof.
  split; [|apply partition_none].
  intros Hnone Hin. apply list_elem_of_split in Hin as (a & b & ->).
  revert Hnone. induction a as [|x a IH].
  - change ([] ++ c :: b) with ([c] ++ b).
    by rewrite partition_unfold, startswith_self.
  - change ((x :: a) ++ c :: b) with (x :: (a ++ c :: b)).
    rewrite partition_unfold.
    destruct (startswith (x :: a ++ c :: b) [c]); [done|].
    destruct (partition [c] (a ++ c :: b)) as [[a' b']|]; [done|]. auto.
Qed.

(** Stripping removes only what it is told to remove. *)
Lemma lstrip_by_keeps sp c s : sp c = false -> c ∈ s -> c ∈ lstrip_by sp s.
Proof.
  intros Hc. induction s as [|x s IH]; [done|]. simpl. intros Hin.
  destruct (sp x) eqn:Hx; [|done].
  apply elem_of_cons in Hin as [->|Hin]; [congruence|auto].
Qed.

Lemma elem_of_rev c s : c ∈ rev s <-> c ∈ s.
Proof. rewrite !list_elem_of_In. symmetry. apply in_rev. Qed.

Lemma strip_by_keeps sp c s : sp c = false -> c ∈ s -> c ∈ strip_by sp s.
Proof.
  intros Hc Hin. unfold strip_by.
  apply elem_of_rev, lstrip_by_keeps, elem_of_rev, lstrip_by_keeps; auto.
Qed.

(** A string with a code point that is no digit and no underscore is
    no number. *)
Lemma int_digits_stranger c s : forall acc count after_digit,
  c ∈ s -> c <> 95 -> digit_val c = None ->
  int_digits s acc count after_digit = None.
Proof.
  induction s as [|x s IH]; intros acc count after_digit Hin Hne Hdig.
  - by apply elem_of_nil in Hin.
  - simpl. apply elem_of_cons in Hin as [<-|Hin].
    + destruct (N.eqb_spec c 95); [done|]. by rewrite Hdig.
    + destruct (x =? 95); [destruct after_digit; auto|].
      destruct (digit_val x); auto.
Qed.

(** [int] refuses a string with a colon in it. *)
Lemma int_colon s : 58 ∈ s -> int s = Raise ValueError.
Proof.
  intros Hin. unfold int.
  pose proof (strip_by_keeps int_isspace 58 s eq_refl Hin) as Hin'.
  set (t := strip_by int_isspace s) in *.
  assert (forall body, 58 ∈ body -> int_digits body 0 0 false = None) as Hnone.
  { intros body Hb. by apply (int_digits_stranger 58). }
  destruct t as [|c r]; [by apply elem_of_nil in Hin'|].
  destruct (N.eqb_spec c 43) as [->|H43].
  { apply elem_of_cons in Hin' as [?|Hin']; [done|]. by rewrite Hnone. }
  destruct (N.eqb_spec c 45) as [->|H45].
  { apply elem_of_cons in Hin' as [?|Hin']; [done|]. by rewrite Hnone. }
  by rewrite Hnone.
Qed.

Lemma int_Ok_no_colon s z : int s = Ok z -> 58 ∉ s.
Proof. intros Hint Hin. by rewrite (int_colon _ Hin) in Hint. Qed.

(** [arg.split(':', 2)] *)
Lemma splitn_2_colon arg :
  splitn 2 [58] arg
  = match partition [58] arg with
    | Some (p0, rest) =>
      match partition [58] rest with
      | Some (p1, p2) => [p0; p1; p2]
      | None => [p0; rest]
      end
    | None => [arg]
    end.
Proof.
  simpl. destruct (partition [58] arg) as [[p0 rest]|]; [|done].
  by destruct (partition [58] rest) as [[p1 p2]|].
Qed.

(** [int] and [parse_indexed_arg] raise nothing but [ValueError]. *)
Lemma int_raises s e : int s = Raise e -> e = ValueError.
Proof.
  unfold int. destruct (match strip_by int_isspace s with
                        | [] => _ | _ :: _ => _ end) as [neg body].
  destruct (int_digits body 0 0 false) as [[v count]|]; [|congruence].
  destruct (match int_max_str_digits with Some _ => _ | None => _ end);
    congruence.
Qed.

Lemma parse_indexed_arg_raises arg e :
  parse_indexed_arg arg = Raise e -> e = ValueError.
Proof.
  unfold parse_indexed_arg.
  destruct (splitn 2 (lit ":") arg) as [|p0 [|p1 [|p2 [|]]]]; try congruence.
  destruct (int p0) as [i|e0] eqn:Hi; simpl;
    [|intros [= <-]; by apply int_raises in Hi].
  destruct (int p2) as [p|e2] eqn:Hp; simpl; [done|].
  intros [= <-]. by apply int_raises in Hp.
Qed.

Lemma parse_indexed_arg_refuses arg :
  (forall r, parse_indexed_arg arg <> Ok r) ->
  parse_indexed_arg arg = Raise ValueError.
Proof.
  intros Hno. destruct (parse_indexed_arg arg) as [r|e] eqn:Hparse.
  - by destruct (Hno r).
  - by rewrite (parse_indexed_arg_raises arg e Hparse).
Qed.

Lemma parse_indexed_arg_Ok arg index addr port :
  parse_indexed_arg arg = Ok (index, addr, port)
  <-> exists s0 s2,
        arg = s0 ++ lit ":" ++ addr ++ lit ":" ++ s2
        /\ (58 ∉ s0) /\ (58 ∉ addr) /\ (58 ∉ s2)
        /\ int s0 = Ok index /\ int s2 = Ok port.
Proof.
  unfold parse_indexed_arg. change (lit ":") with [58].
  rewrite splitn_2_colon. split.
  - destruct (partition [58] arg) as [[p0 rest]|] eqn:Hp0; [|done].
    destruct (partition [58] rest) as [[p1 p2]|] eqn:Hp1; [|done].
    apply partition_char_Some in Hp0 as [-> Hn0].
    apply partition_char_Some in Hp1 as [-> Hn1].
    destruct (int p0) as [i|e] eqn:Hi; [|done].
    destruct (int p2) as [p|e] eqn:Hp; [|done].
    intros [= <- <- <-]. exists p0, p2.
    eauto 10 using int_Ok_no_colon.
  - intros (s0 & s2 & -> & Hn0 & Hn1 & Hn2 & Hi & Hp).
    rewrite (proj2 (partition_char_Some 58 _ s0 (addr ++ [58] ++ s2)))
      by done.
    rewrite (proj2 (partition_char_Some 58 _ addr s2)) by done.
    by rewrite Hi, Hp.
Qed.

(** X1.  [parse_indexed_arg] returns [(index, address, port)] exactly
    for the arguments [index:address:port] in which the address has no
    colon and [int] accepts the index and the port (which then have no
    colon either).  Every other argument raises [ValueError], and
    nothing else: one with fewer or more than two colons, one whose
    address is an IPv6 literal, one whose index or port is no number. *)
Theorem parse_indexed_arg_iff (arg : str) :
  (forall index addr port,
     parse_indexed_arg arg = Ok (index, addr, port)
     <-> exists s0 s2,
           arg = s0 ++ lit ":" ++ addr ++ lit ":" ++ s2
           /\ (58 ∉ s0) /\ (58 ∉ addr) /\ (58 ∉ s2)
           /\ int s0 = Ok index /\ int s2 = Ok port)
  /\ ((~ exists index addr port s0 s2,
           arg = s0 ++ lit ":" ++ addr ++ lit ":" ++ s2
           /\ (58 ∉ s0) /\ (58 ∉ addr) /\ (58 ∉ s2)
           /\ int s0 = Ok index /\ int s2 = Ok port)
      <-> parse_indexed_arg arg = Raise ValueError).
Proof.
  split; [intros index addr port; apply parse_indexed_arg_Ok|]. split.
  - intros Hno. apply parse_indexed_arg_refuses. intros [[index addr] port] Hok.
    apply parse_indexed_arg_Ok in Hok as (s0 & s2 & Hform).
    apply Hno. by exists index, addr, port, s0, s2.
  - intros Hraise (index & addr & port & s0 & s2 & Hform).
    assert (parse_indexed_arg arg = Ok (index, addr, port)) as Hok
      by (apply parse_indexed_arg_Ok; by exists s0, s2).
    congruence.
Qed.

(** X2.  An argument made of a decimal index, an address without colon
    and a decimal port gives the two numbers and the address. *)
Theorem parse_indexed_arg_decimal (index addr port : str) :
  is_port index -> 58 ∉ addr -> is_port port ->
  parse_indexed_arg (index ++ lit ":" ++ addr ++ lit ":" ++ port)
  = Ok (Z.of_N (decimal_value index), addr, Z.of_N (decimal_value port)).
Proof.
  intros Hi Ha Hp.
  pose proof (int_digits_value _ Hi) as Hint_i.
  pose proof (int_digits_value _ Hp) as Hint_p.
  unfold parse_indexed_arg. change (lit ":") with [58].
  rewrite splitn_2_colon.
  rewrite (proj2 (partition_char_Some 58 _ index (addr ++ [58] ++ port)))
    by eauto using int_Ok_no_colon.
  rewrite (proj2 (partition_char_Some 58 _ addr port)) by done.
  by rewrite Hint_i, Hint_p.
Qed.

End IndexedArg.

(* ===================================================================== *)
(** * The command line                                                    *)
(* ===================================================================== *)

(** Tests on literals are settled by evaluation. *)
Ltac settle :=
  repeat match goal with
         | |- context [bool_decide ?P] =>
           let b := eval vm_compute in (bool_decide P) in
           match b with
           | true => change (bool_decide P) with true
           | false => change (bool_decide P) with false
           end
         | |- context [startswith ?a ?b] =>
           let r := eval vm_compute in (startswith a b) in
           match r with
           | true => change (startswith a b) with true
           | false => change (startswith a b) with false
           end
         end.

Section Getopt.
Implicit Types (opts : list (str * str)) (args rest : list str).

Local Abbreviation shortopts := (lit "hf:b:l:").
Local Abbreviation longopts :=
  [lit "help"; lit "file="; lit "bind="; lit "listen="].
Local Abbreviation scan opts args :=
  (getopt_while (length args) opts args shortopts longopts).

(** The helpers give back the arguments they were given, or all but
    the first. *)
Lemma do_shorts_args opts optstring so args opts' args' :
  do_shorts opts optstring so args = Parsed (opts', args') ->
  (length args' <= length args)%nat.
Proof.
  revert opts. induction optstring as [|opt optstring IH]; intros opts; simpl.
  - by intros [= <- <-].
  - destruct (short_has_arg opt so) as [[|]|]; simpl; [|by apply IH|done].
    destruct optstring, args; try done; intros [= <- <-]; simpl; lia.
Qed.

Lemma do_longs_args opts opt lo args opts' args' :
  do_longs opts opt lo args = Parsed (opts', args') ->
  (length args' <= length args)%nat.
Proof.
  unfold do_longs.
  destruct (match partition (lit "=") opt with
            | Some (name, value) => (name, Some value)
            | None => (opt, None)
            end) as [name optarg].
  destruct (long_has_args name lo) as [[[|] full]|]; simpl; [| |done].
  - destruct optarg, args; try done; intros [= <- <-]; simpl; lia.
  - destruct optarg; try done. by intros [= <- <-].
Qed.

(** More passes than arguments change nothing. *)
Lemma getopt_while_fuel so lo fuel1 : forall fuel2 opts args,
  (length args <= fuel1)%nat -> (length args <= fuel2)%nat ->
  getopt_while fuel1 opts args so lo = getopt_while fuel2 opts args so lo.
Proof.
  induction fuel1 as [|fuel1 IH]; intros fuel2 opts args H1 H2.
  - destruct args; [|simpl in H1; lia]. by destruct fuel2.
  - destruct args as [|a rest]; [by destruct fuel2|].
    destruct fuel2 as [|fuel2]; [simpl in H2; lia|]. simpl in *.
    destruct (startswith a (lit "-") && negb (bool_decide (a = lit "-")));
      [|done].
    destruct (bool_decide (a = lit "--")); [done|].
    destruct (startswith a (lit "--")).
    + destruct (do_longs opts (drop 2 a) lo rest) as [[opts' args']|] eqn:Hdo;
        [|done].
      apply do_longs_args in Hdo. simpl. apply IH; lia.
    + destruct (do_shorts opts (drop 1 a) so rest) as [[opts' args']|] eqn:Hdo;
        [|done].
      apply do_shorts_args in Hdo. simpl. apply IH; lia.
Qed.

(** One pass of [getopt], without the count of passes. *)
Lemma scan_cons opts a rest :
  scan opts (a :: rest)
  = if startswith a (lit "-") && negb (bool_decide (a = lit "-")) then
      if bool_decide (a = lit "--") then Parsed (opts, rest)
      else
        '(opts, args) ←
          (if startswith a (lit "--")
           then do_longs opts (drop 2 a) longopts rest
           else do_shorts opts (drop 1 a) shortopts rest);
        scan opts args
    else Parsed (opts, a :: rest).
Proof.
  simpl.
  destruct (startswith a (lit "-") && negb (bool_decide (a = lit "-")));
    [|done].
  destruct (bool_decide (a = lit "--")); [done|].
  destruct (startswith a (lit "--")).
  - destruct (do_longs opts (drop 2 a) longopts rest) as [[opts' args']|] eqn:Hdo;
      [|done].
    apply do_longs_args in Hdo. simpl. apply getopt_while_fuel; lia.
  - destruct (do_shorts opts (drop 1 a) shortopts rest)
      as [[opts' args']|] eqn:Hdo; [|done].
    apply do_shorts_args in Hdo. simpl. apply getopt_while_fuel; lia.
Qed.


(** What the helpers make of the arguments after the first is theirs
    to take or leave: arguments added behind stay behind. *)
Lemma do_shorts_app opts optstring so args post opts' args' :
  do_shorts opts optstring so args = Parsed (opts', args') ->
  do_shorts opts optstring so (args ++ post) = Parsed (opts', args' ++ post).
Proof.
  revert opts. induction optstring as [|opt optstring IH]; intros opts; simpl.
  - by intros [= <- <-].
  - destruct (short_has_arg opt so) as [[|]|]; simpl; [|by apply IH|done].
    destruct optstring, args; try done; by intros [= <- <-].
Qed.

Lemma do_longs_app opts opt lo args post opts' args' :
  do_longs opts opt lo args = Parsed (opts', args') ->
  do_longs opts opt lo (args ++ post) = Parsed (opts', args' ++ post).
Proof.
  unfold do_longs.
  destruct (match partition (lit "=") opt with
            | Some (name, value) => (name, Some value)
            | None => (opt, None)
            end) as [name optarg].
  destruct (long_has_args name lo) as [[[|] full]|]; simpl; [| |done].
  - destruct optarg, args; try done; by intros [= <- <-].
  - destruct optarg; try done. by intros [= <- <-].
Qed.

Lemma positional_stops a :
  positional a ->
  startswith a (lit "-") && negb (bool_decide (a = lit "-")) = false.
Proof.
  intros [->| ->]; [done|]. by rewrite bool_decide_true, andb_false_r.
Qed.

(** [getopt] does not look beyond the first positional argument. *)
Lemma getopt_while_positional so lo a post fuel :
  positional a ->
  forall fuel' opts args os left,
  (length args <= fuel)%nat -> (length (args ++ a :: post) <= fuel')%nat ->
  getopt_while fuel opts args so lo = Parsed (os, left) ->
  getopt_while fuel' opts (args ++ a :: post) so lo
  = Parsed (os, left ++ a :: post).
Proof.
  intros Ha. induction fuel as [|fuel IH];
    intros fuel' opts args os left Hfuel Hfuel' Hrun.
  - destruct args; [|simpl in Hfuel; lia]. injection Hrun as <- <-.
    destruct fuel'; [done|]. simpl. by rewrite (positional_stops _ Ha).
  - destruct args as [|x rest].
    { injection Hrun as <- <-.
      destruct fuel'; [done|]. simpl. by rewrite (positional_stops _ Ha). }
    destruct fuel' as [|fuel']; [simpl in Hfuel'; lia|]. simpl in *.
    destruct (startswith x (lit "-") && negb (bool_decide (x = lit "-")));
      [|by injection Hrun as <- <-].
    destruct (bool_decide (x = lit "--")); [by injection Hrun as <- <-|].
    destruct (startswith x (lit "--")).
    + destruct (do_longs opts (drop 2 x) lo rest) as [[opts1 args1]|] eqn:Hdo;
        [|done].
      rewrite (do_longs_app _ _ _ _ (a :: post) _ _ Hdo). simpl in *.
      apply do_longs_args in Hdo.
      apply IH; [lia| |done]. rewrite length_app in *. simpl in *. lia.
    + destruct (do_shorts opts (drop 1 x) so rest) as [[opts1 args1]|] eqn:Hdo;
        [|done].
      rewrite (do_shorts_app _ _ _ _ (a :: post) _ _ Hdo). simpl in *.
      apply do_shorts_args in Hdo.
      apply IH; [lia| |done]. rewrite length_app in *. simpl in *. lia.
Qed.

(** Where the reading of options ends. *)
Lemma scan_end opts rest :
  ends_options rest -> exists left, scan opts rest = Parsed (opts, left).
Proof.
  destruct rest as [|a rest]; [by exists []|]. intros [Ha| ->].
  - exists (a :: rest). by rewrite scan_cons, (positional_stops _ Ha).
  - exists rest. by rewrite scan_cons.
Qed.

(** An argument that begins with one hyphen, and one that begins with
    two. *)
Lemma scan_short opts c s rest :
  c <> 45 ->
  scan opts ((45 :: c :: s) :: rest)
  = ('(opts, args) ← do_shorts opts (c :: s) shortopts rest; scan opts args).
Proof.
  intros Hc. rewrite scan_cons.
  change (startswith (45 :: c :: s) (lit "-")) with true.
  rewrite !bool_decide_false by (by intros [=]).
  assert (startswith (45 :: c :: s) (lit "--") = false) as ->; [|done].
  change (startswith (45 :: c :: s) (lit "--"))
    with ((45 =? 45) && ((45 =? c) && startswith s [])).
  by destruct (N.eqb_spec 45 c).
Qed.

Lemma scan_long opts s rest :
  s <> [] ->
  scan opts ((45 :: 45 :: s) :: rest)
  = ('(opts, args) ← do_longs opts s longopts rest; scan opts args).
Proof.
  intros Hs. rewrite scan_cons.
  change (startswith (45 :: 45 :: s) (lit "-")) with true.
  assert (startswith (45 :: 45 :: s) (lit "--") = true) as ->.
  { change (lit "--") with [45; 45]. simpl. apply startswith_nil. }
  rewrite !bool_decide_false; [done| |by intros [=]].
  intros [=]. done.
Qed.

Lemma do_shorts_flag opts so c rest :
  short_has_arg c so = Parsed false ->
  do_shorts opts [c] so rest = Parsed (opts ++ [(45 :: [c], [])], rest).
Proof. intros Hc. simpl. by rewrite Hc. Qed.

Lemma do_shorts_joined opts so c v rest :
  short_has_arg c so = Parsed true -> v <> [] ->
  do_shorts opts (c :: v) so rest
  = Parsed (opts ++ [(45 :: [c], v)], rest).
Proof. intros Hc Hv. simpl. rewrite Hc. simpl. by destruct v. Qed.

Lemma do_shorts_apart opts so c v rest :
  short_has_arg c so = Parsed true ->
  do_shorts opts [c] so (v :: rest)
  = Parsed (opts ++ [(45 :: [c], v)], rest).
Proof. intros Hc. simpl. by rewrite Hc. Qed.

Lemma do_longs_flag opts lo p name rest :
  long_has_args p lo = Parsed (false, name) -> (61 ∉ p) ->
  do_longs opts p lo rest
  = Parsed (opts ++ [(lit "--" ++ name, [])], rest).
Proof.
  intros Hp Hno. unfold do_longs.
  change (lit "=") with [61]. rewrite (partition_none 61 [] p Hno).
  by rewrite Hp.
Qed.

Lemma do_longs_joined opts lo p name v rest :
  long_has_args p lo = Parsed (true, name) -> (61 ∉ p) ->
  do_longs opts (p ++ lit "=" ++ v) lo rest
  = Parsed (opts ++ [(lit "--" ++ name, v)], rest).
Proof.
  intros Hp Hno. unfold do_longs.
  change (lit "=") with [61]. rewrite (partition_first 61 [] p v Hno).
  by rewrite Hp.
Qed.

Lemma do_longs_apart opts lo p name v rest :
  long_has_args p lo = Parsed (true, name) -> (61 ∉ p) ->
  do_longs opts p lo (v :: rest)
  = Parsed (opts ++ [(lit "--" ++ name, v)], rest).
Proof.
  intros Hp Hno. unfold do_longs.
  change (lit "=") with [61]. rewrite (partition_none 61 [] p Hno).
  by rewrite Hp.
Qed.

(** Every beginning of a long name stands for that name. *)
Lemma abbreviation_resolves s p :
  p ∈ abbreviations (long_name s) ->
  p <> [] /\ (61 ∉ p)
  /\ long_has_args p longopts
     = Parsed (bool_decide (value_of s <> None), long_name s).
Proof.
  intros Hp.
  destruct s;
    match type of Hp with
    | _ ∈ ?l => let v := eval vm_compute in l in change l with v in Hp
    end;
    repeat (apply elem_of_cons in Hp as [->|Hp];
            [split; [done|split; [|vm_compute; reflexivity]];
             apply (bool_decide_unpack _); vm_compute; exact I|]);
    by apply elem_of_nil in Hp.
Qed.

Context `{Runtime}.

(** One setting, however it is spelled, is one pass of [getopt]. *)
Lemma spelled_scan s words :
  spells s words ->
  exists o, reads o s
    /\ forall opts rest, scan opts (words ++ rest) = scan (opts ++ [o]) rest.
Proof.
  intros [s' Hv|s' p Hv Hp|s' v Hv Hne|s' v Hv|s' p v Hv Hp|s' p v Hv Hp].
  - destruct s'; try discriminate. exists (lit "-h", []).
    split; [by split; [left|]|]. intros opts rest.
    change ([short_name Help] ++ rest) with ((45 :: 104 :: []) :: rest).
    rewrite scan_short by done.
    by rewrite (do_shorts_flag _ _ 104) by reflexivity.
  - destruct s'; try discriminate. exists (lit "--" ++ lit "help", []).
    split; [by split; [right|]|]. intros opts rest.
    destruct (abbreviation_resolves _ _ Hp) as (Hne & Hno & Hres).
    change ([lit "--" ++ p] ++ rest) with ((45 :: 45 :: p) :: rest).
    rewrite scan_long by done.
    by rewrite (do_longs_flag _ _ _ _ _ Hres Hno).
  - exists (short_name s', v). split; [split; [by left|by rewrite Hv]|].
    intros opts rest.
    destruct s' as [|n|n|n]; try discriminate; injection Hv as ->.
    + change ([short_name (File v) ++ v] ++ rest) with ((45 :: 102 :: v) :: rest).
      rewrite scan_short by done.
      by rewrite (do_shorts_joined _ _ 102) by done.
    + change ([short_name (Bind v) ++ v] ++ rest) with ((45 :: 98 :: v) :: rest).
      rewrite scan_short by done.
      by rewrite (do_shorts_joined _ _ 98) by done.
    + change ([short_name (Listen v) ++ v] ++ rest)
        with ((45 :: 108 :: v) :: rest).
      rewrite scan_short by done.
      by rewrite (do_shorts_joined _ _ 108) by done.
  - exists (short_name s', v). split; [split; [by left|by rewrite Hv]|].
    intros opts rest.
    destruct s' as [|n|n|n]; try discriminate; injection Hv as ->.
    + change ([short_name (File v); v] ++ rest)
        with ((45 :: 102 :: []) :: v :: rest).
      rewrite scan_short by done.
      by rewrite (do_shorts_apart _ _ 102) by done.
    + change ([short_name (Bind v); v] ++ rest)
        with ((45 :: 98 :: []) :: v :: rest).
      rewrite scan_short by done.
      by rewrite (do_shorts_apart _ _ 98) by done.
    + change ([short_name (Listen v); v] ++ rest)
        with ((45 :: 108 :: []) :: v :: rest).
      rewrite scan_short by done.
      by rewrite (do_shorts_apart _ _ 108) by done.
  - exists (lit "--" ++ long_name s', v).
    split; [split; [by right|by rewrite Hv]|]. intros opts rest.
    destruct (abbreviation_resolves _ _ Hp) as (Hne & Hno & Hres).
    rewrite Hv in Hres. change (bool_decide _) with true in Hres.
    change ([lit "--" ++ p ++ lit "=" ++ v] ++ rest)
      with ((45 :: 45 :: (p ++ lit "=" ++ v)) :: rest).
    rewrite scan_long by (by destruct p).
    by rewrite (do_longs_joined _ _ _ _ _ _ Hres Hno).
  - exists (lit "--" ++ long_name s', v).
    split; [split; [by right|by rewrite Hv]|]. intros opts rest.
    destruct (abbreviation_resolves _ _ Hp) as (Hne & Hno & Hres).
    rewrite Hv in Hres. change (bool_decide _) with true in Hres.
    change ([lit "--" ++ p; v] ++ rest) with ((45 :: 45 :: p) :: v :: rest).
    rewrite scan_long by done.
    by rewrite (do_longs_apart _ _ _ _ _ _ Hres Hno).
Qed.

(** What [parse_args] does with the pair of a setting. *)
Lemma parse_args_for_reads o s os f b l :
  reads o s ->
  parse_args_for (o :: os) f b l
  = match s with
    | Help => print_usage;; sys_exit 0
    | File name => parse_args_for os name b l
    | Bind value =>
      v ← boot_lift (parse_indexed_arg value);
      parse_args_for os f (b ++ [v]) l
    | Listen value =>
      v ← boot_lift (parse_indexed_arg value);
      parse_args_for os f b (l ++ [v])
    end.
Proof.
  destruct o as [opt arg]. intros [[Ho|Ho] Ha]; simpl in Ho, Ha; subst;
    destruct s; cbn [parse_args_for short_name long_name value_of default];
    settle; reflexivity.
Qed.

(** A command line of settings, spelled one way or another. *)
Lemma spelled_all ss wordss :
  Forall2 spells ss wordss ->
  exists os,
    (forall opts more, scan opts (concat wordss ++ more) = scan (opts ++ os) more)
    /\ (forall f b l, parse_args_for os f b l = read_settings ss f b l).
Proof.
  induction 1 as [|s words ss wordss Hs _ (os & Hscan & Hfor)].
  - exists []. split; [|done]. intros opts more. by rewrite app_nil_r.
  - destruct (spelled_scan _ _ Hs) as (o & Ho & Hstep). exists (o :: os). split.
    + intros opts more. simpl. rewrite <- app_assoc, Hstep, Hscan.
      by rewrite <- app_assoc.
    + intros f b l. rewrite (parse_args_for_reads _ _ _ _ _ _ Ho).
      destruct s; simpl; [done|apply Hfor| |];
        destruct (parse_indexed_arg _); simpl; by rewrite ?Hfor.
Qed.

Lemma parse_args_spelled ss wordss rest :
  Forall2 spells ss wordss -> ends_options rest ->
  parse_args (concat wordss ++ rest) = read_settings ss [] [] [].
Proof.
  intros Hss Hrest. destruct (spelled_all _ _ Hss) as (os & Hscan & Hfor).
  unfold parse_args, getopt. rewrite Hscan.
  destruct (scan_end ([] ++ os) rest Hrest) as [left ->]. apply Hfor.
Qed.

End Getopt.

Section ParseArgs.
Context `{Runtime}.

Local Abbreviation parses := (fun v r => parse_indexed_arg v = Ok r).
Local Abbreviation usage := (print_usage.1).

Lemma boot_eta {A} (m : Boot A) : (let '(out, r) := m in (out, r)) = m.
Proof. by destruct m. Qed.

Lemma default_last_cons {A} (x y : A) l :
  default x (last (y :: l)) = default y (last l).
Proof. rewrite last_cons. by destruct (last l). Qed.

(** Settings without [-h] whose values are well formed. *)
Lemma read_settings_collects ss : forall f b l binds listens,
  Help ∉ ss ->
  Forall2 parses (bind_values ss) binds ->
  Forall2 parses (listen_values ss) listens ->
  read_settings ss f b l
  = ([], Started
           (default f (last (omap (fun s => match s with
                                            | File v => Some v
                                            | _ => None
                                            end) ss)),
            b ++ binds, l ++ listens)).
Proof.
  induction ss as [|s ss IH]; intros f b l binds listens Hh Hb Hl.
  - apply Forall2_nil_inv_l in Hb as ->. apply Forall2_nil_inv_l in Hl as ->.
    simpl. by rewrite !app_nil_r.
  - apply not_elem_of_cons in Hh as [Hs Hh]. destruct s as [|n|v|v]; [done| | |].
    + simpl in *. rewrite (IH n b l binds listens) by done.
      by rewrite default_last_cons.
    + simpl in Hb. apply Forall2_cons_inv_l in Hb as (r & binds' & Hr & Hb & ->).
      simpl. rewrite Hr. simpl.
      rewrite (IH f (b ++ [r]) l binds' listens) by done.
      by rewrite <- app_assoc.
    + simpl in Hl. apply Forall2_cons_inv_l in Hl as (r & listens' & Hr & Hl & ->).
      simpl. rewrite Hr. simpl.
      rewrite (IH f b (l ++ [r]) binds listens') by done.
      by rewrite <- app_assoc.
Qed.

(** Settings up to the first that ends the reading. *)
Lemma read_settings_app pre : forall post f b l binds listens,
  Help ∉ pre ->
  Forall2 parses (bind_values pre) binds ->
  Forall2 parses (listen_values pre) listens ->
  exists f',
    read_settings (pre ++ post) f b l
    = read_settings post f' (b ++ binds) (l ++ listens).
Proof.
  induction pre as [|s pre IH]; intros post f b l binds listens Hh Hb Hl.
  - apply Forall2_nil_inv_l in Hb as ->. apply Forall2_nil_inv_l in Hl as ->.
    exists f. by rewrite !app_nil_r.
  - apply not_elem_of_cons in Hh as [Hs Hh]. destruct s as [|n|v|v]; [done| | |].
    + simpl in *. apply IH; auto.
    + simpl in Hb. apply Forall2_cons_inv_l in Hb as (r & binds' & Hr & Hb & ->).
      destruct (IH post f (b ++ [r]) l binds' listens) as [f' Hf']; auto.
      exists f'. simpl. rewrite Hr. simpl. rewrite Hf'.
      rewrite <- app_assoc. apply boot_eta.
    + simpl in Hl. apply Forall2_cons_inv_l in Hl as (r & listens' & Hr & Hl & ->).
      destruct (IH post f b (l ++ [r]) binds listens') as [f' Hf']; auto.
      exists f'. simpl. rewrite Hr. simpl. rewrite Hf'.
      rewrite <- app_assoc. apply boot_eta.
Qed.

(** X3.  A command line of [-f], [-b] and [-l] settings, each spelled
    with its short name or with a beginning of its long name, the value
    joined or in the next argument, whose [-b] and [-l] values are well
    formed: [parse_args] prints nothing and returns the name of the last
    [-f] (the empty name when there is none), the [-b] values in their
    order and the [-l] values in their order. *)
Theorem parse_args_collects (ss : list setting) (wordss : list (list str))
    (rest : list str) (binds listens : list (Z * str * Z)) :
  Forall2 spells ss wordss -> ends_options rest ->
  Help ∉ ss ->
  Forall2 parses (bind_values ss) binds ->
  Forall2 parses (listen_values ss) listens ->
  parse_args (concat wordss ++ rest)
  = ([], Started (file_name ss, binds, listens)).
Proof.
  intros Hss Hrest Hh Hb Hl. rewrite (parse_args_spelled ss) by done.
  by rewrite (read_settings_collects ss [] [] [] binds listens).
Qed.

(** X4.  On a command line of settings that are all spelled as
    [getopt] accepts them, the settings are read in order and the first
    [-h] ends the reading: when the [-b] and [-l] values given before
    it are well formed, the usage text is printed and the program exits
    with status 0, whatever the settings after it and their values,
    well formed or not. *)
Theorem parse_args_help (pre post : list setting) (wordss : list (list str))
    (rest : list str) (binds listens : list (Z * str * Z)) :
  Forall2 spells (pre ++ Help :: post) wordss -> ends_options rest ->
  Help ∉ pre ->
  Forall2 parses (bind_values pre) binds ->
  Forall2 parses (listen_values pre) listens ->
  parse_args (concat wordss ++ rest) = (usage, SysExit 0).
Proof.
  intros Hss Hrest Hh Hb Hl. rewrite (parse_args_spelled _ _ _ Hss Hrest).
  by destruct (read_settings_app pre (Help :: post) [] [] [] binds listens)
    as [f' ->].
Qed.

(** X5.  On a command line of settings that are all spelled as
    [getopt] accepts them, the first [-b] or [-l] value that
    [parse_indexed_arg] refuses ends the program with [ValueError],
    which nobody catches: no usage text, no exit status of the
    program's own.  This is so when no [-h] stands before that value
    (the values before it are then well formed, it being the first);
    what follows it is not looked at. *)
Theorem parse_args_bad_value (pre post : list setting) (s : setting)
    (value : str) (wordss : list (list str)) (rest : list str)
    (binds listens : list (Z * str * Z)) :
  Forall2 spells (pre ++ s :: post) wordss -> ends_options rest ->
  s = Bind value \/ s = Listen value ->
  (forall r, parse_indexed_arg value <> Ok r) ->
  Help ∉ pre ->
  Forall2 parses (bind_values pre) binds ->
  Forall2 parses (listen_values pre) listens ->
  parse_args (concat wordss ++ rest) = ([], Crashed ValueError).
Proof.
  intros Hss Hrest Hs He Hh Hb Hl. rewrite (parse_args_spelled _ _ _ Hss Hrest).
  destruct (read_settings_app pre (s :: post) [] [] [] binds listens)
    as [f' ->]; [done..|].
  apply parse_indexed_arg_refuses in He.
  destruct Hs as [-> | ->]; simpl; by rewrite He.
Qed.

Lemma short_has_arg_stranger c :
  c ∉ [104; 102; 98; 108] ->
  short_has_arg c (lit "hf:b:l:")
  = GetoptError (lit "option -" ++ [c] ++ lit " not recognized") [c].
Proof.
  intros Hc. change (lit "hf:b:l:") with [104; 102; 58; 98; 58; 108; 58].
  cbn [short_has_arg].
  change (negb (58 =? 58)) with false. rewrite !andb_false_r.
  repeat match goal with
         | |- context [c =? ?k] =>
           destruct (N.eqb_spec c k) as [->|_];
             [exfalso; apply Hc; repeat constructor|]
         end.
  done.
Qed.

(** X6.  An option letter that the program does not know, in any
    argument that is read as options, ends the program with status 2
    after the line that names the letter and the usage text; this is so
    even when [-h] stands before it, and whatever the values of the
    settings before it. *)
Theorem parse_args_unknown_letter (ss : list setting)
    (wordss : list (list str)) (c : N) (more : str) (rest : list str) :
  Forall2 spells ss wordss ->
  c ∉ lit "hfbl-" ->
  parse_args (concat wordss ++ (lit "-" ++ c :: more) :: rest)
  = (Printlog (lit "Error: option -" ++ [c] ++ lit " not recognized") :: usage,
     SysExit 2).
Proof.
  intros Hss Hc. change (lit "hfbl-") with [104; 102; 98; 108; 45] in Hc.
  destruct (spelled_all _ _ Hss) as (os & Hscan & _).
  unfold parse_args, getopt. rewrite Hscan.
  change (lit "-" ++ c :: more) with (45 :: c :: more).
  rewrite scan_short by (intros ->; apply Hc; repeat constructor).
  cbn [do_shorts]. rewrite short_has_arg_stranger; [done|].
  intros Hin. apply Hc.
  repeat (apply elem_of_cons in Hin as [->|Hin]; [repeat constructor|]).
  by apply elem_of_nil in Hin.
Qed.

(** X7.  The options are read up to the first positional argument
    only: whatever follows it, options included, is ignored.  (Stated
    for every command line that [getopt] accepts, that is, on which
    [parse_args] does not exit with status 2.) *)
Theorem parse_args_stops_at_positional (args : list str) (a : str)
    (post : list str) :
  positional a ->
  (parse_args args).2 <> SysExit 2 ->
  parse_args (args ++ a :: post) = parse_args args.
Proof.
  intros Ha Hok. unfold parse_args, getopt in *.
  destruct (getopt_while (length args) [] args _ _) as [[os left]|msg opt]
    eqn:Hrun; [|done].
  by rewrite (getopt_while_positional _ _ a post (length args) Ha _ _ _ _ _
                (Nat.le_refl _) (Nat.le_refl _) Hrun).
Qed.

End ParseArgs.

(* ===================================================================== *)
(** * Start-up                                                            *)
(* ===================================================================== *)

Section Main.
Context `{Runtime}.
Variable machine : Host.

Local Abbreviation default_listening :=
  (mkListening DEFAULT_LISTEN_HOST DEFAULT_LISTEN_PORT).
Local Abbreviation default_binding :=
  (mkBinding DEFAULT_BIND_ADDR DEFAULT_BIND_PORT).
Local Abbreviation started := (fun s => ServerStart s None).

(** The server [main] makes for the binding at index [i]. *)
Local Abbreviation server_of config :=
  (fun i b => mkServer i b (default default_listening (listenings config !! i))
                       config).

Lemma start_servers_all config todo : forall i servers,
  (forall j, (j < length todo)%nat -> host_start machine (i + j)%nat = true) ->
  start_servers machine config i todo servers
  = (started <$> imap (fun j => server_of config (i + j)%nat) todo,
     Serving (servers ++ imap (fun j => server_of config (i + j)%nat) todo)).
Proof.
  induction todo as [|b todo IH]; intros i servers Hstart.
  - simpl. by rewrite app_nil_r.
  - pose proof (Hstart 0%nat ltac:(simpl; lia)) as H0.
    rewrite Nat.add_0_r in H0. simpl. rewrite H0.
    rewrite (IH (S i)).
    2:{ intros j Hj. rewrite Nat.add_succ_l, <- Nat.add_succ_r.
        apply Hstart. simpl. lia. }
    rewrite Nat.add_0_r.
    assert (imap (fun j => server_of config (S i + j)%nat) todo
            = imap ((fun j => server_of config (i + j)%nat) ∘ S) todo) as ->.
    { apply imap_ext. intros j x _. simpl. by rewrite Nat.add_succ_r. }
    rewrite <- app_assoc.
    by destruct (listenings config !! i).
Qed.

Lemma start_servers_fails config todo : forall i servers k b,
  todo !! k = Some b ->
  host_start machine (i + k)%nat = false ->
  (forall j, (j < k)%nat -> host_start machine (i + j)%nat = true) ->
  start_servers machine config i todo servers
  = ((started <$> imap (fun j => server_of config (i + j)%nat) (take k todo))
     ++ [ServerStart (server_of config (i + k)%nat b) (Some RuntimeError)],
     Uncaught RuntimeError).
Proof.
  induction todo as [|b0 todo IH]; intros i servers k b Hk Hfail Hstart; [done|].
  destruct k as [|k].
  - injection Hk as ->. simpl. rewrite Nat.add_0_r in *. rewrite Hfail.
    by destruct (listenings config !! i).
  - pose proof (Hstart 0%nat ltac:(lia)) as H0.
    rewrite Nat.add_0_r in H0. simpl in Hk. simpl. rewrite H0.
    rewrite (IH (S i) _ k b Hk).
    2:{ by rewrite Nat.add_succ_l, <- Nat.add_succ_r. }
    2:{ intros j Hj. rewrite Nat.add_succ_l, <- Nat.add_succ_r.
        apply Hstart. lia. }
    rewrite Nat.add_0_r.
    assert (imap (fun j => server_of config (S i + j)%nat) (take k todo)
            = imap ((fun j => server_of config (i + j)%nat) ∘ S) (take k todo)) as ->.
    { apply imap_ext. intros j x _. simpl. by rewrite Nat.add_succ_r. }
    rewrite Nat.add_succ_l, <- Nat.add_succ_r.
    by destruct (listenings config !! i).
Qed.

(** X8.  Once the configuration is loaded, [main] starts one server
    for every binding and for nothing else, in the order of the indices:
    the server of binding [i] relays to listening [i], and to the fixed
    default 127.0.0.1:22 when the listenings are fewer; a listening
    whose index has no binding is served by nobody. *)
Theorem main_serves_every_binding (argv : list str) (out : list notice)
    (config : Config) :
  main_config machine argv = (out, Started config) ->
  (forall i, (i < length (bindings config))%nat -> host_start machine i = true) ->
  let servers := imap (server_of config) (bindings config) in
  main machine argv = (out ++ (started <$> servers), Serving servers).
Proof.
  intros Hconfig Hstart servers. unfold main. rewrite Hconfig.
  by rewrite (start_servers_all config (bindings config) 0 []).
Qed.

(** X9.  A server thread that cannot be started ends [main] with the
    [RuntimeError], which nobody catches: the servers of the bindings
    before it have been started and stay, those after it are never
    started. *)
Theorem main_thread_start_fails (argv : list str) (out : list notice)
    (config : Config) (k : nat) (b : Binding) :
  main_config machine argv = (out, Started config) ->
  bindings config !! k = Some b ->
  host_start machine k = false ->
  (forall j, (j < k)%nat -> host_start machine j = true) ->
  main machine argv
  = (out ++ (started <$> imap (server_of config) (take k (bindings config)))
         ++ [ServerStart (server_of config k b) (Some RuntimeError)],
     Uncaught RuntimeError).
Proof.
  intros Hconfig Hk Hfail Hstart. unfold main. rewrite Hconfig.
  by rewrite (start_servers_fails config (bindings config) 0 [] k b).
Qed.

(** What [load_config] gives for overrides at array indices, as a
    record. *)
Lemma load_config_started (file : option FileData)
    (cmd_bind cmd_listen : list (Z * str * Z)) :
  Forall (fun ov => (0 <= ov.1.1)%Z) cmd_bind ->
  Forall (fun ov => (0 <= ov.1.1)%Z) cmd_listen ->
  let base_b := from_option file_bindings [] file in
  let base_l := from_option file_listenings [] file in
  exists bs ls,
    load_config (Ok <$> file) cmd_bind cmd_listen
    = Started (mkConfig bs ls
                 (from_option (fun d => default BUFFER_SIZE (file_buffer d))
                              BUFFER_SIZE file)
                 TIMEOUT
                 (from_option (fun d => default RESPONSE (file_response d))
                              RESPONSE file))
    /\ length bs = resolved_length (length base_b) cmd_bind
    /\ (forall j, (j < length bs)%nat ->
          bs !! j = Some (resolved_entry mkBinding default_binding
                                         base_b cmd_bind j))
    /\ length ls = resolved_length (length base_l) cmd_listen
    /\ (forall j, (j < length ls)%nat ->
          ls !! j = Some (resolved_entry mkListening default_listening
                                         base_l cmd_listen j)).
Proof.
  intros Hb Hl base_b base_l.
  destruct (for_each_overrides mkBinding default_binding cmd_bind base_b Hb)
    as (bs & Hbs & Hblen & Hblook).
  destruct (for_each_overrides mkListening default_listening
              cmd_listen base_l Hl) as (ls & Hls & Hllen & Hllook).
  exists bs, ls. split; [|done].
  unfold load_config. subst base_b base_l.
  destruct file as [data|]; simpl in *; by rewrite Hbs, Hls.
Qed.

Lemma resolved_length_ge base overrides :
  (base <= resolved_length base overrides)%nat.
Proof.
  revert base. induction overrides as [|[[index a] p] rest IH]; intros base;
    simpl; [done|].
  etrans; [|apply IH]. lia.
Qed.

(** Beyond the resolved length there is no override and no base entry. *)
Lemma last_override_beyond overrides : forall base j,
  Forall (fun ov => (0 <= ov.1.1)%Z) overrides ->
  (resolved_length base overrides <= j)%nat ->
  last_override j overrides = None.
Proof.
  induction overrides as [|[[index a] p] rest IH]; intros base j Hall Hj;
    [done|].
  apply Forall_cons in Hall as [Hidx Hall]. simpl in *.
  rewrite (IH _ j Hall Hj).
  pose proof (resolved_length_ge (base `max` (Z.to_nat index + 1)) rest).
  destruct (Z.eqb_spec index (Z.of_nat j)); [lia|done].
Qed.

(** X10.  From the command line to the servers.  When [parse_args]
    returns, the file (if one is named) can be read and no index is
    negative, [main] starts a server for every index below the highest
    index bound (or the length of the file's bindings, if that is more).
    Server [j] binds the address of the last [-b] given for [j], else
    the file's binding [j], else 0.0.0.0:8880; it relays to the host of
    the last [-l] given for [j], else the file's listening [j], else
    127.0.0.1:22. *)
Theorem main_resolves_servers (argv : list str) (name : str)
    (cmd_bind cmd_listen : list (Z * str * Z)) (file : option FileData) :
  parse_args argv = ([], Started (name, cmd_bind, cmd_listen)) ->
  match name with
  | [] => None
  | _ :: _ => Some (host_file machine name)
  end = (Ok <$> file) ->
  Forall (fun ov => (0 <= ov.1.1)%Z) cmd_bind ->
  Forall (fun ov => (0 <= ov.1.1)%Z) cmd_listen ->
  (forall i, host_start machine i = true) ->
  let base_b := from_option file_bindings [] file in
  let base_l := from_option file_listenings [] file in
  exists out config servers,
    main machine argv = (out, Serving servers)
    /\ length servers = resolved_length (length base_b) cmd_bind
    /\ forall j, (j < length servers)%nat ->
         servers !! j
         = Some (mkServer j
                   (resolved_entry mkBinding default_binding base_b cmd_bind j)
                   (resolved_entry mkListening default_listening
                                   base_l cmd_listen j)
                   config).
Proof.
  intros Hargs Hfile Hb Hl Hstart base_b base_l.
  destruct (load_config_started file cmd_bind cmd_listen Hb Hl)
    as (bs & ls & Hload & Hblen & Hblook & Hllen & Hllook).
  fold base_b base_l in Hblen, Hblook, Hllen, Hllook.
  set (config := mkConfig bs ls _ _ _) in Hload.
  assert (exists out, main_config machine argv = (out, Started config))
    as [out Hconfig].
  { unfold main_config. rewrite Hargs. cbn [mbind Boot_bind]. rewrite Hfile.
    rewrite Hload. destruct file; simpl; eauto. }
  exists (out ++ (started <$> imap (server_of config) bs)), config,
         (imap (server_of config) bs).
  split; [|split].
  - unfold main. rewrite Hconfig.
    by rewrite (start_servers_all config (bindings config) 0 []).
  - by rewrite length_imap.
  - intros j Hj. rewrite length_imap in Hj.
    rewrite list_lookup_imap, (Hblook j Hj). simpl. do 2 f_equal.
    destruct (decide (j < length ls)%nat) as [Hin|Hout].
    + by rewrite (Hllook j Hin).
    + rewrite (proj2 (lookup_ge_None ls j)) by lia. simpl.
      unfold resolved_entry.
      rewrite (last_override_beyond cmd_listen (length base_l) j) by (done || lia).
      pose proof (resolved_length_ge (length base_l) cmd_listen).
      by rewrite (proj2 (lookup_ge_None base_l j)) by lia.
Qed.

(** X11.  A configuration file that cannot be opened or read ends the
    program with status 1 after one line that tells the error; no
    server is started, whatever [-b] and [-l] ask for. *)
Theorem main_config_file_error (argv : list str) (name : str)
    (cmd_bind cmd_listen : list (Z * str * Z)) (e : exn) :
  parse_args argv = ([], Started (name, cmd_bind, cmd_listen)) ->
  name <> [] ->
  host_file machine name = Raise e ->
  main machine argv = ([ConfigError e], Exited 1).
Proof.
  intros Hargs Hname Hfile. unfold main, main_config. rewrite Hargs.
  cbn [mbind Boot_bind]. destruct name as [|c name]; [done|].
  by rewrite Hfile.
Qed.

End Main.

(* ===================================================================== *)
(** * More on the configuration                                           *)
(* ===================================================================== *)

(** X12.  [load_config] takes only the buffer size and the response
    from the file, and nothing from the overrides: the time-out of
    every configuration it returns is the fixed 60 seconds. *)
Theorem load_config_keeps_settings (file : option FileData)
    (cmd_bind cmd_listen : list (Z * str * Z)) (config : Config) :
  load_config (Ok <$> file) cmd_bind cmd_listen = Started config ->
  buffer config = default BUFFER_SIZE (file ≫= file_buffer)
  /\ response config = default RESPONSE (file ≫= file_response)
  /\ timeout config = TIMEOUT.
Proof.
  unfold load_config.
  destruct file as [data|]; simpl;
    (destruct (for_each _ cmd_bind _); [|done]);
    (destruct (for_each _ cmd_listen _); [|done]);
    by intros [= <-].
Qed.

(** X13.  An override with a negative index never makes the array
    longer: it replaces the entry counted from the end of the array as
    it is then, and when the array is shorter than that the program ends
    with an [IndexError] that nobody catches. *)
Theorem load_config_index_below_zero (file : option FileData)
    (index : Z) (a : str) (p : Z) :
  (index < 0)%Z ->
  let base_b := from_option file_bindings [] file in
  let base_l := from_option file_listenings [] file in
  let others bs ls :=
    mkConfig bs ls (default BUFFER_SIZE (file ≫= file_buffer)) TIMEOUT
             (default RESPONSE (file ≫= file_response)) in
  load_config (Ok <$> file) [(index, a, p)] []
  = (if (- Z.of_nat (length base_b) <=? index)%Z
     then Started (others (<[Z.to_nat (Z.of_nat (length base_b) + index)
                             := mkBinding a p]> base_b) base_l)
     else Crashed IndexError)
  /\ load_config (Ok <$> file) [] [(index, a, p)]
     = (if (- Z.of_nat (length base_l) <=? index)%Z
        then Started (others base_b
                        (<[Z.to_nat (Z.of_nat (length base_l) + index)
                           := mkListening a p]> base_l))
        else Crashed IndexError).
Proof.
  intros Hneg base_b base_l others.
  assert (forall {A} (d x : A) (l : list A),
            extend_and_set d l index x
            = if (- Z.of_nat (length l) <=? index)%Z
              then Ok (<[Z.to_nat (Z.of_nat (length l) + index) := x]> l)
              else Raise IndexError) as Hset.
  { intros A d x l. unfold extend_and_set.
    replace (Z.to_nat (index + 1)) with 0%nat by lia. simpl.
    unfold list_setitem.
    destruct (Z.leb_spec 0 index); [lia|]. simpl.
    destruct (Z.ltb_spec index 0); [|lia]. by rewrite andb_true_r. }
  unfold load_config. subst base_b base_l others.
  destruct file as [data|]; simpl; rewrite !Hset;
    split; by destruct (_ <=? index)%Z.
Qed.

(* ===================================================================== *)
(** * Server threads                                                      *)
(* ===================================================================== *)

Section ServerFacts.
Variable net : Network.
Variable self : Server.

Local Abbreviation tick st := (length (server_trace st)).

Lemma thread_bind_run {A B} (m : Thread A) (k : A -> Thread B) st :
  (m ≫= k) st
  = match m st with
    | Ended (Returned a) st' => k a st'
    | Ended (Raised e) st' => Ended (Raised e) st'
    | Accepting st' => Accepting st'
    end.
Proof. reflexivity. Qed.

Lemma recorded_trace ev st :
  server_trace (recorded net ev st) = server_trace st ++ [ev].
Proof. unfold recorded. by destruct (net_stop net _). Qed.

Lemma recorded_running ev st :
  running (recorded net ev st) = running st && negb (net_stop net (tick st)).
Proof.
  unfold recorded. destruct (net_stop net _); simpl;
    by rewrite ?andb_false_r, ?andb_true_r.
Qed.

Lemma recorded_tick ev st : tick (recorded net ev st) = S (tick st).
Proof. rewrite recorded_trace, length_app. simpl. lia. Qed.

Lemma call_run ev st :
  call net ev st
  = Ended (match net_raises net (tick st) with
           | Some e => Raised e
           | None => Returned tt
           end)
          (recorded net (ev (net_raises net (tick st))) st).
Proof. unfold call. rewrite thread_bind_run. by destruct (net_raises net _). Qed.

Lemma accept_run st :
  accept net st
  = Ended (match net_raises net (tick st) with
           | Some e => Raised e
           | None => Returned (net_peer net (tick st))
           end)
          (recorded net (Accept (net_peer net (tick st))
                                (net_raises net (tick st))) st).
Proof. unfold accept. rewrite thread_bind_run. by destruct (net_raises net _). Qed.

Local Abbreviation entered := (listening_state net self).

Lemma setup_run fuel :
  (forall j, (j < 5)%nat -> net_raises net j = None) ->
  Server_run net self fuel Server_init
  = thread_finally (accept_while net self fuel)
                   (set_running false;; call net CloseSocket)
                   entered.
Proof.
  intros Hok. unfold Server_run.
  repeat (rewrite thread_bind_run, call_run, ?recorded_tick;
          cbn [length server_trace Server_init];
          rewrite Hok by lia).
  rewrite thread_bind_run. cbn [set_running].
  rewrite thread_bind_run. cbn [record].
  f_equal. unfold listening_state, setup_events.
  rewrite !recorded_trace. cbn [server_trace Server_init app].
  unfold recorded, stop. cbn [server_trace length app running].
  by destruct (net_stop net 5).
Qed.

Lemma recorded_all_trace evs : forall st,
  server_trace (recorded_all net evs st) = server_trace st ++ evs.
Proof.
  induction evs as [|ev evs IH]; intros st; simpl; [by rewrite app_nil_r|].
  unfold recorded_all in *. rewrite IH, recorded_trace.
  by rewrite <- app_assoc.
Qed.

Lemma recorded_all_running evs : forall st,
  running (recorded_all net evs st)
  = running st && unstopped net (tick st) (length evs).
Proof.
  induction evs as [|ev evs IH]; intros st; simpl; [by rewrite andb_true_r|].
  unfold recorded_all in *. rewrite IH, recorded_running, recorded_tick.
  unfold unstopped. simpl. by rewrite andb_assoc.
Qed.

(** One pass of the accept loop. *)
Lemma accept_pass_run st :
  accept_pass net self st
  = Ended (match pass_raised net (tick st) with
           | Some e => if is_socket_timeout e then Returned tt else Raised e
           | None => Returned tt
           end)
          (recorded_all net (pass_events net self (tick st)) st).
Proof.
  unfold accept_pass, except_timeout, pass_raised, pass_events, recorded_all.
  rewrite thread_bind_run, accept_run.
  destruct (net_raises net (tick st)) as [e|];
    [by destruct (is_socket_timeout e)|].
  rewrite thread_bind_run, call_run, recorded_tick.
  destruct (net_raises net (S (tick st))) as [e|];
    [by destruct (is_socket_timeout e)|].
  unfold handle_connection. rewrite call_run, !recorded_tick.
  destruct (net_raises net (S (S (tick st)))) as [e|]; [|done].
  by destruct (is_socket_timeout e).
Qed.

Lemma pass_events_length n :
  (1 <= length (pass_events net self n) <= 3)%nat.
Proof.
  unfold pass_events.
  destruct (net_raises net n); [simpl; lia|].
  destruct (net_raises net (S n)); simpl; lia.
Qed.

(** The only [accept] of a pass is its first call. *)
Lemma pass_events_accept n i ev :
  pass_events net self n !! i = Some ev -> is_accept ev = true -> i = 0%nat.
Proof.
  unfold pass_events. destruct i as [|i]; [done|]. simpl.
  destruct (net_raises net n); [done|].
  destruct i as [|i]; simpl; [by intros [= <-]|].
  destruct (net_raises net (S n)); [done|].
  destruct i as [|i]; simpl; [by intros [= <-]|done].
Qed.

Lemma unstopped_false k : forall n,
  unstopped net n k = false <->
  exists t, (n <= t < n + k)%nat /\ net_stop net t = true.
Proof.
  unfold unstopped. induction k as [|k IH]; intros n; simpl.
  - split; [done|]. intros (t & Ht & _). lia.
  - rewrite andb_false_iff, IH, negb_false_iff. split.
    + intros [Hn|(t & Ht & Hstop)]; [exists n|exists t]; split; auto; lia.
    + intros (t & Ht & Hstop). destruct (decide (t = n)) as [->|Hne];
        [by left|right]. exists t. split; [lia|done].
Qed.

Lemma unstopped_true n k :
  unstopped net n k = true <->
  forall t, (n <= t < n + k)%nat -> net_stop net t = false.
Proof.
  unfold unstopped. rewrite forallb_forall. split.
  - intros Hall t Ht. specialize (Hall t). rewrite in_seq in Hall.
    apply negb_true_iff, Hall. lia.
  - intros Hall t Ht. apply in_seq in Ht. apply negb_true_iff, Hall. lia.
Qed.

Lemma ServerState_eq st st' :
  running st = running st' -> server_trace st = server_trace st' -> st = st'.
Proof. destruct st, st'. simpl. by intros -> ->. Qed.

(** The state after one pass. *)
Local Abbreviation after_pass st :=
  (recorded_all net (pass_events net self (tick st)) st).

Lemma after_pass_tick st :
  tick (after_pass st) = (tick st + length (pass_events net self (tick st)))%nat.
Proof. by rewrite recorded_all_trace, length_app. Qed.

(** The loop, pass by pass. *)
Lemma accept_while_S fuel st :
  accept_while net self (S fuel) st
  = if running st then
      match pass_raised net (tick st) with
      | Some e =>
        if is_socket_timeout e then accept_while net self fuel (after_pass st)
        else Ended (Raised e) (after_pass st)
      | None => accept_while net self fuel (after_pass st)
      end
    else Ended (Returned tt) st.
Proof.
  cbn [accept_while]. destruct (running st); [|done].
  rewrite thread_bind_run, accept_pass_run.
  destruct (pass_raised net (tick st)) as [e|]; [|done].
  by destruct (is_socket_timeout e).
Qed.

(** The loop only adds events. *)
Lemma accept_while_trace fuel : forall st,
  server_trace st `prefix_of`
    server_trace (thread_state (accept_while net self fuel st)).
Proof.
  induction fuel as [|fuel IH]; intros st; [done|].
  rewrite accept_while_S. destruct (running st); [|done].
  assert (server_trace st `prefix_of` server_trace (after_pass st)) as Hpass.
  { rewrite recorded_all_trace. by apply prefix_app_r. }
  destruct (pass_raised net (tick st)) as [e|];
    [destruct (is_socket_timeout e)|]; try done; by etrans; [|apply IH].
Qed.

(** X14.  When one of the five calls that set the listening socket up
    raises, [Server.run] ends with that exception at once: the calls
    made are those up to the one that raised, the socket (if there is
    one) is not closed, and [running] has never been set. *)
Theorem server_setup_failure (fuel k : nat) (e : failure) :
  (k < 5)%nat ->
  net_raises net k = Some e ->
  (forall j, (j < k)%nat -> net_raises net j = None) ->
  Server_run net self fuel Server_init
  = Ended (Raised e)
          {| running := false;
             server_trace := take (S k) (setup_events self (net_raises net)) |}.
Proof.
  intros Hk Hfail Hok. unfold Server_run.
  do 5 (try destruct k as [|k]); [..|lia];
    repeat (rewrite thread_bind_run, call_run, ?recorded_tick;
            cbn [length server_trace Server_init];
            first [rewrite Hfail | rewrite Hok by lia]);
    (f_equal; apply ServerState_eq;
     [rewrite !recorded_running; cbn [running Server_init]; done
     |rewrite !recorded_trace; cbn [server_trace Server_init app];
      unfold setup_events; cbn [take];
      rewrite ?Hfail; repeat (rewrite Hok by lia); done]).
Qed.

(** When the loop returns, a [stop()] has come. *)
Lemma accept_while_returned fuel : forall st st',
  accept_while net self fuel st = Ended (Returned tt) st' ->
  running st' = false
  /\ (running st = true ->
      exists t, (tick st <= t < tick st')%nat /\ net_stop net t = true).
Proof.
  induction fuel as [|fuel IH]; intros st st'; [done|].
  rewrite accept_while_S. destruct (running st) eqn:Hrun;
    [|by intros [= <-]].
  assert (accept_while net self fuel (after_pass st) = Ended (Returned tt) st'
          -> running st' = false
             /\ (true = true ->
                 exists t, (tick st <= t < tick st')%nat /\ net_stop net t = true))
    as Hnext.
  { intros Hloop. destruct (IH _ _ Hloop) as [Hstopped Hwhen].
    split; [done|]. intros _.
    pose proof (accept_while_trace fuel (after_pass st)) as Hpre.
    rewrite Hloop in Hpre. apply prefix_length in Hpre. cbn [thread_state] in Hpre.
    pose proof (after_pass_tick st) as Htick.
    destruct (running (after_pass st)) eqn:Hrun'.
    - destruct (Hwhen eq_refl) as (t & Ht & Hstop). exists t. split; [lia|done].
    - rewrite recorded_all_running, Hrun, andb_true_l in Hrun'.
      apply unstopped_false in Hrun' as (t & Ht & Hstop).
      exists t. split; [lia|done]. }
  destruct (pass_raised net (tick st)) as [e|];
    [destruct (is_socket_timeout e)|]; done.
Qed.

(** When the loop ends with an exception, the last call of a pass
    raised it and it is no time-out. *)
Lemma accept_while_raised fuel : forall st e st',
  accept_while net self fuel st = Ended (Raised e) st' ->
  is_socket_timeout e = false
  /\ (tick st < tick st')%nat
  /\ net_raises net (tick st' - 1) = Some e.
Proof.
  induction fuel as [|fuel IH]; intros st e st'; [done|].
  rewrite accept_while_S. destruct (running st); [|done].
  pose proof (after_pass_tick st) as Htick.
  pose proof (pass_events_length (tick st)) as Hlen.
  assert (accept_while net self fuel (after_pass st) = Ended (Raised e) st'
          -> is_socket_timeout e = false /\ (tick st < tick st')%nat
             /\ net_raises net (tick st' - 1) = Some e) as Hnext.
  { intros Hloop. destruct (IH _ _ _ Hloop) as (He & Hlt & Hraise).
    split; [done|]. split; [lia|done]. }
  destruct (pass_raised net (tick st)) as [e1|] eqn:Hpass; [|done].
  destruct (is_socket_timeout e1) eqn:He1; [done|].
  intros Heq.
  assert (e = e1 /\ st' = after_pass st) as [-> ->] by (by injection Heq).
  clear Heq Hnext. split; [done|]. split; [lia|].
  rewrite Htick. unfold pass_raised, pass_events in *.
  destruct (net_raises net (tick st)) as [e0|] eqn:H0.
  { injection Hpass as ->. simpl. by rewrite Nat.add_sub. }
  destruct (net_raises net (S (tick st))) as [e0|] eqn:H1.
  { injection Hpass as ->. simpl.
    by replace (tick st + 2 - 1)%nat with (S (tick st)) by lia. }
  simpl. by replace (tick st + 3 - 1)%nat with (S (S (tick st))) by lia.
Qed.

(** X15.  After a set-up without failure, [Server.run] ends only with
    its socket closed and [running] unset: the last call is the [close]
    of the listening socket.  It returns normally only if [stop()] was
    called once the server was set up; and an exception it ends with is
    the one the last call of the loop, or else [close], raised, never a
    [socket.timeout] of the loop. *)
Theorem server_run_ends (fuel : nat) (r : thread_result unit)
    (st : ServerState) :
  (forall j, (j < 5)%nat -> net_raises net j = None) ->
  Server_run net self fuel Server_init = Ended r st ->
  let n := tick st in
  running st = false
  /\ last (server_trace st) = Some (CloseSocket (net_raises net (n - 1)))
  /\ (r = Returned tt ->
      net_raises net (n - 1) = None
      /\ exists t, (5 <= t < n - 1)%nat /\ net_stop net t = true)
  /\ (forall e, r = Raised e ->
      net_raises net (n - 1) = Some e
      \/ net_raises net (n - 1) = None
         /\ net_raises net (n - 2) = Some e /\ is_socket_timeout e = false).
Proof.
  intros Hok. rewrite setup_run by done. unfold thread_finally.
  destruct (accept_while net self fuel entered) as [r0 st0|] eqn:Hloop;
    [|done].
  rewrite thread_bind_run. cbn [set_running]. rewrite call_run.
  cbn [server_trace].
  set (closed := recorded net _ _).
  assert (tick closed = S (tick st0)) as Htick.
  { unfold closed. by rewrite recorded_tick. }
  assert (running closed = false) as Hrun.
  { unfold closed. by rewrite recorded_running. }
  assert (last (server_trace closed)
          = Some (CloseSocket (net_raises net (tick st0)))) as Hlast.
  { unfold closed. rewrite recorded_trace. apply last_snoc. }
  assert (forall r', Ended r' closed = Ended r st -> r' = r /\ closed = st)
    as Hinv by (by intros r' [= -> ->]).
  intros Hend.
  assert (closed = st) as Hst.
  { destruct (net_raises net (tick st0)), r0 as [[]|e0];
      by apply Hinv in Hend as [_ ?]. }
  rewrite <- Hst, Htick. simpl. rewrite Nat.sub_0_r.
  split; [done|]. split; [done|]. split.
  - intros ->. destruct (net_raises net (tick st0)) as [e1|] eqn:Hclose.
    { by destruct r0 as [[]|e0]. }
    split; [done|]. destruct r0 as [[]|e0]; [|done].
    destruct (accept_while_returned _ _ _ Hloop) as [_ Hwhen].
    destruct (running entered) eqn:Hrun0.
    + destruct (Hwhen eq_refl) as (t & Ht & Hstop). exists t.
      split; [|done]. unfold listening_state in Ht. simpl in Ht. lia.
    + exists 5%nat. pose proof (accept_while_trace fuel entered) as Hpre.
      rewrite Hloop in Hpre. apply prefix_length in Hpre.
      unfold listening_state in Hpre. simpl in Hpre.
      split; [lia|]. unfold listening_state in Hrun0. simpl in Hrun0.
      by apply negb_false_iff.
  - intros e ->. destruct (net_raises net (tick st0)) as [e1|] eqn:Hclose.
    { left. by destruct r0 as [[]|e0]; injection Hend as ->. }
    right. split; [done|]. destruct r0 as [[]|e0]; [done|].
    injection Hend as ->.
    destruct (accept_while_raised _ _ _ _ Hloop) as (He & Hlt & Hraise).
    split; [|done]. by replace (S (tick st0) - 2)%nat with (tick st0 - 1)%nat by lia.
Qed.

(** The trace and the end of [Server.run] after a set-up without
    failure, from those of the loop. *)
Lemma server_run_trace fuel :
  (forall j, (j < 5)%nat -> net_raises net j = None) ->
  let looped := accept_while net self fuel entered in
  let finished := Server_run net self fuel Server_init in
  match looped with
  | Ended r0 st0 =>
    exists r, finished
              = Ended r (recorded net (CloseSocket (net_raises net (tick st0)))
                                  (stop st0))
  | Accepting st0 => finished = Accepting st0
  end.
Proof.
  intros Hok looped finished. subst looped finished.
  rewrite setup_run by done. unfold thread_finally.
  destruct (accept_while net self fuel entered) as [r0 st0|]; [|done].
  rewrite thread_bind_run. cbn [set_running]. rewrite call_run.
  cbn [server_trace]. unfold stop.
  destruct (net_raises net (tick st0)); eauto.
Qed.

(** After a [stop()] that the loop has seen or will see, there is no
    further [accept]. *)
Lemma accept_while_no_accept t fuel : forall st i ev,
  net_stop net t = true ->
  ((t < tick st)%nat -> running st = false) ->
  server_trace (thread_state (accept_while net self fuel st)) !! i = Some ev ->
  is_accept ev = true ->
  (tick st <= i)%nat -> (i <= t)%nat.
Proof.
  intros st i ev Hstop. revert st.
  induction fuel as [|fuel IH]; intros st Hseen Hev Hacc Hi.
  { apply lookup_lt_Some in Hev. simpl in Hev. lia. }
  rewrite accept_while_S in Hev.
  destruct (running st) eqn:Hrun;
    [|apply lookup_lt_Some in Hev; simpl in Hev; lia].
  assert (t >= tick st)%nat as Ht.
  { destruct (decide (t < tick st)%nat) as [Hlt|]; [|lia].
    pose proof (Hseen Hlt). congruence. }
  pose proof (after_pass_tick st) as Htick.
  assert ((i < tick (after_pass st))%nat ->
          server_trace (after_pass st) !! i = Some ev -> (i <= t)%nat) as Hpass.
  { intros Hlt Hin. rewrite recorded_all_trace, lookup_app_r in Hin by lia.
    apply pass_events_accept in Hin; [lia|done]. }
  assert (server_trace
            (thread_state (accept_while net self fuel (after_pass st))) !! i
          = Some ev -> (i <= t)%nat) as Hnext.
  { intros Hin. destruct (decide (i < tick (after_pass st))%nat) as [Hlt|Hge].
    - apply (Hpass Hlt).
      destruct (accept_while_trace fuel (after_pass st)) as [evs Hevs].
      rewrite Hevs, lookup_app_l in Hin by done. done.
    - apply (IH (after_pass st)); [|done|done|lia].
      intros Hlt. rewrite recorded_all_running, Hrun, andb_true_l.
      apply unstopped_false. exists t. split; [lia|done]. }
  destruct (pass_raised net (tick st)) as [e|];
    [destruct (is_socket_timeout e)|]; auto.
  simpl in Hev. apply Hpass; [|done]. by apply lookup_lt_Some in Hev.
Qed.

(** X16.  Once [stop()] has been called on a server that is set up,
    the server accepts no further connection: every [accept] in its
    trace was begun before the call of [stop()] ended (the connection
    that an [accept] under way delivers is still served). *)
Theorem no_accept_after_stop (fuel t i : nat) (addr : str * Z)
    (raised : option failure) :
  (forall j, (j < 5)%nat -> net_raises net j = None) ->
  (5 <= t)%nat -> net_stop net t = true ->
  server_trace (thread_state (Server_run net self fuel Server_init)) !! i
  = Some (Accept addr raised) ->
  (i <= t)%nat.
Proof.
  intros Hok Ht Hstop Hev.
  assert (forall st0,
            st0 = thread_state (accept_while net self fuel entered) ->
            server_trace st0 !! i = Some (Accept addr raised) -> (i <= t)%nat)
    as Hloop.
  { intros st0 -> Hin.
    destruct (decide (i < 6)%nat) as [Hsetup|Hge].
    - destruct (accept_while_trace fuel entered) as [evs Hevs].
      rewrite Hevs, lookup_app_l in Hin by (simpl; lia).
      unfold listening_state, setup_events in Hin. simpl in Hin.
      by do 6 (destruct i as [|i]; [done|]).
    - apply (accept_while_no_accept t fuel entered i
                                    (Accept addr raised) Hstop);
        [|done|done|simpl; lia].
      intros Hlt. simpl in *. assert (t = 5)%nat as -> by lia.
      by rewrite Hstop. }
  pose proof (server_run_trace fuel Hok) as Hrun. simpl in Hrun.
  destruct (accept_while net self fuel entered) as [r0 st0|st0]
    eqn:Hwhile.
  - destruct Hrun as [r Hrun]. rewrite Hrun in Hev. simpl in Hev.
    rewrite recorded_trace in Hev. simpl in Hev.
    apply lookup_app_Some in Hev as [Hev|[_ Hev]]; [by apply (Hloop st0)|].
    by destruct (i - tick st0)%nat as [|k]; [|destruct k].
  - rewrite Hrun in Hev. by apply (Hloop st0).
Qed.

Lemma pass_raised_cases n e :
  pass_raised net n = Some e ->
  net_raises net n = Some e \/ net_raises net (S n) = Some e
  \/ net_raises net (S (S n)) = Some e.
Proof.
  unfold pass_raised. destruct (net_raises net n); [by intros [= ->]; left|].
  destruct (net_raises net (S n)); [by intros [= ->]; right; left|auto].
Qed.

(** Without a [stop()] and with nothing worse than time-outs, the loop
    goes on. *)
Lemma accept_while_forever fuel : forall st,
  (forall t, (tick st <= t)%nat -> net_stop net t = false) ->
  (forall t, (tick st <= t)%nat -> ~ fatal (net_raises net t)) ->
  running st = true ->
  exists st', accept_while net self fuel st = Accepting st'
              /\ running st' = true.
Proof.
  induction fuel as [|fuel IH]; intros st Hnostop Hnofatal Hrun; [by exists st|].
  rewrite accept_while_S, Hrun.
  pose proof (after_pass_tick st) as Htick.
  assert (exists st', accept_while net self fuel (after_pass st) = Accepting st'
                      /\ running st' = true) as Hnext.
  { apply IH.
    - intros t Ht. apply Hnostop. lia.
    - intros t Ht. apply Hnofatal. lia.
    - rewrite recorded_all_running, Hrun, andb_true_l.
      apply unstopped_true. intros t Ht. apply Hnostop. lia. }
  destruct (pass_raised net (tick st)) as [e|] eqn:Hpass; [|done].
  destruct (is_socket_timeout e) eqn:He; [done|]. exfalso.
  destruct (pass_raised_cases _ _ Hpass) as [Hr|[Hr|Hr]];
    [apply (Hnofatal (tick st))|apply (Hnofatal (S (tick st)))
     |apply (Hnofatal (S (S (tick st))))]; try lia; by exists e.
Qed.

(** X17.  A [stop()] that comes while the server is still setting its
    socket up is lost, because [run] sets [running] afterwards: if no
    other [stop()] follows and no call fails with anything but a
    time-out, the server accepts for ever. *)
Theorem stop_during_setup_is_lost (fuel : nat) :
  (forall j, (j < 5)%nat -> net_raises net j = None) ->
  (forall t, net_stop net t = true -> (t < 5)%nat) ->
  (forall t, (6 <= t)%nat -> ~ fatal (net_raises net t)) ->
  exists st, Server_run net self fuel Server_init = Accepting st
             /\ running st = true.
Proof.
  intros Hok Hstops Hnofatal.
  assert (forall t, (5 <= t)%nat -> net_stop net t = false) as Hnostop.
  { intros t Ht. destruct (net_stop net t) eqn:Hstop; [|done].
    apply Hstops in Hstop. lia. }
  destruct (accept_while_forever fuel entered) as (st & Hloop & Hrun).
  - intros t Ht. apply Hnostop. simpl in Ht. lia.
  - intros t Ht. apply Hnofatal. simpl in Ht. lia.
  - simpl. by rewrite Hnostop.
  - exists st. split; [|done].
    pose proof (server_run_trace fuel Hok) as Hend. simpl in Hend.
    by rewrite Hloop in Hend.
Qed.

(** The loop up to the first call that fails with something else than
    a time-out. *)
Lemma accept_while_fatal t e fuel : forall st,
  net_raises net t = Some e -> is_socket_timeout e = false ->
  (forall j, (tick st <= j <= t)%nat -> net_stop net j = false) ->
  (forall j, (tick st <= j < t)%nat -> ~ fatal (net_raises net j)) ->
  running st = true ->
  (tick st <= t)%nat -> (t < fuel + tick st)%nat ->
  exists st', accept_while net self fuel st = Ended (Raised e) st'
              /\ tick st' = S t /\ running st' = true.
Proof.
  intros st Hfail He. revert st.
  induction fuel as [|fuel IH]; intros st Hnostop Hnofatal Hrun Hle Hfuel;
    [lia|].
  rewrite accept_while_S, Hrun.
  pose proof (after_pass_tick st) as Htick.
  assert (forall k, (tick st + k <= S t)%nat ->
            running (recorded_all net (pass_events net self (tick st)) st) = true
            \/ length (pass_events net self (tick st)) <> k) as Hrunning.
  { intros k Hk. destruct (decide (length (pass_events net self (tick st)) = k))
      as [Hlen|]; [left|by right].
    rewrite recorded_all_running, Hrun, andb_true_l.
    apply unstopped_true. intros j Hj. apply Hnostop. lia. }
  assert (forall j e', (tick st <= j < t)%nat -> net_raises net j = Some e' ->
            is_socket_timeout e' = true) as Htimeout.
  { intros j e' Hj Hraise. destruct (is_socket_timeout e') eqn:He'; [done|].
    exfalso. apply (Hnofatal j Hj). by exists e'. }
  assert (forall k, length (pass_events net self (tick st)) = k ->
            (tick st + k <= t)%nat ->
            exists st', accept_while net self fuel (after_pass st)
                        = Ended (Raised e) st'
                        /\ tick st' = S t /\ running st' = true) as Hnext.
  { intros k Hlen Hk. apply IH.
    - intros j Hj. apply Hnostop. lia.
    - intros j Hj. apply Hnofatal. lia.
    - destruct (Hrunning k) as [?|?]; [lia|done|done].
    - lia.
    - pose proof (pass_events_length (tick st)). lia. }
  assert (forall k, length (pass_events net self (tick st)) = k ->
            (tick st + k = S t)%nat ->
            exists st', @Ended unit (Raised e) (after_pass st)
                        = Ended (Raised e) st'
                        /\ tick st' = S t /\ running st' = true) as Hhere.
  { intros k Hlen Hk. exists (after_pass st). split; [done|]. split; [lia|].
    destruct (Hrunning k) as [?|?]; [lia|done|done]. }
  unfold pass_raised, pass_events in *.
  destruct (net_raises net (tick st)) as [e0|] eqn:H0.
  { destruct (decide (tick st = t)) as [Heq|Hne].
    - rewrite Heq, Hfail in H0. injection H0 as <-. rewrite He.
      apply (Hhere 1%nat); [done|lia].
    - rewrite (Htimeout (tick st) e0) by (done || lia).
      apply (Hnext 1%nat); [done|lia]. }
  assert (tick st <> t) as Hne0 by (intros Heq; by rewrite Heq, Hfail in H0).
  destruct (net_raises net (S (tick st))) as [e1|] eqn:H1.
  { destruct (decide (S (tick st) = t)) as [Heq|Hne].
    - rewrite Heq, Hfail in H1. injection H1 as <-. rewrite He.
      apply (Hhere 2%nat); [done|lia].
    - rewrite (Htimeout (S (tick st)) e1) by (done || lia).
      apply (Hnext 2%nat); [done|lia]. }
  assert (S (tick st) <> t) as Hne1 by (intros Heq; by rewrite Heq, Hfail in H1).
  destruct (net_raises net (S (S (tick st)))) as [e2|] eqn:H2.
  { destruct (decide (S (S (tick st)) = t)) as [Heq|Hne].
    - rewrite Heq, Hfail in H2. injection H2 as <-. rewrite He.
      apply (Hhere 3%nat); [done|lia].
    - rewrite (Htimeout (S (S (tick st))) e2) by (done || lia).
      apply (Hnext 3%nat); [done|lia]. }
  assert (S (S (tick st)) <> t) as Hne2
    by (intros Heq; by rewrite Heq, Hfail in H2).
  apply (Hnext 3%nat); [done|lia].
Qed.

(** X18.  The first call of the accept loop that fails with anything
    but a time-out ends the server for good: the thread closes its
    socket, makes no other call, and ends with the exception (or with
    the one [close] raises).  The binding stays unserved; nothing
    restarts it. *)
Theorem server_dies_of_first_failure (fuel t : nat) (e : failure) :
  (forall j, (j < 5)%nat -> net_raises net j = None) ->
  (6 <= t)%nat -> net_raises net t = Some e -> is_socket_timeout e = false ->
  (forall j, (6 <= j < t)%nat -> ~ fatal (net_raises net j)) ->
  (forall j, (5 <= j <= t)%nat -> net_stop net j = false) ->
  (t < fuel + 6)%nat ->
  exists st,
    Server_run net self fuel Server_init
    = Ended (Raised (default e (net_raises net (S t)))) st
    /\ tick st = S (S t)
    /\ last (server_trace st) = Some (CloseSocket (net_raises net (S t)))
    /\ running st = false.
Proof.
  intros Hok Ht Hfail He Hnofatal Hnostop Hfuel.
  destruct (accept_while_fatal t e fuel entered Hfail He)
    as (st0 & Hloop & Htick & Hrun); simpl; auto.
  { intros j Hj. apply Hnostop. lia. }
  { rewrite Hnostop by lia. done. }
  rewrite setup_run by done. unfold thread_finally. rewrite Hloop.
  rewrite thread_bind_run. cbn [set_running]. rewrite call_run.
  cbn [server_trace]. rewrite Htick.
  exists (recorded net (CloseSocket (net_raises net (S t))) (stop st0)).
  split; [by destruct (net_raises net (S t))|].
  rewrite recorded_tick, recorded_trace, recorded_running. simpl.
  rewrite Htick. split; [done|]. split; [apply last_snoc|done].
Qed.

(** A [stop()] ends the loop within the pass that is under way. *)
Lemma accept_while_stops t fuel : forall st,
  net_stop net t = true ->
  ((t < tick st)%nat -> running st = false) ->
  (1 <= fuel)%nat -> (t + 1 < fuel + tick st)%nat ->
  exists r st', accept_while net self fuel st = Ended r st'
                /\ (tick st' <= tick st `max` (t + 3))%nat.
Proof.
  intros st Hstop. revert st.
  induction fuel as [|fuel IH]; intros st Hseen Hone Hfuel; [lia|].
  rewrite accept_while_S.
  destruct (running st) eqn:Hrun; [|exists (Returned tt), st; split; [done|lia]].
  assert (tick st <= t)%nat as Ht.
  { destruct (decide (t < tick st)%nat) as [Hlt|]; [|lia].
    pose proof (Hseen Hlt). congruence. }
  pose proof (after_pass_tick st) as Htick.
  pose proof (pass_events_length (tick st)) as Hlen.
  assert (exists r st', accept_while net self fuel (after_pass st) = Ended r st'
                        /\ (tick st' <= tick st `max` (t + 3))%nat) as Hnext.
  { destruct (IH (after_pass st)) as (r & st' & Hloop & Hbound).
    - intros Hlt. rewrite recorded_all_running, Hrun, andb_true_l.
      apply unstopped_false. exists t. split; [lia|done].
    - lia.
    - lia.
    - exists r, st'. split; [done|lia]. }
  destruct (pass_raised net (tick st)) as [e|]; [|done].
  destruct (is_socket_timeout e); [done|].
  exists (Raised e), (after_pass st). split; [done|lia].
Qed.

(** X19.  A [stop()] that comes once the server is set up ends the
    thread: it finishes at most the pass that is under way (two more
    calls) and closes its socket, whatever the network does. *)
Theorem stop_ends_server (fuel t : nat) :
  (forall j, (j < 5)%nat -> net_raises net j = None) ->
  (5 <= t)%nat -> net_stop net t = true ->
  (t < fuel + 5)%nat ->
  exists r st,
    Server_run net self fuel Server_init = Ended r st
    /\ (tick st <= t + 4)%nat
    /\ last (server_trace st) = Some (CloseSocket (net_raises net (tick st - 1)))
    /\ running st = false.
Proof.
  intros Hok Ht Hstop Hfuel.
  destruct (accept_while_stops t fuel entered Hstop)
    as (r0 & st0 & Hloop & Hbound); simpl; try lia.
  { intros Hlt. assert (t = 5)%nat as -> by lia. by rewrite Hstop. }
  pose proof (server_run_trace fuel Hok) as Hend. simpl in Hend.
  rewrite Hloop in Hend. destruct Hend as [r Hend].
  eexists r, _. split; [exact Hend|].
  rewrite recorded_tick, recorded_trace, recorded_running. simpl in *.
  split; [lia|]. rewrite Nat.sub_0_r. split; [apply last_snoc|done].
Qed.

(** A handler is started only as the third call of a pass, for the
    connection that the first call accepted. *)
Lemma pass_events_handler n k addr l c raised :
  pass_events net self n !! k = Some (HandlerStart addr l c raised) ->
  k = 2%nat
  /\ pass_events net self n !! 0%nat = Some (Accept addr None)
  /\ pass_events net self n !! 1%nat = Some (ClientSetblocking None)
  /\ l = server_listening self /\ c = server_config self.
Proof.
  unfold pass_events. destruct k as [|k]; [done|]. simpl.
  destruct (net_raises net n); [done|].
  destruct k as [|k]; [done|]. simpl.
  destruct (net_raises net (S n)); [done|].
  destruct k as [|k]; [|done]. simpl. by intros [= <- <- <- <-].
Qed.

Lemma accept_while_handler fuel : forall st i addr l c raised,
  let final := server_trace (thread_state (accept_while net self fuel st)) in
  final !! i = Some (HandlerStart addr l c raised) ->
  (tick st <= i)%nat ->
  (tick st + 2 <= i)%nat
  /\ final !! (i - 2)%nat = Some (Accept addr None)
  /\ final !! (i - 1)%nat = Some (ClientSetblocking None)
  /\ l = server_listening self /\ c = server_config self.
Proof.
  induction fuel as [|fuel IH]; intros st i addr l c raised final Hev Hi.
  { apply lookup_lt_Some in Hev. subst final. simpl in Hev. lia. }
  subst final. rewrite accept_while_S in *.
  destruct (running st) eqn:Hrun;
    [|apply lookup_lt_Some in Hev; simpl in Hev; lia].
  pose proof (after_pass_tick st) as Htick.
  assert (forall final,
            server_trace (after_pass st) `prefix_of` final ->
            final !! i = Some (HandlerStart addr l c raised) ->
            (i < tick (after_pass st))%nat ->
            (tick st + 2 <= i)%nat
            /\ final !! (i - 2)%nat = Some (Accept addr None)
            /\ final !! (i - 1)%nat = Some (ClientSetblocking None)
            /\ l = server_listening self /\ c = server_config self) as Hpass.
  { intros final [evs ->] Hin Hlt.
    rewrite lookup_app_l in Hin by done.
    rewrite recorded_all_trace, lookup_app_r in Hin by lia.
    apply pass_events_handler in Hin as (Hk & H0 & H1 & -> & ->).
    assert (i = tick st + 2)%nat as -> by lia.
    split; [lia|]. rewrite recorded_all_trace.
    pose proof (lookup_lt_Some _ _ _ H1) as Hlen.
    rewrite <- !app_assoc.
    split; [|split; [|done]].
    - rewrite lookup_app_r by lia. rewrite lookup_app_l by lia.
      by replace (tick st + 2 - 2 - tick st)%nat with 0%nat by lia.
    - rewrite lookup_app_r by lia. rewrite lookup_app_l by lia.
      by replace (tick st + 2 - 1 - tick st)%nat with 1%nat by lia. }
  assert (server_trace
            (thread_state (accept_while net self fuel (after_pass st))) !! i
          = Some (HandlerStart addr l c raised) ->
          (tick st + 2 <= i)%nat
          /\ server_trace
               (thread_state (accept_while net self fuel (after_pass st)))
             !! (i - 2)%nat = Some (Accept addr None)
          /\ server_trace
               (thread_state (accept_while net self fuel (after_pass st)))
             !! (i - 1)%nat = Some (ClientSetblocking None)
          /\ l = server_listening self /\ c = server_config self) as Hnext.
  { intros Hin. destruct (decide (i < tick (after_pass st))%nat) as [Hlt|Hge].
    - apply Hpass; [apply accept_while_trace|done|done].
    - destruct (IH (after_pass st) i addr l c raised Hin) as (Hle & Hrest);
        [lia|].
      split; [lia|done]. }
  destruct (pass_raised net (tick st)) as [e|];
    [destruct (is_socket_timeout e)|]; auto.
  simpl in *. apply Hpass; [done|done|by apply lookup_lt_Some in Hev].
Qed.

(** X28.  A server starts a handler only for a connection it has just
    accepted: the start of a handler is the third call of a pass, after
    the [accept] that returned the address the handler is made for and
    the switch of the new socket to blocking mode; and the handler gets
    the default target and the configuration of this server. *)
Theorem handler_follows_accept (fuel i : nat) (addr : str * Z)
    (l : Listening) (c : Config) (raised : option failure) :
  (forall j, (j < 5)%nat -> net_raises net j = None) ->
  let final := server_trace (thread_state (Server_run net self fuel
                                                      Server_init)) in
  final !! i = Some (HandlerStart addr l c raised) ->
  final !! (i - 2)%nat = Some (Accept addr None)
  /\ final !! (i - 1)%nat = Some (ClientSetblocking None)
  /\ l = server_listening self /\ c = server_config self.
Proof.
  intros Hok final Hev.
  assert (forall looped,
            looped = server_trace
                       (thread_state (accept_while net self fuel entered)) ->
            looped `prefix_of` final ->
            looped !! i = Some (HandlerStart addr l c raised) ->
            final !! (i - 2)%nat = Some (Accept addr None)
            /\ final !! (i - 1)%nat = Some (ClientSetblocking None)
            /\ l = server_listening self /\ c = server_config self) as Hloop.
  { intros looped -> [evs Hevs] Hin.
    destruct (decide (i < 6)%nat) as [Hsetup|Hge].
    { destruct (accept_while_trace fuel entered) as [evs' Hevs'].
      rewrite Hevs', lookup_app_l in Hin by (simpl; lia).
      unfold listening_state, setup_events in Hin. simpl in Hin.
      by do 6 (destruct i as [|i]; [done|]). }
    destruct (accept_while_handler fuel entered i addr l c raised Hin)
      as (Hle & H2 & H1 & Hl & Hc); [simpl; lia|].
    rewrite Hevs. split; [|split; [|done]].
    - by apply lookup_app_l_Some.
    - by apply lookup_app_l_Some. }
  pose proof (server_run_trace fuel Hok) as Hrun. simpl in Hrun.
  subst final.
  destruct (accept_while net self fuel entered) as [r0 st0|st0] eqn:Hwhile.
  - destruct Hrun as [r Hrun]. rewrite Hrun in *. simpl thread_state in *.
    rewrite recorded_trace in *. simpl server_trace in *.
    apply lookup_app_Some in Hev as [Hev|[_ Hev]].
    + apply (Hloop (server_trace st0)); [done|by apply prefix_app_r|done].
    + by destruct (i - tick st0)%nat as [|k]; [|destruct k].
  - rewrite Hrun in *. by apply (Hloop (server_trace st0)).
Qed.

End ServerFacts.

(* ===================================================================== *)
(** * More on sessions                                                    *)
(* ===================================================================== *)

Lemma forwards_app evs1 evs2 :
  forwards evs1 -> forwards evs2 -> forwards (evs1 ++ evs2).
Proof. induction 1; simpl; auto using forwards. Qed.

#[local] Instance forwarding_preorder : PreOrder forwarding.
Proof.
  split.
  - intros st. exists []. split; [by rewrite app_nil_r|constructor].
  - intros st1 st2 st3 (evs1 & H1 & Hf1) (evs2 & H2 & Hf2).
    exists (evs1 ++ evs2). split; [|by apply forwards_app].
    by rewrite H2, H1, app_assoc.
Qed.

Lemma forwarding_event ev st :
  moves_bytes ev = false -> forwarding st (add_event ev st).
Proof. intros Hev. exists [ev]. split; [done|]. by repeat constructor. Qed.

Section Forwarding.
Context `{Runtime}.
Variable env : Env.
Variable config : Config.

Lemma forwarding_emit ev : moves_bytes ev = false -> stable forwarding (emit ev).
Proof. intros Hev st. by apply forwarding_event. Qed.

Lemma forwarding_modify f :
  (forall st, trace (f st) = trace st) -> stable forwarding (modify f).
Proof.
  intros Hf st. exists []. simpl. split; [by rewrite Hf, app_nil_r|constructor].
Qed.

Lemma forwarding_set_buffer who b : stable forwarding (modify (set_buffer who b)).
Proof. apply forwarding_modify. by destruct who. Qed.

Lemma forwarding_setblocking who : stable forwarding (sock_setblocking env who).
Proof. intros st. rewrite sock_setblocking_run. by apply forwarding_event. Qed.

Lemma forwarding_time : stable forwarding (time env).
Proof. intros st. rewrite time_run. by apply forwarding_event. Qed.

Lemma forwarding_select timeout : stable forwarding (select env timeout).
Proof. intros st. rewrite select_run. by apply forwarding_event. Qed.

Lemma forwarding_close : stable forwarding (close env).
Proof.
  intros st. rewrite close_run. simpl state_of. eexists.
  split; [apply closed_trace|]. by repeat constructor.
Qed.

Lemma forwarding_tunnel_exit : stable forwarding (tunnel_exit env).
Proof.
  unfold tunnel_exit. stable_step; [stable_step|].
  apply stable_if; [apply forwarding_close|stable_step].
Qed.

(** The body of the [for] loop reads, and forwards what it has read. *)
Lemma forwarding_relay_one sock now :
  stable forwarding (relay_one env config sock now).
Proof.
  intros st. rewrite relay_one_run.
  destruct (recv_answer env sock (buffer config) (tick st)) as [data|e].
  2:{ simpl. by apply forwarding_event. }
  cbv zeta. case_bool_decide as Hdata.
  { subst data. exists [Recv sock (Ok [])]. split; [by destruct sock|].
    by repeat constructor. }
  destruct (env_sendall env (S (tick st)) (other sock) data) as [[k e]|].
  - exists [Recv sock (Ok data); Send (other sock) data (take k data) (Some e)].
    split; [destruct sock; simpl; by rewrite <- app_assoc|].
    constructor; [done|apply prefix_take|constructor].
  - exists [Recv sock (Ok data); Send (other sock) data data None].
    split; [destruct sock; simpl; by rewrite <- app_assoc|].
    by constructor; [done|done|constructor].
Qed.

Lemma forwarding_relay_for r now :
  stable forwarding (relay_for env config r now).
Proof.
  induction r as [|sock r IH]; simpl; [stable_step|].
  stable_step; [apply forwarding_relay_one|].
  by destruct a; [|stable_step].
Qed.

Lemma forwarding_tunnel_iteration : stable forwarding (tunnel_iteration env config).
Proof.
  unfold tunnel_iteration. stable_step.
  - stable_step; [apply forwarding_select|].
    case_bool_decide.
    { stable_step; [by apply forwarding_modify|stable_step]. }
    stable_step; [apply forwarding_time|].
    stable_step; [stable_step|].
    apply stable_if; [stable_step|].
    stable_step.
    + apply stable_if; [apply forwarding_relay_for|stable_step].
    + apply stable_if; stable_step.
  - stable_step; [stable_step|].
    stable_step; [by apply forwarding_emit|].
    stable_step; [by apply forwarding_modify|stable_step].
Qed.

Lemma forwarding_tunnel_while fuel :
  stable forwarding (tunnel_while env config fuel).
Proof.
  induction fuel as [|fuel IH]; simpl; [by intros st|].
  stable_step; [apply forwarding_tunnel_iteration|].
  by destruct a; [|stable_step].
Qed.

(** X20.  The relay moves bytes only by forwarding: from the call of
    [tunnel] to its end (or as far as it has got), every read that
    delivers bytes is followed at once by the write of exactly these
    bytes to the other side, and there is no other write -- nothing is
    sent back to the side it came from, sent twice, or made up. *)
Theorem tunnel_only_forwards (fuel : nat) (st : State) :
  exists evs,
    trace (state_of (tunnel env config fuel st)) = trace st ++ evs
    /\ forwards evs.
Proof.
  revert st. change (stable forwarding (tunnel env config fuel)).
  unfold tunnel.
  stable_step; [apply stable_if; stable_step|].
  stable_step; [apply forwarding_set_buffer|].
  stable_step; [apply forwarding_set_buffer|].
  stable_step; [apply forwarding_time|].
  stable_step; [by apply forwarding_modify|].
  stable_step; [by apply forwarding_modify|].
  stable_step; [apply forwarding_setblocking|].
  stable_step; [apply forwarding_setblocking|].
  stable_step; [apply forwarding_tunnel_while|apply forwarding_tunnel_exit].
Qed.

End Forwarding.

Section RoutingEdges.
Context `{Runtime}.
Variable listening : Listening.

Lemma routing_line_of name value :
  is_routing_name name -> is_routing_line (name ++ lit ": " ++ value) = true.
Proof.
  intros Hname. change (lit ": ") with ([58] ++ [32]). rewrite <- app_assoc.
  by apply routing_line_intro.
Qed.

Lemma strip_by_all sp s : Forall (fun c => sp c = true) s -> strip_by sp s = [].
Proof.
  intros Hall. unfold strip_by.
  assert (lstrip_by sp s = []) as ->; [|done].
  induction Hall as [|c s Hc _ IH]; simpl; [done|]. by rewrite Hc.
Qed.

(** X21.  A routing value without host -- empty, white space only, or
    a colon and a port -- gives the binding's default target, host and
    port: the port that such a value names is not used. *)
Theorem routing_value_without_host (data : bytes) (text : str)
    (pre post : list str) (name value : str) :
  decode data = Ok text ->
  split (lit CRLF) text = pre ++ (name ++ lit ": " ++ value) :: post ->
  Forall (fun x => is_routing_line x = false) pre ->
  is_routing_name name ->
  Forall (fun c => isspace c = true) value
  \/ (exists port, value = lit ":" ++ port /\ is_port port) ->
  resolve_target listening data = (host listening, port listening).
Proof.
  intros Hdec Hsplit Hpre Hname Hvalue. unfold resolve_target.
  rewrite (parse_headers_first listening data text pre _ post Hdec Hsplit Hpre)
    by by apply routing_line_of.
  unfold routing_value. rewrite routing_line_value by done.
  destruct Hvalue as [Hspace|(port & -> & Hport)].
  - unfold strip. by rewrite strip_by_all.
  - destruct (port_last _ Hport) as (c' & Hlast & Hc').
    assert (strip (lit ":" ++ port) = lit ":" ++ port) as ->.
    { apply (strip_by_ends isspace _ 58 c'); try done.
      change (lit ":" ++ port) with (58 :: port).
      rewrite last_cons, Hlast. done. }
    change (lit ":") with [58].
    change (contains 58 ([58] ++ port)) with (true || contains 58 port).
    cbn [orb]. rewrite splitn_1.
    rewrite (proj2 (partition_char_Some 58 _ [] port))
      by (split; [done|apply not_elem_of_nil]).
    by rewrite int_digits_value.
Qed.

(** X22.  A routing value with more than one colon -- an IPv6 literal
    with or without port, for one -- is never routed: what follows its
    first colon is no number, extraction yields nothing and the
    binding's default target is used. *)
Theorem routing_value_with_colons (data : bytes) (text : str)
    (pre post : list str) (name value a b c : str) :
  decode data = Ok text ->
  split (lit CRLF) text = pre ++ (name ++ lit ": " ++ value) :: post ->
  Forall (fun x => is_routing_line x = false) pre ->
  is_routing_name name ->
  strip value = a ++ lit ":" ++ b ++ lit ":" ++ c ->
  parse_headers listening data = None
  /\ resolve_target listening data = (host listening, port listening).
Proof.
  intros Hdec Hsplit Hpre Hname Hvalue.
  assert (parse_headers listening data = None) as Hnone.
  2:{ split; [done|]. by apply resolve_target_none. }
  rewrite (parse_headers_first listening data text pre _ post Hdec Hsplit Hpre)
    by by apply routing_line_of.
  unfold routing_value. rewrite routing_line_value by done.
  change (lit ":") with [58] in *.
  assert (58 ∈ strip value) as Hin.
  { rewrite Hvalue. apply elem_of_app. right. by left. }
  rewrite (proj2 (contains_elem_of 58 _) Hin), splitn_1.
  destruct (partition [58] (strip value)) as [[h p]|] eqn:Hpart.
  2:{ by apply partition_char_None in Hpart. }
  apply partition_char_Some in Hpart as [Hhp Hh].
  assert (58 ∈ p) as Hp.
  { rewrite Hvalue in Hhp. clear -Hhp Hh. revert a Hhp.
    induction h as [|x h IH]; intros a Hhp.
    - destruct a as [|y a]; simpl in Hhp.
      + injection Hhp as <-. apply elem_of_app. right. by left.
      + injection Hhp as -> <-. apply elem_of_app. right. by left.
    - apply not_elem_of_cons in Hh as [Hx Hh].
      destruct a as [|y a]; simpl in Hhp; [injection Hhp as ? _; congruence|].
      injection Hhp as -> Hhp. by apply (IH Hh a). }
  by rewrite (int_colon _ Hp).
Qed.

End RoutingEdges.

Section SessionEdges.
Context `{Runtime}.
Variable env : Env.
Variable config : Config.
Variable listening : Listening.

Local Abbreviation session := (run env config listening).

(** X23.  A buffer size of zero or less disables the binding: the
    first read of every session delivers nothing or raises, and the
    session ends without a socket for the target, a dial or a write. *)
Theorem no_session_without_buffer (fuel : nat) (addr : str * Z) :
  (buffer config <= 0)%Z ->
  let got := recv_answer env Client (buffer config) 0 in
  (got = Ok [] \/ exists e, got = Raise e)
  /\ exists st',
       session fuel (Handler_init addr) = Done (Ok tt) st'
       /\ trace st'
          = Recv Client got
            :: match got with
               | Raise e => [Print (SessionError (log (Handler_init addr)) e)]
               | Ok _ => []
               end
            ++ [Close Client
                  (env_close env (match got with Raise _ => 2 | Ok _ => 1 end)
                             Client);
                Close Target (Some AttributeError)].
Proof.
  intros Hbuf got.
  assert (got = Ok [] \/ exists e, got = Raise e) as Hgot.
  { subst got. unfold recv_answer.
    destruct (buffer config <? 0)%Z; [right; by eexists|].
    destruct (env_recv env 0 Client) as [data|e]; [left|right; by eexists].
    by replace (Z.to_nat (buffer config)) with 0%nat by lia. }
  split; [done|].
  rewrite run_dial. change (tick (Handler_init addr)) with 0%nat. fold got.
  destruct Hgot as [Hgot|[e Hgot]]; rewrite Hgot; cbv zeta.
  - rewrite bool_decide_true by done. eexists. split; [done|].
    by rewrite closed_trace.
  - eexists. split; [done|]. by rewrite closed_trace.
Qed.

Lemma sock_send_run who data st :
  sock_send env who data st
  = match env_send env (tick st) who data with
    | Ok k =>
      Done (Ok (length (take k data)))
           (add_event (Send who data (take k data) None) st)
    | Raise e => Done (Raise e) (add_event (Send who data [] (Some e)) st)
    end.
Proof.
  unfold sock_send. io_steps.
  destruct (env_send env (tick st) who data); by io_steps.
Qed.

Lemma wrapped_from {A} (body m : IO A) h f st st' :
  body st = m st' ->
  try_finally (try_except body h) f st = try_finally (try_except m h) f st'.
Proof. unfold try_finally, try_except. by intros ->. Qed.

(** X24.  The handshake text is written with one [send], whose count
    of bytes the session does not look at: when the client takes only a
    beginning of the text (or nothing of it), the session goes on into
    the relay all the same -- its next call reads the clock for
    [tunnel] -- and the rest of the text is never written. *)
Theorem handshake_may_be_cut_short (fuel : nat) (addr : str * Z)
    (data hello : bytes) (k : nat) :
  recv_answer env Client (buffer config) 0 = Ok data -> data <> [] ->
  env_socket env 1 = None ->
  env_connect env 2 (resolve_target listening data).1
                    (resolve_target listening data).2 = None ->
  encode (response config) = Ok hello ->
  env_send env 4 Client hello = Ok k ->
  exists line rest,
    trace (state_of (session fuel (Handler_init addr)))
    = [Recv Client (Ok data); Socket None;
       Connect (resolve_target listening data).1
               (resolve_target listening data).2 None;
       Print (Connected line);
       Send Client hello (take k hello) None;
       Time (env_time env 5)] ++ rest
    /\ forwards rest.
Proof.
  intros Hrecv Hdata Hsock Hconn Henc Hsend.
  assert ((buffer config <? 0)%Z = false) as Hbuf.
  { unfold recv_answer in Hrecv. by destruct (buffer config <? 0)%Z. }
  rewrite run_dial. change (tick (Handler_init addr)) with 0%nat.
  rewrite Hrecv. cbv zeta. rewrite bool_decide_false by done.
  rewrite Hsock, Hconn.
  set (st4 := add_event (Print _) _).
  set (zeros := replicate (Z.to_nat (buffer config)) x00).
  set (stT := add_event (Time (env_time env 5))
                (set_buffer Target zeros
                   (set_buffer Client zeros
                      (add_event (Send Client hello (take k hello) None) st4)))).
  set (rest_of_tunnel :=
         (modify (set_last_activity (env_time env 5));;
          modify (set_error false);;
          sock_setblocking env Client;;
          sock_setblocking env Target;;
          tunnel_while env config fuel;;
          tunnel_exit env) : IO unit).
  rewrite (wrapped_from _ rest_of_tunnel _ _ st4 stT).
  2:{ rewrite bind_run, lift_run, Henc. cbv beta iota.
      rewrite bind_run, sock_send_run. change (tick st4) with 4%nat.
      rewrite Hsend. cbv beta iota. unfold tunnel. rewrite Hbuf.
      subst rest_of_tunnel stT. io_steps.
      change (tick st4) with 4%nat. reflexivity. }
  assert (stable forwarding
            (try_finally (try_except rest_of_tunnel run_except) (close env)))
    as Hrest.
  { stable_step; [|apply forwarding_close].
    stable_step.
    - subst rest_of_tunnel.
      stable_step; [by apply forwarding_modify|].
      stable_step; [by apply forwarding_modify|].
      stable_step; [apply forwarding_setblocking|].
      stable_step; [apply forwarding_setblocking|].
      stable_step; [apply forwarding_tunnel_while|apply forwarding_tunnel_exit].
    - unfold run_except, printlog.
      stable_step; [stable_step|by apply forwarding_emit]. }
  destruct (Hrest stT) as (rest & Htrace & Hfw).
  eexists _, rest. split; [|done]. rewrite Htrace. subst stT st4.
  by cbn [trace add_event set_buffer set_target set_log Handler_init app].
Qed.

(** X25.  A response text that cannot be encoded (a lone surrogate
    from the configuration file) fails every session after its target
    has been dialed: the error is reported, both handles are closed,
    and the client has been sent nothing. *)
Theorem unencodable_response_fails_session (fuel : nat) (addr : str * Z)
    (data : bytes) (e : exn) :
  recv_answer env Client (buffer config) 0 = Ok data -> data <> [] ->
  env_socket env 1 = None ->
  env_connect env 2 (resolve_target listening data).1
                    (resolve_target listening data).2 = None ->
  encode (response config) = Raise e ->
  exists st' line,
    session fuel (Handler_init addr) = Done (Ok tt) st'
    /\ trace st'
       = [Recv Client (Ok data); Socket None;
          Connect (resolve_target listening data).1
                  (resolve_target listening data).2 None;
          Print (Connected line);
          Print (SessionError line e);
          Close Client (env_close env 5 Client);
          Close Target (env_close env 6 Target)].
Proof.
  intros Hrecv Hdata Hsock Hconn Henc.
  rewrite run_dial. change (tick (Handler_init addr)) with 0%nat.
  rewrite Hrecv. cbv zeta. rewrite bool_decide_false by done.
  rewrite Hsock, Hconn.
  unfold try_finally, try_except. rewrite bind_run, lift_run, Henc.
  cbv beta iota. rewrite run_except_run, close_run.
  eexists _, _. split; [done|]. by rewrite closed_trace.
Qed.

(** One pass of the loop in which [select] reports a socket in error. *)
Lemma tunnel_iteration_error st ready :
  select_answer env (timeout config) (tick st) = Ok ready ->
  e_client ready = true \/ e_target ready = true ->
  tunnel_iteration env config st
  = Done (Ok Break) (set_error true (add_event (Select (Ok ready)) st)).
Proof.
  intros Hsel He.
  unfold tunnel_iteration, try_except. rewrite bind_run, select_run, Hsel.
  cbv beta iota.
  rewrite bool_decide_true; [by io_steps|].
  destruct He as [-> | ->]; [done|]. by destruct (e_client ready).
Qed.

(** X26.  A socket that [select] reports in its error set ends the
    session at that pass: nothing is read, written or logged, [tunnel]
    closes both handles itself and [run] closes them once more, which
    on closed sockets does nothing. *)
Theorem socket_in_error_ends_session (k : nat) (st0 st : State)
    (ready : Ready) :
  session k st0 = Pending st ->
  select_answer env (timeout config) (tick st) = Ok ready ->
  e_client ready = true \/ e_target ready = true ->
  forall n, exists st' c t t',
    session (k + S n) st0 = Done (Ok tt) st'
    /\ error st' = true
    /\ trace st' = trace st ++ [Select (Ok ready);
                                Close Client c; Close Target t;
                                Close Client None; Close Target t']
    /\ (t' = None \/ t' = Some AttributeError).
Proof.
  intros Hrun Hsel He n.
  destruct (run_pending env config listening k st0 st Hrun) as (_ & _ & Hgo).
  pose proof (tunnel_iteration_error st ready Hsel He) as Hpass.
  set (st1 := set_error true (add_event (Select (Ok ready)) st)) in *.
  exists (closed env (closed env st1)),
         (close_client_answer env st1), (close_target_answer env st1),
         (close_target_answer env (closed env st1)).
  split; [by rewrite Hgo, resume_run, tunnel_while_S, Hpass|].
  split; [done|]. split.
  - rewrite !closed_trace.
    assert (close_client_answer env (closed env st1) = None) as ->
      by (unfold close_client_answer; by rewrite closed_client).
    subst st1. simpl trace. by rewrite <- !app_assoc.
  - unfold close_target_answer. pose proof (closed_target env st1) as Ht.
    destruct (target (closed env st1)) as [[|]|]; auto. done.
Qed.

(** A turn after which the [for] loop goes on. *)
Lemma turn_goes_on_run sock now st evs :
  turn_goes_on env config sock (tick st) evs ->
  exists st',
    relay_one env config sock now st = Done (Ok Continue) st'
    /\ trace st' = trace st ++ evs /\ log st' = log st.
Proof.
  intros Hturn. rewrite relay_one_run.
  destruct Hturn as [e Hrecv Hblock|data Hrecv Hdata Hsend
                     |data k e Hrecv Hdata Hsend Hblock];
    rewrite Hrecv; cbv zeta.
  - rewrite Hblock. eexists. split; [done|]. by simpl.
  - rewrite bool_decide_false, Hsend by done.
    eexists. split; [done|]. destruct sock; simpl; by rewrite <- app_assoc.
  - rewrite bool_decide_false, Hsend, Hblock by done.
    eexists. split; [done|]. destruct sock; simpl; by rewrite <- app_assoc.
Qed.

(** The [for] loop up to a read that fails. *)
Lemma turns_before_run r sock now evs e t :
  turns_before env config r sock t evs ->
  forall st, t = tick st ->
  recv_answer env sock (buffer config) (t + length evs) = Raise e ->
  is_BlockingIOError e = false ->
  exists st',
    relay_for env config r now st = Done (Raise e) st'
    /\ trace st' = trace st ++ evs ++ [Recv sock (Raise e)]
    /\ log st' = log st.
Proof.
  induction 1 as [sock r t|first r sock t evs evs' Hturn Hrest IH];
    intros st -> Hrecv Hblock; cbn [relay_for]; rewrite bind_run.
  - rewrite relay_one_run. simpl in Hrecv. rewrite Nat.add_0_r in Hrecv.
    rewrite Hrecv, Hblock. eexists. split; [done|]. by simpl.
  - destruct (turn_goes_on_run first now st evs Hturn)
      as (st1 & -> & Htrace & Hlog).
    rewrite length_app, Nat.add_assoc in Hrecv.
    destruct (IH st1) as (st' & -> & Htrace' & Hlog'); [|done|done|].
    { unfold tick. by rewrite Htrace, length_app. }
    exists st'. split; [done|]. split; [|congruence].
    by rewrite Htrace', Htrace, <- !app_assoc.
Qed.

(** X27.  A read of the relay that fails with anything but "would
    block" -- a connection reset, say -- ends the session at that pass,
    whichever of the ready sockets it is read from: the failure is
    logged as a tunnel error and nothing follows it but the closes of
    both handles.  The turns before it in the pass stand as they are:
    when it is the read of the target that fails, the turn of the
    client has taken place before it -- its read and, if that delivered
    bytes, the write of the chunk to the target, whole or cut short by
    "would block". *)
Theorem failed_read_ends_session (k : nat) (st0 st : State) (ready : Ready)
    (sock : endpoint) (e : exn) (evs : list event) :
  session k st0 = Pending st ->
  select_answer env (timeout config) (tick st) = Ok ready ->
  e_client ready = false -> e_target ready = false ->
  Qgtb (env_time env (S (tick st)) - last_activity st) (timeout config) = false ->
  turns_before env config (ready_list (r_client ready) (r_target ready)) sock
               (S (S (tick st))) evs ->
  recv_answer env sock (buffer config) (S (S (tick st)) + length evs) = Raise e ->
  is_BlockingIOError e = false ->
  forall n, exists st' c t t',
    session (k + S n) st0 = Done (Ok tt) st'
    /\ error st' = true
    /\ trace st' = trace st ++ [Select (Ok ready);
                                Time (env_time env (S (tick st)))]
                   ++ evs
                   ++ [Recv sock (Raise e);
                       Print (TunnelError (log st) e);
                       Close Client c; Close Target t;
                       Close Client None; Close Target t']
    /\ (t' = None \/ t' = Some AttributeError).
Proof.
  intros Hrun Hsel He1 He2 Hidle Hturns Hrecv Hblock n.
  destruct (run_pending env config listening k st0 st Hrun) as (_ & _ & Hgo).
  pose proof (tunnel_iteration_serve env config st ready Hsel He1 He2 Hidle)
    as Hpass.
  cbv zeta in Hpass.
  rewrite bool_decide_true in Hpass by (by destruct Hturns).
  set (st2 := add_event (Time _) _) in Hpass.
  destruct (turns_before_run _ sock (env_time env (S (tick st))) evs e _
              Hturns st2) as (st3 & Hfor & Htrace & Hlog);
    [subst st2; by rewrite !tick_add_event|done|done|].
  rewrite Hfor in Hpass.
  set (st1 := set_error true _) in Hpass.
  exists (closed env (closed env st1)),
         (close_client_answer env st1), (close_target_answer env st1),
         (close_target_answer env (closed env st1)).
  split; [by rewrite Hgo, resume_run, tunnel_while_S, Hpass|].
  split; [done|]. split.
  - rewrite !closed_trace.
    assert (close_client_answer env (closed env st1) = None) as ->
      by (unfold close_client_answer; by rewrite closed_client).
    subst st1 st2. simpl trace. simpl in Hlog. rewrite Htrace, Hlog.
    simpl trace. by rewrite <- !app_assoc.
  - unfold close_target_answer. pose proof (closed_target env st1) as Ht.
    destruct (target (closed env st1)) as [[|]|]; auto. done.
Qed.

End SessionEdges.

(* ===================================================================== *)
(** * The further theorems on sample inputs                               *)
(* ===================================================================== *)

Lemma parse_indexed_arg_decimal_witness :
  parse_indexed_arg (H := ascii_runtime) (lit "0:0.0.0.0:80")
  = Ok (0%Z, lit "0.0.0.0", 80%Z).
Proof.
  apply (parse_indexed_arg_decimal (H := ascii_runtime)
           (lit "0") (lit "0.0.0.0") (lit "80")).
  - split; [discriminate|]. split; [|vm_compute; lia].
    repeat constructor; vm_compute; discriminate.
  - apply (bool_decide_unpack _). vm_compute. exact I.
  - split; [discriminate|]. split; [|vm_compute; lia].
    repeat constructor; vm_compute; discriminate.
Defined.

(** The sample command line, setting by setting. *)
Lemma sample_argv_spelled :
  Forall2 spells sample_settings
          [[lit "-b"; lit "1:10.0.0.1:80"]; [lit "--listen=0:192.168.0.2:22"]].
Proof.
  constructor; [|constructor; [|constructor]].
  - by apply (spells_short_apart (Bind _)).
  - apply (spells_long_joined (Listen _) (lit "listen")); [done|].
    by apply (list_elem_of_lookup_2 _ 5%nat).
Qed.

Lemma parse_args_collects_witness :
  parse_args (H := ascii_runtime) sample_argv
  = ([], Started ([], [(1%Z, lit "10.0.0.1", 80%Z)],
                  [(0%Z, lit "192.168.0.2", 22%Z)])).
Proof.
  apply (parse_args_collects (H := ascii_runtime) sample_settings
           [[lit "-b"; lit "1:10.0.0.1:80"]; [lit "--listen=0:192.168.0.2:22"]]
           []).
  - apply sample_argv_spelled.
  - exact I.
  - intros Hin. repeat (apply elem_of_cons in Hin as [Hin|Hin]; [discriminate|]).
    by apply elem_of_nil in Hin.
  - by repeat constructor.
  - by repeat constructor.
Defined.

(** [-b 0:0.0.0.0:80 -h -b junk]: the usage text and status 0. *)
Lemma parse_args_help_witness :
  parse_args (H := ascii_runtime)
             [lit "-b"; lit "0:0.0.0.0:80"; lit "-h"; lit "-b"; lit "junk"]
  = (print_usage.1, SysExit 0).
Proof.
  apply (parse_args_help (H := ascii_runtime)
           [Bind (lit "0:0.0.0.0:80")] [Bind (lit "junk")]
           [[lit "-b"; lit "0:0.0.0.0:80"]; [lit "-h"]; [lit "-b"; lit "junk"]]
           [] [(0%Z, lit "0.0.0.0", 80%Z)] []).
  - constructor; [by apply (spells_short_apart (Bind _))|].
    constructor; [by apply (spells_short_flag Help)|].
    constructor; [by apply (spells_short_apart (Bind _))|constructor].
  - exact I.
  - intros Hin. repeat (apply elem_of_cons in Hin as [Hin|Hin]; [discriminate|]).
    by apply elem_of_nil in Hin.
  - by repeat constructor.
  - constructor.
Defined.

(** [-b 0:0.0.0.0 -h]: the value has no port; the help is never
    reached. *)
Lemma parse_args_bad_value_witness :
  parse_args (H := ascii_runtime) [lit "-b"; lit "0:0.0.0.0"; lit "-h"]
  = ([], Crashed ValueError).
Proof.
  apply (parse_args_bad_value (H := ascii_runtime)
           [] [Help] (Bind (lit "0:0.0.0.0")) (lit "0:0.0.0.0")
           [[lit "-b"; lit "0:0.0.0.0"]; [lit "-h"]] [] [] []).
  - constructor; [by apply (spells_short_apart (Bind _))|].
    constructor; [by apply (spells_short_flag Help)|constructor].
  - exact I.
  - by left.
  - intros r Hr. vm_compute in Hr. discriminate Hr.
  - apply not_elem_of_nil.
  - constructor.
  - constructor.
Defined.

(** [-h -x] *)
Lemma parse_args_unknown_letter_witness :
  parse_args (H := ascii_runtime) [lit "-h"; lit "-x"]
  = (Printlog (lit "Error: option -x not recognized") :: print_usage.1,
     SysExit 2).
Proof.
  apply (parse_args_unknown_letter (H := ascii_runtime)
           [Help] [[lit "-h"]] 120 [] []).
  - constructor; [by apply (spells_short_flag Help)|constructor].
  - apply (bool_decide_unpack _). vm_compute. exact I.
Defined.

(** [-b 0:0.0.0.0:80 start -l 0:127.0.0.1:22]: the listening is not
    read. *)
Lemma parse_args_stops_at_positional_witness :
  parse_args (H := ascii_runtime)
             [lit "-b"; lit "0:0.0.0.0:80"; lit "start";
              lit "-l"; lit "0:127.0.0.1:22"]
  = ([], Started ([], [(0%Z, lit "0.0.0.0", 80%Z)], [])).
Proof.
  etrans.
  - apply (parse_args_stops_at_positional (H := ascii_runtime)
             [lit "-b"; lit "0:0.0.0.0:80"] (lit "start")
             [lit "-l"; lit "0:127.0.0.1:22"]).
    + by left.
    + discriminate.
  - reflexivity.
Defined.

(** The sample command line: two servers, the first on the default
    address for the listening given, the second on the address given
    for the default listening. *)
Lemma main_serves_every_binding_witness :
  (main (H := ascii_runtime) sample_machine sample_argv).2
  = Serving
      [mkServer 0 (mkBinding (lit "0.0.0.0") 8880)
                (mkListening (lit "192.168.0.2") 22) sample_resolved;
       mkServer 1 (mkBinding (lit "10.0.0.1") 80)
                (mkListening (lit "127.0.0.1") 22) sample_resolved].
Proof.
  rewrite (main_serves_every_binding (H := ascii_runtime) sample_machine
             sample_argv
             (main_config (H := ascii_runtime) sample_machine sample_argv).1
             sample_resolved).
  - reflexivity.
  - by vm_compute.
  - reflexivity.
Defined.

Lemma main_thread_start_fails_witness :
  (main (H := ascii_runtime) machine_one_thread sample_argv).2
  = Uncaught RuntimeError
  /\ last (main (H := ascii_runtime) machine_one_thread sample_argv).1
     = Some (ServerStart
               (mkServer 1 (mkBinding (lit "10.0.0.1") 80)
                         (mkListening (lit "127.0.0.1") 22) sample_resolved)
               (Some RuntimeError)).
Proof.
  rewrite (main_thread_start_fails (H := ascii_runtime) machine_one_thread
             sample_argv
             (main_config (H := ascii_runtime) machine_one_thread sample_argv).1
             sample_resolved 1 (mkBinding (lit "10.0.0.1") 80)).
  - split; [reflexivity|]. by vm_compute.
  - by vm_compute.
  - reflexivity.
  - reflexivity.
  - intros j Hj. by destruct j as [|j]; [|lia].
Defined.

Lemma main_resolves_servers_witness :
  exists out config servers,
    main (H := ascii_runtime) sample_machine sample_argv
    = (out, Serving servers)
    /\ length servers = 2%nat
    /\ servers !! 0%nat
       = Some (mkServer 0 (mkBinding (lit "0.0.0.0") 8880)
                        (mkListening (lit "192.168.0.2") 22) config)
    /\ servers !! 1%nat
       = Some (mkServer 1 (mkBinding (lit "10.0.0.1") 80)
                        (mkListening (lit "127.0.0.1") 22) config).
Proof.
  destruct (main_resolves_servers (H := ascii_runtime) sample_machine
              sample_argv [] [(1%Z, lit "10.0.0.1", 80%Z)]
              [(0%Z, lit "192.168.0.2", 22%Z)] None)
    as (out & config & servers & Hmain & Hlen & Hlook).
  - by vm_compute.
  - reflexivity.
  - repeat constructor; simpl; lia.
  - repeat constructor; simpl; lia.
  - reflexivity.
  - exists out, config, servers. split; [exact Hmain|]. split; [exact Hlen|].
    rewrite Hlen in Hlook. simpl in Hlook.
    split; (rewrite Hlook by lia; reflexivity).
Defined.

(** [-f missing.json -b 0:0.0.0.0:80] on a machine without that file *)
Lemma main_config_file_error_witness :
  main (H := ascii_runtime) sample_machine
       [lit "-f"; lit "missing.json"; lit "-b"; lit "0:0.0.0.0:80"]
  = ([ConfigError OSError], Exited 1).
Proof.
  apply (main_config_file_error (H := ascii_runtime) sample_machine _
           (lit "missing.json") [(0%Z, lit "0.0.0.0", 80%Z)] [] OSError).
  - by vm_compute.
  - discriminate.
  - reflexivity.
Defined.

(** A file that sets the buffer size; two overrides. *)
Lemma load_config_keeps_settings_witness :
  let config :=
    {| bindings := [mkBinding (lit "0.0.0.0") 80];
       listenings := [mkListening DEFAULT_LISTEN_HOST DEFAULT_LISTEN_PORT;
                      mkListening (lit "10.0.0.7") 22];
       buffer := 1024; timeout := TIMEOUT; response := RESPONSE |} in
  load_config (Some (Ok (mkFileData [] [] (Some 1024%Z) None)))
              [(0%Z, lit "0.0.0.0", 80%Z)] [(1%Z, lit "10.0.0.7", 22%Z)]
  = Started config
  /\ buffer config = 1024%Z /\ response config = RESPONSE
  /\ timeout config = TIMEOUT.
Proof.
  intros config. split; [reflexivity|].
  apply (load_config_keeps_settings
           (Some (mkFileData [] [] (Some 1024%Z) None))
           [(0%Z, lit "0.0.0.0", 80%Z)] [(1%Z, lit "10.0.0.7", 22%Z)] config).
  reflexivity.
Defined.

(** Two bindings from the file; index -1 is the second of them, and
    index -3 is none. *)
Lemma load_config_index_below_zero_witness :
  let b0 := mkBinding (lit "10.0.0.1") 80 in
  let b1 := mkBinding (lit "10.0.0.2") 80 in
  let file := Some (mkFileData [b0; b1] [] None None) in
  (exists config,
     load_config (Ok <$> file) [((-1)%Z, lit "10.0.0.9", 443%Z)] []
     = Started config
     /\ bindings config = [b0; mkBinding (lit "10.0.0.9") 443])
  /\ load_config (Ok <$> file) [((-3)%Z, lit "10.0.0.9", 443%Z)] []
     = Crashed IndexError.
Proof.
  intros b0 b1 file. split.
  - destruct (load_config_index_below_zero file (-1) (lit "10.0.0.9") 443)
      as [Hbind _]; [lia|].
    eexists. split; [exact Hbind|reflexivity].
  - destruct (load_config_index_below_zero file (-3) (lit "10.0.0.9") 443)
      as [Hbind _]; [lia|].
    exact Hbind.
Defined.

(** The address is in use: the thread ends in [bind], with its socket
    open. *)
Lemma server_setup_failure_witness :
  Server_run net_bind_fails sample_server 3 Server_init
  = Ended (Raised (builtin OSError))
          {| running := false;
             server_trace := [NewSocket None; Setsockopt None;
                              Settimeout 2 None;
                              BindSocket (lit "0.0.0.0") 8880
                                         (Some (builtin OSError))] |}.
Proof.
  apply (server_setup_failure net_bind_fails sample_server 3 3
                              (builtin OSError)).
  - lia.
  - reflexivity.
  - intros j Hj. by do 3 (destruct j as [|j]; [done|]); lia.
Defined.

(** A server that is stopped while it waits for its second
    connection. *)
Lemma server_run_ends_witness :
  let st := thread_state (Server_run net_stopped sample_server 5 Server_init) in
  Server_run net_stopped sample_server 5 Server_init = Ended (Returned tt) st
  /\ running st = false
  /\ last (server_trace st) = Some (CloseSocket None)
  /\ net_stop net_stopped 9 = true.
Proof.
  intros st.
  assert (Server_run net_stopped sample_server 5 Server_init
          = Ended (Returned tt) st) as Hrun by (by vm_compute).
  split; [exact Hrun|].
  destruct (server_run_ends net_stopped sample_server 5 (Returned tt) st)
    as (Hrunning & Hlast & _ & _).
  - intros j Hj. by do 5 (destruct j as [|j]; [done|]); lia.
  - exact Hrun.
  - split; [exact Hrunning|]. split; [exact Hlast|reflexivity].
Defined.

Lemma no_accept_after_stop_witness :
  server_trace (thread_state (Server_run net_stopped sample_server 5
                                         Server_init)) !! 9%nat
  = Some (Accept sample_addr (Some socket_timeout))
  /\ (9 <= 9)%nat.
Proof.
  assert (server_trace (thread_state (Server_run net_stopped sample_server 5
                                                 Server_init)) !! 9%nat
          = Some (Accept sample_addr (Some socket_timeout))) as Hev
    by (by vm_compute).
  split; [exact Hev|].
  apply (no_accept_after_stop net_stopped sample_server 5 9 9 sample_addr
                              (Some socket_timeout)).
  - intros j Hj. by do 5 (destruct j as [|j]; [done|]); lia.
  - lia.
  - reflexivity.
  - exact Hev.
Defined.

Lemma stop_during_setup_is_lost_witness :
  net_stop net_stopped_early 2 = true
  /\ exists st,
       Server_run net_stopped_early sample_server 100 Server_init = Accepting st
       /\ running st = true.
Proof.
  split; [reflexivity|].
  apply (stop_during_setup_is_lost net_stopped_early sample_server 100).
  - intros j Hj. by do 5 (destruct j as [|j]; [done|]); lia.
  - intros t Ht. simpl in Ht. apply Nat.eqb_eq in Ht. lia.
  - intros t Ht (e & Hraise & Hfatal). simpl in Hraise.
    destruct (Nat.ltb_spec t 6); [lia|].
    injection Hraise as <-. discriminate.
Defined.

Lemma server_dies_of_first_failure_witness :
  exists st,
    Server_run net_accept_fails sample_server 2 Server_init
    = Ended (Raised (builtin OSError)) st
    /\ length (server_trace st) = 9%nat
    /\ last (server_trace st) = Some (CloseSocket None)
    /\ running st = false.
Proof.
  apply (server_dies_of_first_failure net_accept_fails sample_server 2 7
                                      (builtin OSError)).
  - intros j Hj. by do 5 (destruct j as [|j]; [done|]); lia.
  - lia.
  - reflexivity.
  - reflexivity.
  - intros j Hj (e & Hraise & Hfatal).
    assert (j = 6)%nat as -> by lia. injection Hraise as <-. discriminate.
  - reflexivity.
  - lia.
Defined.

Lemma stop_ends_server_witness :
  exists r st,
    Server_run net_stopped sample_server 5 Server_init = Ended r st
    /\ (length (server_trace st) <= 13)%nat
    /\ last (server_trace st)
       = Some (CloseSocket (net_raises net_stopped
                                       (length (server_trace st) - 1)))
    /\ running st = false.
Proof.
  apply (stop_ends_server net_stopped sample_server 5 9).
  - intros j Hj. by do 5 (destruct j as [|j]; [done|]); lia.
  - lia.
  - reflexivity.
  - lia.
Defined.

(** The connection accepted at call 6 is handed over at call 8. *)
Lemma handler_follows_accept_witness :
  let final := server_trace (thread_state (Server_run net_stopped sample_server
                                                      5 Server_init)) in
  final !! 8%nat
  = Some (HandlerStart sample_addr sample_listening sample_config None)
  /\ final !! 6%nat = Some (Accept sample_addr None)
  /\ final !! 7%nat = Some (ClientSetblocking None).
Proof.
  intros final.
  assert (final !! 8%nat
          = Some (HandlerStart sample_addr sample_listening sample_config None))
    as Hev by (by vm_compute).
  split; [exact Hev|].
  destruct (handler_follows_accept net_stopped sample_server 5 8 sample_addr
              sample_listening sample_config None)
    as (Haccept & Hblocking & _).
  - intros j Hj. by do 5 (destruct j as [|j]; [done|]); lia.
  - exact Hev.
  - split; [exact Haccept|exact Hblocking].
Defined.

(** [X-Real-Host: :2222] *)
Lemma routing_value_without_host_witness :
  resolve_target (H := ascii_runtime) sample_listening chunk_port_only
  = (lit "127.0.0.1", 22%Z).
Proof.
  apply (routing_value_without_host (H := ascii_runtime) sample_listening
           chunk_port_only
           (lit ("GET / HTTP/1.1" ++ CRLF ++ "X-Real-Host: :2222" ++ CRLF
                 ++ CRLF))
           [lit "GET / HTTP/1.1"] [[]; []] (lit "X-Real-Host") (lit ":2222")).
  - reflexivity.
  - reflexivity.
  - repeat constructor.
  - reflexivity.
  - right. exists (lit "2222"). split; [reflexivity|].
    split; [discriminate|]. split; [|vm_compute; lia].
    repeat constructor; vm_compute; discriminate.
Defined.

(** [X-Real-Host: [::1]:22] *)
Lemma routing_value_with_colons_witness :
  parse_headers (H := ascii_runtime) sample_listening chunk_ipv6 = None
  /\ resolve_target (H := ascii_runtime) sample_listening chunk_ipv6
     = (lit "127.0.0.1", 22%Z).
Proof.
  apply (routing_value_with_colons (H := ascii_runtime) sample_listening
           chunk_ipv6
           (lit ("GET / HTTP/1.1" ++ CRLF ++ "X-Real-Host: [::1]:22" ++ CRLF
                 ++ CRLF))
           [lit "GET / HTTP/1.1"] [[]; []] (lit "X-Real-Host") (lit "[::1]:22")
           (lit "[") [] (lit "1]:22")).
  - reflexivity.
  - reflexivity.
  - repeat constructor.
  - reflexivity.
  - reflexivity.
Defined.

(** A buffer size of 0: the client has sent a request, and the session
    reads nothing of it. *)
Lemma no_session_without_buffer_witness :
  exists st',
    run (H := ascii_runtime) env_idle config_no_buffer sample_listening 0
        (Handler_init sample_addr) = Done (Ok tt) st'
    /\ trace st' = [Recv Client (Ok []);
                    Close Client None; Close Target (Some AttributeError)].
Proof.
  destruct (no_session_without_buffer (H := ascii_runtime) env_idle
              config_no_buffer sample_listening 0 sample_addr)
    as (_ & st' & Hrun & Htrace); [simpl; lia|].
  exists st'. split; [exact Hrun|exact Htrace].
Defined.

(** The client takes ten bytes of the handshake text. *)
Lemma handshake_may_be_cut_short_witness :
  exists line rest,
    trace (state_of (run (H := ascii_runtime) env_short_write sample_config
                         sample_listening 0 (Handler_init sample_addr)))
    = [Recv Client (Ok (ascii_bytes "hello")); Socket None;
       Connect (lit "127.0.0.1") 22 None;
       Print (Connected line);
       Send Client (ascii_bytes "HTTP/1.1 101") (ascii_bytes "HTTP/1.1 1") None;
       Time (seconds 500)] ++ rest
    /\ forwards rest.
Proof.
  apply (handshake_may_be_cut_short (H := ascii_runtime) env_short_write
           sample_config sample_listening 0 sample_addr
           (ascii_bytes "hello") (ascii_bytes "HTTP/1.1 101") 10);
    (reflexivity || discriminate).
Defined.

(** A response text with a lone surrogate. *)
Lemma unencodable_response_fails_session_witness :
  exists st' line,
    run (H := ascii_runtime) env_idle config_bad_response sample_listening 0
        (Handler_init sample_addr) = Done (Ok tt) st'
    /\ trace st'
       = [Recv Client (Ok (ascii_bytes "hello")); Socket None;
          Connect (lit "127.0.0.1") 22 None;
          Print (Connected line);
          Print (SessionError line UnicodeEncodeError);
          Close Client None; Close Target None].
Proof.
  apply (unencodable_response_fails_session (H := ascii_runtime) env_idle
           config_bad_response sample_listening 0 sample_addr
           (ascii_bytes "hello") UnicodeEncodeError);
    (reflexivity || discriminate).
Defined.

(** [select] reports the client socket in error at the first pass. *)
Lemma socket_in_error_ends_session_witness :
  let st0 := Handler_init sample_addr in
  let session := run (H := ascii_runtime) env_relay_error sample_config
                     sample_listening in
  session 0%nat st0 = Pending (state_of (session 0%nat st0))
  /\ exists st' c t t',
       session 1%nat st0 = Done (Ok tt) st'
       /\ error st' = true
       /\ trace st'
          = trace (state_of (session 0%nat st0))
            ++ [Select (Ok (mkReady false false true true true false));
                Close Client c; Close Target t;
                Close Client None; Close Target t']
       /\ (t' = None \/ t' = Some AttributeError).
Proof.
  intros st0 session.
  assert (session 0%nat st0 = Pending (state_of (session 0%nat st0))) as Hrun
    by (by vm_compute).
  split; [exact Hrun|].
  apply (socket_in_error_ends_session (H := ascii_runtime) env_relay_error
           sample_config sample_listening 0 st0 _
           (mkReady false false true true true false) Hrun);
    [reflexivity|by left].
Defined.

(** In the first pass the chunk of the client is forwarded, then the
    read of the target finds the connection reset. *)
Lemma failed_read_ends_session_witness :
  let st0 := Handler_init sample_addr in
  let session := run (H := ascii_runtime) env_target_reset sample_config
                     sample_listening in
  session 0%nat st0 = Pending (state_of (session 0%nat st0))
  /\ exists st' c t t',
       session 1%nat st0 = Done (Ok tt) st'
       /\ error st' = true
       /\ trace st'
          = trace (state_of (session 0%nat st0))
            ++ [Select (Ok (mkReady true true true true false false));
                Time (seconds 9)]
            ++ [Recv Client (Ok (ascii_bytes "abcdefgh"));
                Send Target (ascii_bytes "abcdefgh") (ascii_bytes "abcdefgh")
                     None]
            ++ [Recv Target (Raise OSError);
                Print (TunnelError (log (state_of (session 0%nat st0))) OSError);
                Close Client c; Close Target t;
                Close Client None; Close Target t']
       /\ (t' = None \/ t' = Some AttributeError).
Proof.
  intros st0 session.
  assert (session 0%nat st0 = Pending (state_of (session 0%nat st0))) as Hrun
    by (by vm_compute).
  split; [exact Hrun|].
  apply (failed_read_ends_session (H := ascii_runtime) env_target_reset
           sample_config sample_listening 0 st0 _
           (mkReady true true true true false false) Target OSError
           [Recv Client (Ok (ascii_bytes "abcdefgh"));
            Send Target (ascii_bytes "abcdefgh") (ascii_bytes "abcdefgh") None]
           Hrun);
    try (by vm_compute).
  apply (turns_later env_target_reset sample_config Client [Target] Target
           10 [Recv Client (Ok (ascii_bytes "abcdefgh"));
               Send Target (ascii_bytes "abcdefgh") (ascii_bytes "abcdefgh")
                    None] []).
  - by apply turn_forwarded.
  - apply turns_first.
Defined.
